(** * Safe Email Generator: the generation engine of [generator.py]

    A shallow embedding of the email generation action of the Tk
    application ([App.generate_emails]) and of the pure helpers it calls,
    followed by the properties of the engine.

    Python text is modelled as [list ascii], one element per code point,
    the 8-bit characters standing for the code points U+0000 to U+00FF.
    [str.lower], [str.strip] and the regular expression class [\s] are
    written out for exactly that range.  Python integers are [Z]; lengths
    and indices are [nat]. *)

From Stdlib Require Import Ascii String DecimalString.
From Stdlib Require Import List ZArith Lia Bool Arith.
Import ListNotations.

Local Open Scope char_scope.
Local Open Scope list_scope.

(** ** Text *)

Definition str := list ascii.

(** A Python string literal. *)
Definition lit (s : string) : str := list_ascii_of_string s.

Definition code (c : ascii) : N := N_of_ascii c.

Definition between (lo hi c : ascii) : bool :=
  (code lo <=? code c)%N && (code c <=? code hi)%N.

Definition one_of (set : string) (c : ascii) : bool :=
  existsb (Ascii.eqb c) (lit set).

Definition str_eqb (a b : str) : bool :=
  if list_eq_dec ascii_dec a b then true else false.

(** [x in seq] for a sequence or a set of strings. *)
Definition str_in (x : str) (xs : list str) : bool := existsb (str_eqb x) xs.

(** [sep.join(parts)] *)
Fixpoint join (sep : str) (parts : list str) : str :=
  match parts with
  | [] => []
  | [p] => p
  | p :: rest => p ++ sep ++ join sep rest
  end.

(** *** Character classes *)

Definition is_lower_az (c : ascii) : bool := between "a" "z" c.
Definition is_upper_az (c : ascii) : bool := between "A" "Z" c.
Definition is_digit (c : ascii) : bool := between "0" "9" c.
Definition is_alpha (c : ascii) : bool := is_lower_az c || is_upper_az c.

(** [str.isspace] on U+0000..U+00FF, which is also what [\s] matches:
    TAB LF VT FF CR, FS GS RS US, SPACE, NEL and NBSP. *)
Definition is_space (c : ascii) : bool :=
  let n := code c in
  ((9 <=? n) && (n <=? 13) || (28 <=? n) && (n <=? 32)
   || (n =? 133) || (n =? 160))%N.

(** The characters with a lowercase mapping in U+0000..U+00FF: A-Z and
    the Latin-1 capitals U+00C0..U+00DE without the multiplication sign. *)
Definition is_upper (c : ascii) : bool :=
  let n := code c in
  (is_upper_az c || (192 <=? n) && (n <=? 222) && negb (n =? 215))%N.

Definition lower_char (c : ascii) : ascii :=
  if is_upper c then ascii_of_N (code c + 32) else c.

(** [s.lower()] *)
Definition lower (s : str) : str := map lower_char s.

(** *** Stripping *)

Fixpoint lstrip (p : ascii -> bool) (s : str) : str :=
  match s with
  | c :: t => if p c then lstrip p t else s
  | [] => []
  end.

Definition rstrip (p : ascii -> bool) (s : str) : str :=
  rev (lstrip p (rev s)).

(** [s.strip(chars)] with [p] the membership test of [chars];
    [s.strip()] is [strip_with is_space]. *)
Definition strip_with (p : ascii -> bool) (s : str) : str :=
  rstrip p (lstrip p s).

Definition strip (s : str) : str := strip_with is_space s.

(** *** Substitution and splitting on runs of a character class

    Both [re.sub] calls of the program, and the one of
    [normalize_name_line], have a pattern of the form [[class]{m,}] with
    [m >= 1].  The matches of such a pattern, leftmost first and greedy,
    are the maximal runs of class characters of length at least [m]; a
    shorter run contains no match and is copied.  [run] holds the
    current run, most recent character first. *)

Definition flush (m : nat) (repl run : str) : str :=
  if (m <=? length run)%nat then repl else rev run.

Fixpoint sub_runs (cls : ascii -> bool) (m : nat) (repl run s : str) : str :=
  match s with
  | [] => flush m repl run
  | c :: t =>
      if cls c then sub_runs cls m repl (c :: run) t
      else flush m repl run ++ c :: sub_runs cls m repl [] t
  end.

(** [re.sub("[cls]{m,}", repl, s)] for [m >= 1]. *)
Definition re_sub_class (cls : ascii -> bool) (m : nat) (repl s : str) : str :=
  sub_runs cls m repl [] s.

(** [re.split("[cls]+", s)]: the pieces between the maximal runs, empty
    pieces at either end included.  [cur] is the current piece, most
    recent character first; [in_run] tells that the previous character
    was a class character. *)
Fixpoint split_runs (cls : ascii -> bool) (cur : str) (in_run : bool)
         (s : str) : list str :=
  match s with
  | [] => [rev cur]
  | c :: t =>
      if cls c then
        if in_run then split_runs cls [] true t
        else rev cur :: split_runs cls [] true t
      else split_runs cls (c :: cur) false t
  end.

Definition re_split_class (cls : ascii -> bool) (s : str) : list str :=
  split_runs cls [] false s.

(** *** Numbers as text *)

(** [str(n)] for an integer. *)
Definition str_of_Z (n : Z) : str :=
  lit (NilZero.string_of_int (Z.to_int n)).

(** [f"{n:0{w}d}"] for [n >= 0]: decimal digits, zero-padded on the left
    to width [w]. *)
Definition zero_pad (w : nat) (n : Z) : str :=
  let d := str_of_Z n in
  repeat "0" (w - length d) ++ d.

Definition digit_val (c : ascii) : Z := Z.of_N (code c) - 48.

(** The digit part of an integer literal accepted by [int(text)]:
    digits, with single underscores allowed between digits only. *)
Fixpoint int_digits (acc : Z) (after_digit : bool) (s : str) : option Z :=
  match s with
  | [] => if after_digit then Some acc else None
  | c :: t =>
      if is_digit c then int_digits (10 * acc + digit_val c) true t
      else if Ascii.eqb c "_" then
        if after_digit then int_digits acc false t else None
      else None
  end.

(** [int(text)]; [None] is [ValueError]. *)
Definition py_int (text : str) : option Z :=
  match strip text with
  | "-" :: t => option_map Z.opp (int_digits 0 false t)
  | "+" :: t => int_digits 0 false t
  | s => int_digits 0 false s
  end.

(** ** Regular expressions

    [re.fullmatch] on a pattern without groups, anchors or
    back-references decides membership of the whole string in the
    pattern's language; it is computed here with Brzozowski derivatives. *)

Module Regex.

Inductive regex : Type :=
| Void
| Eps
| Class (p : ascii -> bool)
| Cat (r1 r2 : regex)
| Alt (r1 r2 : regex)
| Star (r : regex).

(** [r+] *)
Definition Plus (r : regex) : regex := Cat r (Star r).

(** [r{n,}] *)
Fixpoint AtLeast (n : nat) (r : regex) : regex :=
  match n with
  | O => Star r
  | S k => Cat r (AtLeast k r)
  end.

Fixpoint nullable (r : regex) : bool :=
  match r with
  | Void => false
  | Eps => true
  | Class _ => false
  | Cat r1 r2 => nullable r1 && nullable r2
  | Alt r1 r2 => nullable r1 || nullable r2
  | Star _ => true
  end.

Fixpoint deriv (c : ascii) (r : regex) : regex :=
  match r with
  | Void => Void
  | Eps => Void
  | Class p => if p c then Eps else Void
  | Cat r1 r2 =>
      if nullable r1 then Alt (Cat (deriv c r1) r2) (deriv c r2)
      else Cat (deriv c r1) r2
  | Alt r1 r2 => Alt (deriv c r1) (deriv c r2)
  | Star r1 => Cat (deriv c r1) (Star r1)
  end.

Fixpoint fullmatch (r : regex) (s : str) : bool :=
  match s with
  | [] => nullable r
  | c :: t => fullmatch (deriv c r) t
  end.

(** The language of a pattern. *)
Inductive lang : regex -> str -> Prop :=
| LEps : lang Eps []
| LClass p c : p c = true -> lang (Class p) [c]
| LCat r1 r2 s1 s2 : lang r1 s1 -> lang r2 s2 -> lang (Cat r1 r2) (s1 ++ s2)
| LAltL r1 r2 s : lang r1 s -> lang (Alt r1 r2) s
| LAltR r1 r2 s : lang r2 s -> lang (Alt r1 r2) s
| LStarNil r : lang (Star r) []
| LStarCons r s1 s2 :
    lang r s1 -> lang (Star r) s2 -> lang (Star r) (s1 ++ s2).

End Regex.

(** The character classes and the pattern of
    [re.fullmatch(r"[a-zA-Z0-9.-]+\.[a-zA-Z]{2,}", d)]. *)
Definition host_char (c : ascii) : bool :=
  is_lower_az c || is_upper_az c || is_digit c || one_of ".-" c.

Definition is_dot (c : ascii) : bool := Ascii.eqb c ".".

Definition domain_re : Regex.regex :=
  Regex.Cat (Regex.Plus (Regex.Class host_char))
            (Regex.Cat (Regex.Class is_dot)
                       (Regex.AtLeast 2 (Regex.Class is_alpha))).

Definition domain_ok (d : str) : bool := Regex.fullmatch domain_re d.

(** ** Module-level constants and helpers of [generator.py] *)

Definition PATTERNS : list str :=
  map lit
    [ "{first}.{last}"; "{first}{last}"; "{f}{last}"; "{first}{l}";
      "{last}.{first}"; "{first}_{last}"; "{first}-{last}";
      "{first}.{last}{n2}"; "{first}{last}{n3}" ]%string.

(** [slug]: strip, lowercase, then [re.sub(r"[^a-z0-9]+", "", s)]. *)
Definition slug_char (c : ascii) : bool := is_lower_az c || is_digit c.

Definition slug (s : str) : str :=
  let s := lower (strip s) in
  re_sub_class (fun c => negb (slug_char c)) 1 [] s.

(** Truthiness of a string or of [None]. *)
Definition truthy (s : option str) : bool :=
  match s with
  | Some (_ :: _) => true
  | _ => false
  end.

(** [split_name]: the first and the last whitespace-separated token;
    [None] stands for Python's [None]. *)
Definition split_name (full : str) : option str * option str :=
  let parts :=
    filter (fun p => truthy (Some p)) (re_split_class is_space (strip full)) in
  match parts with
  | [] => (None, None)
  | [p] => (Some p, Some (lit "user"))
  | p :: _ => (Some p, Some (last parts []))
  end.

(** [normalize_name_line]: trim and collapse whitespace. *)
Definition normalize_name_line (line : str) : str :=
  re_sub_class is_space 1 (lit " ") (strip line).

(** [str.format] with keyword arguments, for templates made of literal
    text, the escapes [{{] and [}}], and fields [{name}].  [field] is the
    name being read, most recent character first.  [None]: the call
    raises ([KeyError] for an unknown name, [ValueError] for a lone
    brace), or the template uses a conversion, a format spec, an
    attribute or an index, which no template of [PATTERNS] does. *)
Fixpoint format_fields (kw : str -> option str) (field : option str)
         (t : str) : option str :=
  match t with
  | [] =>
      match field with
      | None => Some []
      | Some _ => None
      end
  | c :: t' =>
      match field with
      | Some name =>
          if Ascii.eqb c "}" then
            match kw (rev name), format_fields kw None t' with
            | Some v, Some rest => Some (v ++ rest)
            | _, _ => None
            end
          else if one_of "{!:.[]" c then None
          else format_fields kw (Some (c :: name)) t'
      | None =>
          if Ascii.eqb c "{" then
            match t' with
            | "{" :: t'' => option_map (cons "{") (format_fields kw None t'')
            | _ => format_fields kw (Some []) t'
            end
          else if Ascii.eqb c "}" then
            match t' with
            | "}" :: t'' => option_map (cons "}") (format_fields kw None t'')
            | _ => None
            end
          else option_map (cons c) (format_fields kw None t')
      end
  end.

Definition py_format (template : str) (kw : str -> option str) : option str :=
  format_fields kw None template.

(** The keyword arguments of the [format] call in [render_pattern]. *)
Definition render_kwargs (first last n2 n3 : str) (name : str) : option str :=
  let f := firstn 1 first in
  let l := firstn 1 last in
  if str_eqb name (lit "first") then Some first
  else if str_eqb name (lit "last") then Some last
  else if str_eqb name (lit "f") then Some f
  else if str_eqb name (lit "l") then Some l
  else if str_eqb name (lit "n2") then Some n2
  else if str_eqb name (lit "n3") then Some n3
  else None.

(** ** The random source

    [random.Random] is library code.  The engine reaches it through
    [choice] and [randint], both of which draw with [_randbelow(n)], a
    number in [[0, n)] for [n > 0].  [Rng] is the state of a generator,
    [seeded s] the state of [random.Random(s)] for a string [s]. *)

Class PyRandom : Type := {
  Rng : Type;
  seeded : str -> Rng;
  randbelow : nat -> Rng -> nat * Rng;
  randbelow_lt : forall n g, (0 < n)%nat -> (fst (randbelow n g) < n)%nat
}.

(** One call on the random source, with its arguments and its answer. *)
Inductive draw : Type :=
| DrawInt (a b v : Z)
| DrawChoice (len i : nat).

(** What a call can do, executed with the given number of loop
    iterations available. *)
Inductive outcome (A : Type) : Type :=
| Returns (a : A)
| Raises
| NoFuel.

Arguments Returns {A} a.
Arguments Raises {A}.
Arguments NoFuel {A}.

Record Row : Type := {
  row_name : str;
  row_email : str;
  row_domain : str;
  row_pattern : str;
  row_username : str
}.

Inductive dialog : Type :=
| ShowError (title message : str)
| ShowWarning (title message : str).

(** The part of the application object that [generate_emails] reads and
    writes.  The two text widgets are given by their lines
    ([widget.get("1.0", "end").splitlines()]); [pattern_flags] holds the
    values of the nine [BooleanVar]s that [_build_ui] pairs with
    [PATTERNS], in that order; [out] is the content of the output
    widget. *)
Record App : Type := {
  email_seed_var : str;
  count_var : str;
  names_text : list str;
  domains_text : list str;
  unique_var : bool;
  lower_var : bool;
  pattern_flags : list bool;
  last_rows : list Row;
  out : str
}.

Definition pattern_vars (app : App) : list (str * bool) :=
  combine PATTERNS (pattern_flags app).

Definition newline : ascii := ascii_of_nat 10.
Definition dquote : ascii := ascii_of_nat 34.

(** [_read_lines] *)
Definition read_lines (raw : list str) : list str :=
  map normalize_name_line
      (filter (fun ln => truthy (Some (normalize_name_line ln))) raw).

(** The local variables of the attempt loop of [generate_emails]. *)
Record loop_state : Type := {
  results : list str;
  rows : list Row;
  seen : list str;
  tries : Z
}.

(** The validated inputs of a batch. *)
Record batch : Type := {
  count : Z;
  domains : list str;
  enabled_patterns : list str;
  name_pool : list (str * str * str);
  unique : bool;
  lowercase : bool
}.

(** Lines 333-337: the sanitizing of a rendered username. *)
Definition user_char (c : ascii) : bool :=
  is_lower_az c || is_digit c || one_of "._-" c.

Definition separator (c : ascii) : bool := one_of "._-" c.

Definition sanitize (lower_on : bool) (username : str) : str :=
  let username := if lower_on then lower username else username in
  let username := re_sub_class (fun c => negb (user_char c)) 1 [] username in
  strip_with (one_of ".-_") (re_sub_class separator 2 (lit ".") username).

(** Line 338: [not username or len(username) < 3]. *)
Definition rejected (username : str) : bool :=
  negb (truthy (Some username)) || (length username <? 3)%nat.

Definition max_tries (b : batch) : Z :=
  count b * (if unique b then 10 else 2).

(** Line 327: the loop condition. *)
Definition loop_cond (b : batch) (st : loop_state) : bool :=
  (Z.of_nat (length (results st)) <? count b)%Z
  && (tries st <? max_tries b)%Z.

Definition loop_init : loop_state :=
  {| results := []; rows := []; seen := []; tries := 0 |}.

Section Engine.

Context {G : PyRandom}.

(** A [random.Random] object, with the calls made on it so far. *)
Record Random : Type := {
  gen : Rng;
  drawn : list draw
}.

Definition M (A : Type) : Type := Random -> outcome (A * Random).

Definition ret {A} (a : A) : M A := fun r => Returns (a, r).

Definition raise {A} : M A := fun _ => Raises.

Definition bind {A B} (m : M A) (k : A -> M B) : M B :=
  fun r =>
    match m r with
    | Returns (a, r') => k a r'
    | Raises => Raises
    | NoFuel => NoFuel
    end.

Notation "x <- m ;; k" := (bind m (fun x => k))
  (at level 61, m at next level, right associativity).

(** [rng.randint(a, b)]: [a + _randbelow(b - a + 1)], [ValueError] on
    an empty range. *)
Definition randint (a b : Z) : M Z :=
  fun r =>
    if (a <=? b)%Z then
      let (k, g) := randbelow (Z.to_nat (b - a + 1)) (gen r) in
      let v := (a + Z.of_nat k)%Z in
      Returns (v, {| gen := g; drawn := drawn r ++ [DrawInt a b v] |})
    else Raises.

(** [rng.choice(seq)]: [seq[_randbelow(len(seq))]], [IndexError] on an
    empty sequence. *)
Definition choice {A} (seq : list A) : M A :=
  fun r =>
    match seq with
    | [] => Raises
    | _ =>
        let (i, g) := randbelow (length seq) (gen r) in
        match nth_error seq i with
        | Some x =>
            Returns (x, {| gen := g;
                           drawn := drawn r ++ [DrawChoice (length seq) i] |})
        | None => Raises
        end
    end.

(** [_rng_from_seed]: [ambient] is the state that [random.Random(None)]
    takes from the operating system on this run. *)
Definition rng_from_seed (ambient : Rng) (seed_value : str) : Random :=
  let seed_value := strip seed_value in
  {| gen := if str_eqb seed_value [] then ambient else seeded seed_value;
     drawn := [] |}.

Definition render_pattern (pattern first last : str) : M str :=
  n2 <- randint 0 99 ;;
  n3 <- randint 0 999 ;;
  match py_format pattern
          (render_kwargs first last (zero_pad 2 n2) (zero_pad 3 n3)) with
  | Some s => ret s
  | None => raise
  end.

(** Lines 328-356: one pass through the body of the loop. *)
Definition attempt (b : batch) (st : loop_state) : M loop_state :=
  let st := {| results := results st; rows := rows st; seen := seen st;
               tries := tries st + 1 |} in
  entry <- choice (name_pool b) ;;
  let '(display_name, first, last) := entry in
  pattern <- choice (enabled_patterns b) ;;
  username <- render_pattern pattern first last ;;
  let username := sanitize (lowercase b) username in
  if rejected username then ret st
  else
    d <- choice (domains b) ;;
    let domain := lower d in
    let email := username ++ lit "@" ++ domain in
    if unique b && str_in email (seen st) then ret st
    else
      ret {| results := results st ++ [email];
             rows := rows st ++ [ {| row_name := display_name;
                                     row_email := email;
                                     row_domain := domain;
                                     row_pattern := pattern;
                                     row_username := username |} ];
             seen := if unique b then seen st ++ [email] else seen st;
             tries := tries st |}.

(** [while cond: body], with [fuel] passes available. *)
Fixpoint while_loop {S} (fuel : nat) (cond : S -> bool) (body : S -> M S)
         (st : S) : M S :=
  fun r =>
    if cond st then
      match fuel with
      | O => NoFuel
      | Datatypes.S fuel' =>
          match body st r with
          | Returns (st', r') => while_loop fuel' cond body st' r'
          | Raises => Raises
          | NoFuel => NoFuel
          end
      end
    else Returns (st, r).

(** [n] passes through the body, whatever the condition. *)
Fixpoint passes {S} (n : nat) (body : S -> M S) (st : S) : M S :=
  match n with
  | O => ret st
  | Datatypes.S k => st' <- body st ;; passes k body st'
  end.

(** Lines 320-356. *)
Definition email_loop (fuel : nat) (b : batch) : M loop_state :=
  while_loop fuel (loop_cond b) (attempt b) loop_init.

End Engine.

(** ** [App.generate_emails] *)

Definition is_nil {A} (l : list A) : bool :=
  match l with
  | [] => true
  | _ => false
  end.

(** Lines 277-283: the count, or [None] when the [ValueError] handler
    runs. *)
Definition read_count (text : str) : option Z :=
  match py_int (strip text) with
  | Some n => if (n <=? 0)%Z || (n >? 200000)%Z then None else Some n
  | None => None
  end.

(** Lines 305-314: the parsed name pool. *)
Definition pool_entry (full : str) : list (str * str * str) :=
  match split_name full with
  | (Some first, Some last) =>
      if negb (truthy (Some first)) || negb (truthy (Some last)) then []
      else
        let first_s := slug first in
        let last_s := slug last in
        if truthy (Some first_s) && truthy (Some last_s)
        then [(full, first_s, last_s)]
        else []
  | _ => []
  end.

Definition build_name_pool (names : list str) : list (str * str * str) :=
  flat_map pool_entry names.

Definition msg_invalid_count : dialog :=
  ShowError (lit "Invalid count")
            (lit "Email count must be an integer between 1 and 200000.").

Definition msg_no_names : dialog :=
  ShowError (lit "No names")
            (lit "Add some names or click Generate in the names section.").

Definition msg_no_domains : dialog :=
  ShowError (lit "No domains") (lit "Please provide at least one domain.").

Definition msg_invalid_domains (bad : list str) : dialog :=
  ShowError (lit "Invalid domains")
            (lit "These domains look invalid:" ++ [newline]
             ++ join [newline] bad).

Definition msg_no_patterns : dialog :=
  ShowError (lit "No patterns") (lit "Enable at least one pattern.").

Definition msg_invalid_names : dialog :=
  ShowError (lit "Invalid names")
            (lit "Could not parse names. Use format like " ++ [dquote]
             ++ lit "Alex River" ++ [dquote] ++ lit ".").

Definition msg_fewer (requested : Z) (generated : nat) : dialog :=
  ShowWarning (lit "Generated fewer than requested")
              (lit "Requested " ++ str_of_Z requested ++ lit ", generated "
               ++ str_of_Z (Z.of_nat generated) ++ lit ". "
               ++ lit "Try adding more names/domains, enabling more patterns, or disabling uniqueness.").

(** Lines 277-318: the checks, each ending the action with an error
    dialog, and the inputs of the loop when all of them pass. *)
Definition validate (app : App) : dialog + batch :=
  match read_count (count_var app) with
  | None => inl msg_invalid_count
  | Some count =>
      let names := read_lines (names_text app) in
      let domains := read_lines (domains_text app) in
      if is_nil names then inl msg_no_names
      else if is_nil domains then inl msg_no_domains
      else
        let bad := filter (fun d => negb (domain_ok d)) domains in
        if negb (is_nil bad) then inl (msg_invalid_domains bad)
        else
          let enabled_patterns :=
            map fst (filter (fun pv => snd pv) (pattern_vars app)) in
          if is_nil enabled_patterns then inl msg_no_patterns
          else
            let name_pool := build_name_pool names in
            if is_nil name_pool then inl msg_invalid_names
            else inr {| count := count;
                        domains := domains;
                        enabled_patterns := enabled_patterns;
                        name_pool := name_pool;
                        unique := unique_var app;
                        lowercase := lower_var app |}
  end.

(** Lines 358-368: the warning, the retained rows and the output text. *)
Definition publish (app : App) (b : batch) (st : loop_state)
  : App * list dialog :=
  ({| email_seed_var := email_seed_var app;
      count_var := count_var app;
      names_text := names_text app;
      domains_text := domains_text app;
      unique_var := unique_var app;
      lower_var := lower_var app;
      pattern_flags := pattern_flags app;
      last_rows := rows st;
      out := join [newline] (results st) |},
   if (Z.of_nat (length (results st)) <? count b)%Z
   then [msg_fewer (count b) (length (results st))]
   else []).

Section Action.

Context {G : PyRandom}.

(** [generate_emails]: the new state of the application and the
    dialogs shown.  The loop gets [max_tries] passes. *)
Definition generate_emails (ambient : Rng) (app : App)
  : outcome (App * list dialog) :=
  let rng := rng_from_seed ambient (email_seed_var app) in
  match validate app with
  | inl err => Returns (app, [err])
  | inr b =>
      match email_loop (Z.to_nat (max_tries b)) b rng with
      | Returns (st, _) => Returns (publish app b st)
      | Raises => Raises
      | NoFuel => NoFuel
      end
  end.

(** The loop alone, run on the generator of the given seed with [fuel]
    passes available. *)
Definition run_batch (fuel : nat) (ambient : Rng) (seed : str) (b : batch)
  : outcome (loop_state * Random) :=
  email_loop fuel b (rng_from_seed ambient seed).

End Action.

(** ** A small generator to run the model on

    A linear congruential generator, standing in for the Mersenne
    Twister of [random.Random] wherever the model is evaluated.  The
    theorems below hold for every generator. *)

Definition lcg_next (g : N) : N := ((g * 1103515245 + 12345) mod 2147483648)%N.

Definition lcg_below (n : nat) (g : N) : nat * N :=
  (N.to_nat ((g / 65536) mod N.of_nat n), lcg_next g).

Definition lcg_seed (s : str) : N :=
  fold_left (fun acc c => lcg_next (acc + code c)%N) s 1%N.

Lemma lcg_below_lt n g : (0 < n)%nat -> (fst (lcg_below n g) < n)%nat.
Proof.
  intros Hn. unfold lcg_below. simpl.
  assert (H : ((g / 65536) mod N.of_nat n < N.of_nat n)%N)
    by (apply N.mod_lt; lia).
  lia.
Qed.

#[export] Instance lcg : PyRandom :=
  {| Rng := N;
     seeded := lcg_seed;
     randbelow := lcg_below;
     randbelow_lt := lcg_below_lt |}.

(** ** The names side of the application *)

Definition FIRST_SYLLABLES : list str :=
  map lit
    [ "al"; "an"; "ar"; "be"; "ca"; "da"; "el"; "fa"; "jo"; "ka";
      "li"; "ma"; "na"; "or"; "pa"; "ra"; "sa"; "ta"; "ve"; "za";
      "mi"; "no"; "ri"; "lu"; "ke"; "ti" ]%string.

Definition MIDDLE_SYLLABLES : list str :=
  map lit
    [ "la"; "re"; "mi"; "no"; "ta"; "di"; "ko"; "vi"; "ra"; "lo"; "ne";
      "" ]%string.

Definition LAST_SYLLABLES : list str :=
  map lit
    [ "son"; "ner"; "lin"; "mar"; "ton"; "ric"; "ven"; "ley"; "dan"; "tis";
      "mond"; "berg"; "stone" ]%string.

(** The titlecase of a character, as [str.capitalize] puts the first
    character of a string: a-z and the Latin-1 small letters lose 32,
    the sharp s becomes ["Ss"].  The micro sign and the y with diaeresis
    have their capitals outside U+0000..U+00FF; they are left as they
    are here, and no syllable of the program contains them. *)
Definition title_char (c : ascii) : str :=
  let n := code c in
  if (n =? 223)%N then lit "Ss"
  else if is_lower_az c || (224 <=? n)%N && (n <=? 254)%N && negb (n =? 247)%N
       then [ascii_of_N (n - 32)]
       else [c].

(** [s.capitalize()] *)
Definition capitalize (s : str) : str :=
  match s with
  | [] => []
  | c :: t => title_char c ++ lower t
  end.

(** [s or default] for strings. *)
Definition or_else (s default : str) : str :=
  if truthy (Some s) then s else default.

(** The line boundaries of [str.splitlines] in U+0000..U+00FF: LF, VT,
    FF, CR, FS, GS, RS and NEL. *)
Definition is_linebreak (c : ascii) : bool :=
  let n := code c in
  ((10 <=? n) && (n <=? 13) || (28 <=? n) && (n <=? 30) || (n =? 133))%N.

Definition is_cr (c : ascii) : bool := (code c =? 13)%N.
Definition is_lf (c : ascii) : bool := (code c =? 10)%N.

(** [s.splitlines()]: the lines without their boundaries, CR LF being
    one boundary; no empty line after a final boundary.  [cur] is the
    current line, most recent character first; [after_cr] tells that
    the previous character was a CR, whose boundary a LF now belongs
    to. *)
Fixpoint splitlines_from (cur : str) (after_cr : bool) (s : str) : list str :=
  match s with
  | [] => if is_nil cur then [] else [rev cur]
  | c :: t =>
      if is_lf c && after_cr then splitlines_from cur false t
      else if is_linebreak c then rev cur :: splitlines_from [] (is_cr c) t
      else splitlines_from (c :: cur) false t
  end.

Definition splitlines (s : str) : list str := splitlines_from [] false s.

(** A Tk text widget is given by its content, the text before the
    newline that the widget always ends with: [get("1.0", "end")] is the
    content and that newline, [insert("end", s)] appends [s] to the
    content, [insert("1.0", s)] puts it in front, and
    [delete("1.0", "end")] empties the content. *)
Definition text_get (content : str) : str := content ++ [newline].

(** [widget.get("1.0", "end").splitlines()]: what the [names_text] and
    [domains_text] fields of [App] hold. *)
Definition widget_lines (content : str) : list str :=
  splitlines (text_get content).

(** The part of the application object that the three name actions read
    and write. *)
Record NamesUI : Type := {
  name_seed_var : str;
  gen_names_count_var : str;
  gen_mode_var : str;
  add_name_var : str;
  names_content : str
}.

Definition set_names (ui : NamesUI) (content : str) : NamesUI :=
  {| name_seed_var := name_seed_var ui;
     gen_names_count_var := gen_names_count_var ui;
     gen_mode_var := gen_mode_var ui;
     add_name_var := add_name_var ui;
     names_content := content |}.

Inductive notice : Type :=
| ShowInfo (title message : str).

Definition msg_invalid_name_count : dialog :=
  ShowError (lit "Invalid count")
            (lit "Name count must be an integer between 1 and 200000.").

Definition msg_invalid_name : dialog :=
  ShowError (lit "Invalid name")
            (lit "Please enter a plausible name like " ++ [dquote]
             ++ lit "Max Example" ++ [dquote] ++ lit ".").

Definition msg_kept (n : nat) : notice :=
  ShowInfo (lit "Deduplicate")
           (lit "Kept " ++ str_of_Z (Z.of_nat n) ++ lit " unique names.").

(** Lines 229-233 and 268-272: text put after the content of a widget
    that has some, in front of a content of whitespace only; [lead] is
    what goes between the old content and the new text. *)
Definition insert_text (content lead text : str) : str :=
  if truthy (Some (strip (text_get content)))
  then content ++ lead ++ text
  else text ++ content.

(** [add_name]: the new state and the dialogs shown. *)
Definition add_name (ui : NamesUI) : NamesUI * list dialog :=
  let name := normalize_name_line (add_name_var ui) in
  if negb (truthy (Some name)) then (ui, [])
  else if (length (filter is_alpha name) <? 2)%nat
       then (ui, [msg_invalid_name])
       else
         ({| name_seed_var := name_seed_var ui;
             gen_names_count_var := gen_names_count_var ui;
             gen_mode_var := gen_mode_var ui;
             add_name_var := [];
             names_content :=
               insert_text (names_content ui) [newline] name |},
          []).

(** The character's case folding, as [str.casefold] has it: the
    lowercase, and ["ss"] for the sharp s.  The micro sign folds to
    U+03BC, which nothing else in U+0000..U+00FF folds to; it stands for
    its fold here, which leaves the comparison of folded lines as it
    is. *)
Definition casefold_char (c : ascii) : str :=
  if (code c =? 223)%N then lit "ss" else [lower_char c].

Definition casefold (s : str) : str := flat_map casefold_char s.

(** Lines 239-246: the loop of [dedup_names]; [seen] is the set of
    keys, [kept] the list [out]. *)
Fixpoint dedup_loop (seen : list str) (kept : list str) (lines : list str)
  : list str :=
  match lines with
  | [] => kept
  | ln :: rest =>
      let key := casefold ln in
      if str_in key seen then dedup_loop seen kept rest
      else dedup_loop (seen ++ [key]) (kept ++ [ln]) rest
  end.

(** [dedup_names] *)
Definition dedup_names (ui : NamesUI) : NamesUI * list notice :=
  let lines := read_lines (widget_lines (names_content ui)) in
  let kept := dedup_loop [] [] lines in
  (set_names ui (join [newline] kept), [msg_kept (length kept)]).

Section Names.

Context {G : PyRandom}.

Definition fictional_name : M str :=
  bind (choice FIRST_SYLLABLES) (fun a =>
  bind (choice MIDDLE_SYLLABLES) (fun b =>
  let first := capitalize (a ++ b) in
  bind (choice FIRST_SYLLABLES) (fun c =>
  bind (choice MIDDLE_SYLLABLES) (fun d =>
  bind (choice LAST_SYLLABLES) (fun e =>
  let last := capitalize (c ++ d ++ e) in
  let first :=
    or_else (re_sub_class (fun x => negb (is_alpha x)) 1 [] first)
            (lit "Alex") in
  let last :=
    or_else (re_sub_class (fun x => negb (is_alpha x)) 1 [] last)
            (lit "River") in
  ret (first ++ lit " " ++ last)))))).

(** [[m for _ in range(n)]] *)
Fixpoint repeat_m {A} (n : nat) (m : M A) : M (list A) :=
  match n with
  | O => ret []
  | S k => bind m (fun x => bind (repeat_m k m) (fun xs => ret (x :: xs)))
  end.

(** [generate_names]: the new state and the dialogs shown. *)
Definition generate_names (ambient : Rng) (ui : NamesUI)
  : outcome (NamesUI * list dialog) :=
  match read_count (gen_names_count_var ui) with
  | None => Returns (ui, [msg_invalid_name_count])
  | Some n =>
      let rng := rng_from_seed ambient (name_seed_var ui) in
      match repeat_m (Z.to_nat n) fictional_name rng with
      | Returns (names, _) =>
          let text := join [newline] names in
          if str_eqb (gen_mode_var ui) (lit "replace")
          then Returns (set_names ui text, [])
          else Returns
                 (set_names ui (insert_text (names_content ui) [newline] text),
                  [])
      | Raises => Raises
      | NoFuel => NoFuel
      end
  end.

End Names.

(** ** The exports *)

(** [s.replace(old, new)] for a one-character [old]. *)
Definition replace_char (old : ascii) (new s : str) : str :=
  flat_map (fun c => if Ascii.eqb c old then new else [c]) s.

(** [sql_escape] *)
Definition sql_escape (s : str) : str := replace_char "'" (lit "''") s.

Definition cr : ascii := ascii_of_nat 13.

(** [csv_quote], the local function of [export_csv]. *)
Definition csv_quote (val : str) : str :=
  if existsb (fun ch => existsb (Ascii.eqb ch) val) [","; dquote; newline; cr]
  then [dquote] ++ replace_char dquote [dquote; dquote] val ++ [dquote]
  else val.

(** The columns of both exports, and the values of a row in that
    order. *)
Definition export_columns : list str :=
  map lit ["name"; "email"; "domain"; "pattern"; "username"]%string.

Definition row_values (r : Row) : list str :=
  [row_name r; row_email r; row_domain r; row_pattern r; row_username r].

(** Lines 421-424: the text that [export_csv] writes. *)
Definition csv_text (rows : list Row) : str :=
  join (lit ",") export_columns ++ [newline]
  ++ concat (map (fun r => join (lit ",") (map csv_quote (row_values r))
                           ++ [newline])
                 rows).

(** Lines 468-471: the line of one row in the [INSERT] statement. *)
Definition sql_values_line (r : Row) : str :=
  lit "  ("
  ++ join (lit ", ")
          (map (fun v => lit "'" ++ sql_escape v ++ lit "'") (row_values r))
  ++ lit ")".

(** Lines 460-473: the text that [export_sql] writes. *)
Definition sql_text (rows : list Row) : str :=
  lit "-- Synthetic/test data export" ++ [newline]
  ++ lit "-- Table: synthetic_emails" ++ [newline; newline]
  ++ lit "CREATE TABLE IF NOT EXISTS synthetic_emails (" ++ [newline]
  ++ lit "  name TEXT," ++ [newline] ++ lit "  email TEXT," ++ [newline]
  ++ lit "  domain TEXT," ++ [newline] ++ lit "  pattern TEXT," ++ [newline]
  ++ lit "  username TEXT" ++ [newline]
  ++ lit ");" ++ [newline; newline]
  ++ lit "INSERT INTO synthetic_emails (name, email, domain, pattern, username) VALUES"
  ++ [newline]
  ++ join (lit "," ++ [newline]) (map sql_values_line rows)
  ++ lit ";" ++ [newline].

(** What an export does: the error of [_ensure_rows], nothing when the
    file dialog is cancelled, or a file written and a notice shown. *)
Inductive exported : Type :=
| NothingToExport (d : dialog)
| Cancelled
| Written (path content : str) (n : notice).

Definition msg_nothing_to_export : dialog :=
  ShowError (lit "Nothing to export")
            (lit "Generate emails first (Generate Emails).").

Definition msg_saved (title : string) (path : str) : notice :=
  ShowInfo (lit title) (lit "Saved to:" ++ [newline] ++ path).

(** [export_csv] and [export_sql]: [path] is what the file dialog
    returns, empty when it is cancelled. *)
Definition export_csv (app : App) (path : str) : exported :=
  if is_nil (last_rows app) then NothingToExport msg_nothing_to_export
  else if negb (truthy (Some path)) then Cancelled
  else Written path (csv_text (last_rows app)) (msg_saved "Exported CSV" path).

Definition export_sql (app : App) (path : str) : exported :=
  if is_nil (last_rows app) then NothingToExport msg_nothing_to_export
  else if negb (truthy (Some path)) then Cancelled
  else Written path (sql_text (last_rows app)) (msg_saved "Exported SQL" path).

(** * Notions used in the statements *)

(** ** Shapes of strings *)

Definition starts_with (p : ascii -> bool) (s : str) : bool :=
  match s with
  | c :: _ => p c
  | [] => false
  end.

Definition ends_with (p : ascii -> bool) (s : str) : bool :=
  starts_with p (rev s).

(** No two separators side by side. *)
Fixpoint sep_run_free (s : str) : bool :=
  match s with
  | a :: t => negb (separator a && starts_with separator t) && sep_run_free t
  | [] => true
  end.

(** Made of characters of [[a-z0-9._-]] only. *)
Definition all_user (s : str) : Prop := Forall (fun c => user_char c = true) s.

(** The 256 characters. *)
Definition all_chars : list ascii := map ascii_of_nat (seq 0 256).

(** ** The sanitizer as the specification words it

    The steps of the specification, written from its words, to compare
    with [sanitize]. *)

(** Step 2: strip any character not in [[a-z0-9._-]]. *)
Definition spec_strip_chars (s : str) : str := filter user_char s.

(** Step 3: collapse any run of two or more separator characters into a
    single ["."].  [in_run]: the run being read has been replaced
    already. *)
Fixpoint spec_collapse (in_run : bool) (s : str) : str :=
  match s with
  | [] => []
  | c :: t =>
      if separator c then
        if in_run then spec_collapse true t
        else if starts_with separator t then "." :: spec_collapse true t
        else c :: spec_collapse false t
      else c :: spec_collapse false t
  end.

(** Step 4: trim leading and trailing separator characters. *)
Definition trim_back (p : ascii -> bool) (s : str) : str :=
  fold_right (fun c acc => if p c && is_nil acc then [] else c :: acc) [] s.

Definition spec_trim (s : str) : str := trim_back separator (lstrip separator s).

(** Steps 1 to 4. *)
Definition spec_sanitize (lower_on : bool) (s : str) : str :=
  let s1 := if lower_on then lower s else s in
  spec_trim (spec_collapse false (spec_strip_chars s1)).

(** ** Batches, rows and failures *)

(** What [validate] guarantees of the inputs of the loop. *)
Definition wf_batch (b : batch) : Prop :=
  (1 <= count b <= 200000)%Z
  /\ name_pool b <> []
  /\ domains b <> []
  /\ Forall (fun d => domain_ok d = true) (domains b)
  /\ enabled_patterns b <> []
  /\ incl (enabled_patterns b) PATTERNS.

(** What the loop appends: a row made from a pool entry, an enabled
    pattern, two numbers and a domain. *)
Definition row_ok (b : batch) (row : Row) : Prop :=
  row_email row = row_username row ++ lit "@" ++ row_domain row
  /\ (exists d, In d (domains b) /\ row_domain row = lower d)
  /\ In (row_pattern row) (enabled_patterns b)
  /\ (exists first last n2 n3 raw,
         In (row_name row, first, last) (name_pool b)
         /\ (0 <= n2 <= 99)%Z /\ (0 <= n3 <= 999)%Z
         /\ py_format (row_pattern row)
              (render_kwargs first last (zero_pad 2 n2) (zero_pad 3 n3))
            = Some raw
         /\ row_username row = sanitize (lowercase b) raw)
  /\ rejected (row_username row) = false.

(** The invariant of the loop. *)
Definition loop_inv (b : batch) (st : loop_state) : Prop :=
  results st = map row_email (rows st)
  /\ Forall (row_ok b) (rows st)
  /\ seen st = (if unique b then results st else [])
  /\ (unique b = true -> NoDup (results st))
  /\ (Z.of_nat (length (results st)) <= count b)%Z
  /\ (0 <= tries st <= max_tries b)%Z.

(** No candidate that the batch can render is rejected by the
    sanitizer. *)
Definition never_rejected (b : batch) : Prop :=
  forall display first last pattern n2 n3 raw,
    In (display, first, last) (name_pool b) ->
    In pattern (enabled_patterns b) ->
    (0 <= n2 <= 99)%Z -> (0 <= n3 <= 999)%Z ->
    py_format pattern
      (render_kwargs first last (zero_pad 2 n2) (zero_pad 3 n3)) = Some raw ->
    rejected (sanitize (lowercase b) raw) = false.

(** The ways in which the checks after the count fail (lines 288-318):
    no names, no domains, a malformed domain, no enabled pattern, no
    usable name. *)
Definition other_failure (app : App) : Prop :=
  read_lines (names_text app) = []
  \/ read_lines (domains_text app) = []
  \/ (exists d, In d (read_lines (domains_text app)) /\ domain_ok d = false)
  \/ map fst (filter (fun pv => snd pv) (pattern_vars app)) = []
  \/ build_name_pool (read_lines (names_text app)) = [].

(** A check fails: the count, or one of the others. *)
Definition validation_failure (app : App) : Prop :=
  read_count (count_var app) = None \/ other_failure app.

(** ** Inputs to run the model on *)

(** The nine pattern flags as [_build_ui] sets them. *)
Definition flags_default : list bool :=
  [true; true; true; true; true; true; false; false; false].

Definition example_app : App :=
  {| email_seed_var := lit "seed-1";
     count_var := lit "5";
     names_text := map lit ["Max Example"; "Ana  Lee"; "   "; "Madonna"]%string;
     domains_text := map lit ["Example.ORG"; "gmail.com"]%string;
     unique_var := true;
     lower_var := false;
     pattern_flags := flags_default;
     last_rows := [];
     out := [] |}.

(** An application with one of its inputs replaced. *)
Definition with_domains (app : App) (lines : list str) : App :=
  {| email_seed_var := email_seed_var app;
     count_var := count_var app;
     names_text := names_text app;
     domains_text := lines;
     unique_var := unique_var app;
     lower_var := lower_var app;
     pattern_flags := pattern_flags app;
     last_rows := last_rows app;
     out := out app |}.

Definition with_seed (app : App) (seed : str) : App :=
  {| email_seed_var := seed;
     count_var := count_var app;
     names_text := names_text app;
     domains_text := domains_text app;
     unique_var := unique_var app;
     lower_var := lower_var app;
     pattern_flags := pattern_flags app;
     last_rows := last_rows app;
     out := out app |}.

Definition with_count (app : App) (text : str) : App :=
  {| email_seed_var := email_seed_var app;
     count_var := text;
     names_text := names_text app;
     domains_text := domains_text app;
     unique_var := unique_var app;
     lower_var := lower_var app;
     pattern_flags := pattern_flags app;
     last_rows := last_rows app;
     out := out app |}.

(** The text in the output widget after the action. *)
Definition shown_output (o : outcome (App * list dialog)) : str :=
  match o with
  | Returns (app, _) => out app
  | _ => []
  end.

(** A pool of five names, all of whose candidates are long enough, and
    the same pool with fifteen one-letter names added, whose candidates
    under [{first}{last}] are two characters long. *)
Definition five_names : list str :=
  map lit ["Ann Lee"; "Bo Li"; "Cy Ng"; "Di Wu"; "Ed Ox"]%string.

Definition short_names : list str :=
  map lit ["A B"; "C D"; "E F"; "G H"; "I J"; "K L"; "M N"; "O P"; "Q R";
           "S T"; "U V"; "W X"; "Y Z"; "A Z"; "B Y"]%string.

Definition small_app (names : list str) (count_text : string) (uniq : bool)
  : App :=
  {| email_seed_var := lit "s";
     count_var := lit count_text;
     names_text := names;
     domains_text := map lit ["example.org"; "example.net"]%string;
     unique_var := uniq;
     lower_var := true;
     pattern_flags := [false; true; false; false; false; false; false; false;
                       false];
     last_rows := [];
     out := [] |}.

(** The ten emails that either pool can produce with [{first}{last}] and
    the two domains. *)
Definition ten_emails : list str :=
  map lit
    [ "annlee@example.org"; "annlee@example.net";
      "boli@example.org"; "boli@example.net";
      "cyng@example.org"; "cyng@example.net";
      "diwu@example.org"; "diwu@example.net";
      "edox@example.org"; "edox@example.net" ]%string.

(** The name pool that [generate_emails] builds from the lines of the
    names widget. *)
Definition pool_of (names : list str) : list (str * str * str) :=
  build_name_pool (read_lines names).

(** ** Names and lines *)

(** [normalize_name_line] after the strip, as a scan: a run of
    whitespace becomes one space.  [in_run]: the space of the current run
    is out already. *)
Fixpoint squeeze (in_run : bool) (s : str) : str :=
  match s with
  | [] => []
  | c :: t =>
      if is_space c then
        if in_run then squeeze true t else " " :: squeeze true t
      else c :: squeeze false t
  end.

(** The only whitespace is single spaces, each followed by another
    character or the end. *)
Fixpoint single_spaced (s : str) : bool :=
  match s with
  | a :: t =>
      (if is_space a
       then Ascii.eqb a " " && negb (starts_with is_space t)
       else true)
      && single_spaced t
  | [] => true
  end.

(** A normalised line: no whitespace at either end, single spaces
    inside. *)
Definition normalised (s : str) : Prop :=
  single_spaced s = true
  /\ starts_with is_space s = false /\ ends_with is_space s = false.

(** The whitespace-separated tokens that [split_name] takes the first
    and the last of. *)
Definition words (full : str) : list str :=
  filter (fun p => truthy (Some p)) (re_split_class is_space (strip full)).

(** A non-empty string without whitespace. *)
Definition is_word (p : str) : Prop :=
  p <> [] /\ Forall (fun c => is_space c = false) p.

(** A non-empty string over [[a-z0-9]]. *)
Definition is_slug (p : str) : Prop :=
  p <> [] /\ Forall (fun c => slug_char c = true) p.

(** ** Candidates *)

(** What each pattern of [PATTERNS] renders to, from the two keys of a
    pool entry and the two padded numbers. *)
Definition candidates (first last n2 n3 : str) : list (str * str) :=
  [ (lit "{first}.{last}", first ++ lit "." ++ last);
    (lit "{first}{last}", first ++ last);
    (lit "{f}{last}", firstn 1 first ++ last);
    (lit "{first}{l}", first ++ firstn 1 last);
    (lit "{last}.{first}", last ++ lit "." ++ first);
    (lit "{first}_{last}", first ++ lit "_" ++ last);
    (lit "{first}-{last}", first ++ lit "-" ++ last);
    (lit "{first}.{last}{n2}", first ++ lit "." ++ last ++ n2);
    (lit "{first}{last}{n3}", first ++ last ++ n3) ].

(** An application with the lowercase flag set as given. *)
Definition with_lower (app : App) (flag : bool) : App :=
  {| email_seed_var := email_seed_var app;
     count_var := count_var app;
     names_text := names_text app;
     domains_text := domains_text app;
     unique_var := unique_var app;
     lower_var := flag;
     pattern_flags := pattern_flags app;
     last_rows := last_rows app;
     out := out app |}.

(** What the user sees of the action: the retained rows, the output
    text and the dialogs. *)
Definition visible (o : outcome (App * list dialog))
  : outcome (list Row * str * list dialog) :=
  match o with
  | Returns (app, dialogs) => Returns (last_rows app, out app, dialogs)
  | Raises => Raises
  | NoFuel => NoFuel
  end.

(** A batch with the lowercase flag set as given. *)
Definition set_lowercase (b : batch) (flag : bool) : batch :=
  {| count := count b;
     domains := domains b;
     enabled_patterns := enabled_patterns b;
     name_pool := name_pool b;
     unique := unique b;
     lowercase := flag |}.

(** ** Synthesized names *)

(** The first names and the last names that [fictional_name] can put
    together from the syllables. *)
Definition first_names : list str :=
  flat_map (fun a => map (fun b => capitalize (a ++ b)) MIDDLE_SYLLABLES)
           FIRST_SYLLABLES.

Definition last_names : list str :=
  flat_map
    (fun c =>
       flat_map (fun d => map (fun e => capitalize (c ++ d ++ e))
                              LAST_SYLLABLES)
                MIDDLE_SYLLABLES)
    FIRST_SYLLABLES.

(** A capital letter followed by small letters. *)
Definition capitalised (s : str) : bool :=
  match s with
  | c :: t => is_upper_az c && forallb is_lower_az t
  | [] => false
  end.

(** A name that [fictional_name] can return. *)
Definition fictional (name : str) : Prop :=
  exists first last,
    In first first_names /\ In last last_names
    /\ name = first ++ lit " " ++ last.

(** A names side to run the model on, and an application whose names
    are synthesized ones. *)
Definition example_ui : NamesUI :=
  {| name_seed_var := lit "names-1";
     gen_names_count_var := lit "3";
     gen_mode_var := lit "append";
     add_name_var := lit "  Max   Example ";
     names_content := lit "Ana Lee" |}.

Definition synthesized_app : App :=
  {| email_seed_var := lit "seed-2";
     count_var := lit "4";
     names_text := map lit ["Alla Kavimar"; "Anne Vetaven"]%string;
     domains_text := map lit ["example.org"]%string;
     unique_var := false;
     lower_var := true;
     pattern_flags := flags_default;
     last_rows := [];
     out := [] |}.

(** [a] is [b] with some elements left out, the order kept. *)
Inductive subseq {A : Type} : list A -> list A -> Prop :=
| subseq_nil : subseq [] []
| subseq_skip x a b : subseq a b -> subseq a (x :: b)
| subseq_keep x a b : subseq a b -> subseq (x :: a) (x :: b).

(** [dedup_names] as a scan: a line is kept when its key is new. *)
Fixpoint firsts (seen : list str) (lines : list str) : list str :=
  match lines with
  | [] => []
  | ln :: rest =>
      if str_in (casefold ln) seen then firsts seen rest
      else ln :: firsts (seen ++ [casefold ln]) rest
  end.

(** ** Readers for the exported text *)

(** A reader of comma-separated text: fields are separated by commas,
    records end with a newline; a field that starts with a double quote
    runs to the next double quote that is not doubled, and a doubled one
    stands for one.  [field] is the current field, most recent character
    first, [record] the fields of the current record, most recent
    first.  [None]: the text is not well formed. *)
Inductive csv_state : Type := FieldStart | Unquoted | Quoted | QuoteSeen.

Definition csv_end (field : str) (record : list str) (rest : option (list (list str)))
  : option (list (list str)) :=
  option_map (cons (rev (rev field :: record))) rest.

Fixpoint csv_read (st : csv_state) (field : str) (record : list str)
         (s : str) : option (list (list str)) :=
  match s with
  | [] =>
      match st with
      | Quoted => None
      | FieldStart =>
          if is_nil record then Some [] else Some [rev ([] :: record)]
      | _ => Some [rev (rev field :: record)]
      end
  | c :: t =>
      match st with
      | FieldStart =>
          if Ascii.eqb c dquote then csv_read Quoted [] record t
          else if Ascii.eqb c "," then csv_read FieldStart [] ([] :: record) t
          else if Ascii.eqb c newline
               then csv_end [] record (csv_read FieldStart [] [] t)
               else csv_read Unquoted [c] record t
      | Unquoted =>
          if Ascii.eqb c dquote then None
          else if Ascii.eqb c ","
               then csv_read FieldStart [] (rev field :: record) t
          else if Ascii.eqb c newline
               then csv_end field record (csv_read FieldStart [] [] t)
               else csv_read Unquoted (c :: field) record t
      | Quoted =>
          if Ascii.eqb c dquote then csv_read QuoteSeen field record t
          else csv_read Quoted (c :: field) record t
      | QuoteSeen =>
          if Ascii.eqb c dquote then csv_read Quoted (dquote :: field) record t
          else if Ascii.eqb c ","
               then csv_read FieldStart [] (rev field :: record) t
          else if Ascii.eqb c newline
               then csv_end field record (csv_read FieldStart [] [] t)
               else None
      end
  end.

Definition csv_records (s : str) : option (list (list str)) :=
  csv_read FieldStart [] [] s.

(** A reader of the rows of an [INSERT] statement: rows in parentheses,
    separated by commas, the last followed by a semicolon; in a row,
    string literals in single quotes, separated by a comma and a space;
    in a literal, a doubled quote stands for one.  [None]: the text is
    not of that form. *)
Inductive sql_state : Type :=
| RowStart | LiteralStart | InLiteral | SqlQuoteSeen | AfterComma
| AfterRow | Finished.

Fixpoint sql_read (st : sql_state) (field : str) (record : list str)
         (s : str) : option (list (list str)) :=
  match s with
  | [] =>
      match st with
      | Finished => Some []
      | _ => None
      end
  | c :: t =>
      match st with
      | RowStart =>
          if Ascii.eqb c "(" then sql_read LiteralStart [] [] t
          else if is_space c then sql_read RowStart [] [] t
          else None
      | LiteralStart =>
          if Ascii.eqb c "'" then sql_read InLiteral [] record t else None
      | InLiteral =>
          if Ascii.eqb c "'" then sql_read SqlQuoteSeen field record t
          else sql_read InLiteral (c :: field) record t
      | SqlQuoteSeen =>
          if Ascii.eqb c "'" then sql_read InLiteral ("'" :: field) record t
          else if Ascii.eqb c ","
               then sql_read AfterComma [] (rev field :: record) t
          else if Ascii.eqb c ")"
               then option_map (cons (rev (rev field :: record)))
                               (sql_read AfterRow [] [] t)
               else None
      | AfterComma =>
          if Ascii.eqb c " " then sql_read LiteralStart [] record t else None
      | AfterRow =>
          if Ascii.eqb c "," then sql_read RowStart [] [] t
          else if Ascii.eqb c ";" then sql_read Finished [] [] t
          else None
      | Finished =>
          if is_space c then sql_read Finished [] [] t else None
      end
  end.

Definition sql_rows (s : str) : option (list (list str)) :=
  sql_read RowStart [] [] s.

(** The rows part of the text of [export_sql]. *)
Definition sql_values_text (rows : list Row) : str :=
  join (lit "," ++ [newline]) (map sql_values_line rows)
  ++ lit ";" ++ [newline].

(** The text of [export_sql] before the rows. *)
Definition sql_prologue : str :=
  lit "-- Synthetic/test data export" ++ [newline]
  ++ lit "-- Table: synthetic_emails" ++ [newline; newline]
  ++ lit "CREATE TABLE IF NOT EXISTS synthetic_emails (" ++ [newline]
  ++ lit "  name TEXT," ++ [newline] ++ lit "  email TEXT," ++ [newline]
  ++ lit "  domain TEXT," ++ [newline] ++ lit "  pattern TEXT," ++ [newline]
  ++ lit "  username TEXT" ++ [newline]
  ++ lit ");" ++ [newline; newline]
  ++ lit "INSERT INTO synthetic_emails (name, email, domain, pattern, username) VALUES"
  ++ [newline].

(** What the readers do after a field that ends with the delimiter
    [d]. *)
Definition csv_after (d : ascii) (v : str) (record : list str) (t : str)
  : option (list (list str)) :=
  if Ascii.eqb d "," then csv_read FieldStart [] (v :: record) t
  else option_map (cons (rev (v :: record))) (csv_read FieldStart [] [] t).

Definition sql_after (d : ascii) (v : str) (record : list str) (t : str)
  : option (list (list str)) :=
  if Ascii.eqb d "," then sql_read AfterComma [] (v :: record) t
  else option_map (cons (rev (v :: record))) (sql_read AfterRow [] [] t).

(** ** The picks of an attempt *)

(** The four calls on the random source that every pass of the loop
    makes first: the pool entry, the pattern and the two numbers. *)
Definition attempt_picks (b : batch) (i j : nat) (n2 n3 : Z) : list draw :=
  [ DrawChoice (length (name_pool b)) i;
    DrawChoice (length (enabled_patterns b)) j;
    DrawInt 0 99 n2;
    DrawInt 0 999 n3 ].

(** The row that a pass appends. *)
Definition made_row (display pattern username d : str) : Row :=
  {| row_name := display;
     row_email := username ++ lit "@" ++ lower d;
     row_domain := lower d;
     row_pattern := pattern;
     row_username := username |}.

(** * Properties *)

(** ** Characters

    A property of characters that is a boolean test is settled by
    running the test on the 256 of them. *)

Lemma all_chars_complete c : In c all_chars.
Proof.
  unfold all_chars. rewrite <- (ascii_nat_embedding c).
  apply in_map, in_seq. pose proof (nat_ascii_bounded c). lia.
Qed.

Lemma forall_chars (P : ascii -> bool) :
  forallb P all_chars = true -> forall c, P c = true.
Proof.
  intros H c. rewrite forallb_forall in H. apply H, all_chars_complete.
Qed.

Ltac by_chars c :=
  clear; revert c;
  match goal with
  | |- forall c, @?P c = true => apply (forall_chars P); vm_compute; reflexivity
  end.

Lemma lower_char_fixes_user c : user_char c = true -> lower_char c = c.
Proof.
  intros H.
  assert (E : implb (user_char c) (Ascii.eqb (lower_char c) c) = true)
    by (by_chars c).
  rewrite H in E. simpl in E. now apply Ascii.eqb_eq.
Qed.

Lemma lower_char_not_upper c : is_upper (lower_char c) = false.
Proof.
  assert (E : negb (is_upper (lower_char c)) = true) by (by_chars c).
  now apply negb_true_iff in E.
Qed.

Lemma host_char_lower c : host_char c = true -> host_char (lower_char c) = true.
Proof.
  intros H.
  assert (E : implb (host_char c) (host_char (lower_char c)) = true)
    by (by_chars c).
  now rewrite H in E.
Qed.

Lemma host_char_not_at c : host_char c = true -> c <> "@".
Proof.
  intros H ->. vm_compute in H. discriminate.
Qed.

Lemma alpha_is_host c : is_alpha c = true -> host_char c = true.
Proof.
  intros H.
  assert (E : implb (is_alpha c) (host_char c) = true) by (by_chars c).
  now rewrite H in E.
Qed.

Lemma user_char_not_at c : user_char c = true -> c <> "@".
Proof.
  intros H ->. vm_compute in H. discriminate.
Qed.

Lemma separator_user c : separator c = true -> user_char c = true.
Proof.
  intros H.
  assert (E : implb (separator c) (user_char c) = true) by (by_chars c).
  now rewrite H in E.
Qed.

Lemma strip_set_separator c : one_of ".-_" c = separator c.
Proof.
  assert (E : Bool.eqb (one_of ".-_" c) (separator c) = true) by (by_chars c).
  now apply Bool.eqb_prop in E.
Qed.

Lemma str_eqb_eq a b : str_eqb a b = true <-> a = b.
Proof.
  unfold str_eqb. destruct (list_eq_dec ascii_dec a b); split; congruence.
Qed.

Lemma str_in_In x xs : str_in x xs = true <-> In x xs.
Proof.
  unfold str_in. rewrite existsb_exists. split.
  - intros (y & Hy & E). apply str_eqb_eq in E. now subst.
  - intros H. exists x. split; [assumption | now apply str_eqb_eq].
Qed.

(** ** The regular expression matcher decides the language *)

Module RegexFacts.
Import Regex.

Lemma lang_class_inv p s : lang (Class p) s -> exists c, s = [c] /\ p c = true.
Proof. intros H. inversion H; subst. eauto. Qed.

Lemma lang_cat_inv r1 r2 s :
  lang (Cat r1 r2) s -> exists s1 s2, s = s1 ++ s2 /\ lang r1 s1 /\ lang r2 s2.
Proof. intros H. inversion H; subst. eauto. Qed.

Lemma lang_alt_inv r1 r2 s : lang (Alt r1 r2) s -> lang r1 s \/ lang r2 s.
Proof. intros H. inversion H; subst; auto. Qed.

Lemma lang_cat_cons r1 r2 c s1 s2 :
  lang r1 (c :: s1) -> lang r2 s2 -> lang (Cat r1 r2) (c :: s1 ++ s2).
Proof.
  intros L1 L2. change (c :: s1 ++ s2) with ((c :: s1) ++ s2).
  now constructor.
Qed.

Lemma nullable_lang r : nullable r = true <-> lang r [].
Proof.
  induction r as [| |p|r1 IH1 r2 IH2|r1 IH1 r2 IH2|r1 IH1]; simpl.
  - split; [discriminate | intros H; inversion H].
  - split; [constructor | reflexivity].
  - split; [discriminate | intros H; inversion H].
  - rewrite andb_true_iff, IH1, IH2. split.
    + intros [L1 L2]. change (@nil ascii) with (@nil ascii ++ []).
      now constructor.
    + intros H. apply lang_cat_inv in H as (s1 & s2 & E & L1 & L2).
      symmetry in E. apply app_eq_nil in E as [-> ->]. now split.
  - rewrite orb_true_iff, IH1, IH2. split.
    + intros [L | L]; [now apply LAltL | now apply LAltR].
    + apply lang_alt_inv.
  - split; [constructor | reflexivity].
Qed.

Lemma star_cons_inv r c s :
  lang (Star r) (c :: s) ->
  exists s1 s2, s = s1 ++ s2 /\ lang r (c :: s1) /\ lang (Star r) s2.
Proof.
  intros H. remember (Star r) as q eqn:Eq. remember (c :: s) as w eqn:Ew.
  induction H as [| | | | | |r0 s1 s2 L1 _ L2 IH2]; try discriminate.
  injection Eq as ->.
  destruct s1 as [|a s1]; simpl in Ew.
  - now apply IH2.
  - injection Ew as -> <-. now exists s1, s2.
Qed.

Lemma deriv_cat_lang r1 r2 c s :
  (forall t, lang (deriv c r1) t <-> lang r1 (c :: t)) ->
  (forall t, lang (deriv c r2) t <-> lang r2 (c :: t)) ->
  lang (deriv c (Cat r1 r2)) s <-> lang (Cat r1 r2) (c :: s).
Proof.
  intros IH1 IH2.
  assert (L : lang (Cat (deriv c r1) r2) s -> lang (Cat r1 r2) (c :: s)).
  { intros H. apply lang_cat_inv in H as (s1 & s2 & -> & L1 & L2).
    apply lang_cat_cons; [now apply IH1 | easy]. }
  assert (R : lang (Cat r1 r2) (c :: s) ->
              lang (Cat (deriv c r1) r2) s
              \/ (nullable r1 = true /\ lang (deriv c r2) s)).
  { intros H. apply lang_cat_inv in H as (s1 & s2 & E & L1 & L2).
    destruct s1 as [|a s1]; simpl in E.
    - subst s2. right. split; [now apply nullable_lang | now apply IH2].
    - injection E as <- ->. left. constructor; [now apply IH1 | easy]. }
  simpl. destruct (nullable r1) eqn:N; split; intros H.
  - apply lang_alt_inv in H as [H | H]; [now apply L |].
    change (c :: s) with ([] ++ c :: s).
    constructor; [now apply nullable_lang | now apply IH2].
  - destruct (R H) as [H1 | [_ H2]]; [now apply LAltL | now apply LAltR].
  - now apply L.
  - destruct (R H) as [H1 | [E _]]; [easy | discriminate].
Qed.

Lemma deriv_lang r : forall c s, lang (deriv c r) s <-> lang r (c :: s).
Proof.
  induction r as [| |p|r1 IH1 r2 IH2|r1 IH1 r2 IH2|r1 IH1]; intros c s.
  - simpl. split; intros H; inversion H.
  - simpl. split; intros H; inversion H.
  - simpl. destruct (p c) eqn:Hp; split; intros H.
    + inversion H; subst. now constructor.
    + inversion H; subst. constructor.
    + inversion H.
    + apply lang_class_inv in H as (a & E & Ha). congruence.
  - apply deriv_cat_lang; auto.
  - simpl. split; intros H.
    + apply lang_alt_inv in H as [H | H];
        [apply LAltL; now apply IH1 | apply LAltR; now apply IH2].
    + apply lang_alt_inv in H as [H | H];
        [apply LAltL; now apply IH1 | apply LAltR; now apply IH2].
  - simpl. split; intros H.
    + apply lang_cat_inv in H as (s1 & s2 & -> & L1 & L2).
      apply IH1 in L1. change (c :: s1 ++ s2) with ((c :: s1) ++ s2).
      now constructor.
    + apply star_cons_inv in H as (s1 & s2 & -> & L1 & L2).
      constructor; [now apply IH1 | easy].
Qed.

Lemma fullmatch_lang s : forall r, fullmatch r s = true <-> lang r s.
Proof.
  induction s as [|c s IH]; intros r; simpl.
  - apply nullable_lang.
  - rewrite IH. apply deriv_lang.
Qed.

Lemma lang_star_class p s : lang (Star (Class p)) s <-> Forall (fun c => p c = true) s.
Proof.
  split.
  - intros H. remember (Star (Class p)) as q eqn:Eq.
    induction H as [| | | | | |r0 s1 s2 L1 _ L2 IH2]; try discriminate.
    + constructor.
    + injection Eq as ->. apply lang_class_inv in L1 as (c & -> & Hc).
      simpl. constructor; [assumption | now apply IH2].
  - induction 1 as [|c t Hc _ IH].
    + constructor.
    + change (c :: t) with ([c] ++ t). constructor; [now constructor | easy].
Qed.

End RegexFacts.

(** ** The sanitizer, step by step *)

Lemma flush_one_empty run : flush 1 [] run = [].
Proof. destruct run; reflexivity. Qed.

Lemma sub_runs_delete cls s :
  forall run, sub_runs cls 1 [] run s = filter (fun c => negb (cls c)) s.
Proof.
  induction s as [|c t IH]; intros run; simpl.
  - apply flush_one_empty.
  - destruct (cls c); simpl; [apply IH |].
    now rewrite flush_one_empty, IH.
Qed.

Lemma re_sub_delete cls s :
  re_sub_class (fun c => negb (cls c)) 1 [] s = filter cls s.
Proof.
  unfold re_sub_class. rewrite sub_runs_delete.
  apply filter_ext. intros c. apply negb_involutive.
Qed.

Lemma sub_runs_collapse s :
  forall run,
    sub_runs separator 2 (lit ".") run s =
    match run with
    | [] => spec_collapse false s
    | [c] => if starts_with separator s then "." :: spec_collapse true s
             else c :: spec_collapse false s
    | _ => "." :: spec_collapse true s
    end.
Proof.
  induction s as [|a t IH]; intros run.
  - destruct run as [|c [|c' run]]; reflexivity.
  - simpl. destruct (separator a) eqn:Ha.
    + rewrite IH. destruct run as [|c [|c' run]]; reflexivity.
    + rewrite IH. destruct run as [|c [|c' run]]; reflexivity.
Qed.

Lemma re_sub_collapse s :
  re_sub_class separator 2 (lit ".") s = spec_collapse false s.
Proof. unfold re_sub_class. now rewrite sub_runs_collapse. Qed.

Lemma lstrip_snoc p l c :
  lstrip p (l ++ [c]) =
  if is_nil (lstrip p l) then (if p c then [] else [c]) else lstrip p l ++ [c].
Proof.
  induction l as [|a l IH]; simpl.
  - reflexivity.
  - destruct (p a); [exact IH | reflexivity].
Qed.

Lemma rstrip_trim_back p s : rstrip p s = trim_back p s.
Proof.
  unfold rstrip. induction s as [|c t IH]; simpl.
  - reflexivity.
  - rewrite lstrip_snoc, <- IH.
    destruct (lstrip p (rev t)) as [|a l] eqn:E; simpl.
    + rewrite andb_true_r. now destruct (p c).
    + rewrite rev_app_distr. simpl.
      assert (N : is_nil (rev l ++ [a]) = false) by now destruct (rev l).
      rewrite N, andb_false_r. reflexivity.
Qed.

Lemma strip_with_ext p q s :
  (forall c, p c = q c) -> strip_with p s = strip_with q s.
Proof.
  intros E. unfold strip_with, rstrip.
  assert (L : forall l, lstrip p l = lstrip q l).
  { induction l as [|a l IH]; simpl; [reflexivity |].
    rewrite E, IH. reflexivity. }
  now rewrite !L.
Qed.

Lemma sanitize_steps lower_on s : sanitize lower_on s = spec_sanitize lower_on s.
Proof.
  unfold sanitize, spec_sanitize, spec_trim, spec_strip_chars.
  rewrite re_sub_delete, re_sub_collapse.
  rewrite (strip_with_ext _ separator) by apply strip_set_separator.
  unfold strip_with. apply rstrip_trim_back.
Qed.

(** *** What the sanitizer's result looks like *)

Lemma lstrip_suffix p s : exists pre, s = pre ++ lstrip p s.
Proof.
  induction s as [|c t [pre E]]; simpl.
  - now exists [].
  - destruct (p c); [exists (c :: pre); simpl; congruence | now exists []].
Qed.

Lemma lstrip_not_start p s : starts_with p (lstrip p s) = false.
Proof.
  induction s as [|c t IH]; simpl; [reflexivity |].
  destruct (p c) eqn:E; [exact IH | exact E].
Qed.

Lemma lstrip_fixed p s : starts_with p s = false -> lstrip p s = s.
Proof. destruct s as [|c t]; simpl; [reflexivity | now intros ->]. Qed.

Lemma rstrip_not_end p s : ends_with p (rstrip p s) = false.
Proof.
  unfold ends_with, rstrip. rewrite rev_involutive. apply lstrip_not_start.
Qed.

Lemma rstrip_fixed p s : ends_with p s = false -> rstrip p s = s.
Proof.
  unfold ends_with, rstrip. intros H.
  rewrite lstrip_fixed by assumption. apply rev_involutive.
Qed.

Lemma trim_back_prefix p s : exists post, s = trim_back p s ++ post.
Proof.
  induction s as [|c t [post E]]; simpl.
  - now exists [].
  - destruct (p c && is_nil (trim_back p t)).
    + now exists (c :: t).
    + exists post. simpl. congruence.
Qed.

Lemma trim_back_start p q s :
  starts_with q (trim_back p s) = true -> starts_with q s = true.
Proof.
  destruct s as [|c t]; simpl; [easy |].
  now destruct (p c && is_nil (trim_back p t)).
Qed.

Lemma Forall_user_lstrip p s : all_user s -> all_user (lstrip p s).
Proof.
  destruct (lstrip_suffix p s) as [pre E]. intros H.
  rewrite E in H. now apply Forall_app in H.
Qed.

Lemma Forall_user_trim_back p s : all_user s -> all_user (trim_back p s).
Proof.
  destruct (trim_back_prefix p s) as [post E]. intros H.
  rewrite E in H. now apply Forall_app in H.
Qed.

Lemma Forall_user_collapse s : forall in_run,
  all_user s -> all_user (spec_collapse in_run s).
Proof.
  unfold all_user.
  induction s as [|c t IH]; intros in_run H; simpl; [constructor |].
  inversion H as [|? ? Hc Ht]; subst.
  destruct (separator c); [destruct in_run; [| destruct (starts_with separator t)] |];
    auto.
Qed.

Lemma sanitize_all_user lower_on s : all_user (sanitize lower_on s).
Proof.
  rewrite sanitize_steps. unfold spec_sanitize, spec_trim, spec_strip_chars.
  apply Forall_user_trim_back, Forall_user_lstrip, Forall_user_collapse.
  apply Forall_forall. intros c Hc. now apply filter_In in Hc.
Qed.

Lemma collapse_run_free s :
  (starts_with separator (spec_collapse true s) = false
   /\ sep_run_free (spec_collapse true s) = true)
  /\ (sep_run_free (spec_collapse false s) = true
      /\ (starts_with separator s = false ->
          starts_with separator (spec_collapse false s) = false)).
Proof.
  induction s as [|c t [[A1 A2] [B1 B2]]]; simpl; [auto |].
  destruct (separator c) eqn:Hc.
  - split; [now split |]. split; [| discriminate].
    destruct (starts_with separator t) eqn:Ht; simpl.
    + now rewrite A1, A2.
    + now rewrite Hc, (B2 eq_refl), B1.
  - simpl. rewrite Hc, B1. simpl. auto.
Qed.

Lemma run_free_tail c t : sep_run_free (c :: t) = true -> sep_run_free t = true.
Proof. simpl. intros H. now apply andb_true_iff in H. Qed.

Lemma run_free_lstrip p s : sep_run_free s = true -> sep_run_free (lstrip p s) = true.
Proof.
  induction s as [|c t IH]; intros H; [reflexivity |].
  simpl lstrip. destruct (p c); [apply IH; eapply run_free_tail; eassumption | assumption].
Qed.

Lemma run_free_trim_back p s :
  sep_run_free s = true -> sep_run_free (trim_back p s) = true.
Proof.
  induction s as [|c t IH]; intros H; [reflexivity |].
  simpl trim_back. destruct (p c && is_nil (trim_back p t)); [reflexivity |].
  simpl in H |- *. apply andb_true_iff in H as [H1 H2].
  rewrite (IH H2), andb_true_r.
  destruct (separator c); [| reflexivity]. simpl in H1 |- *.
  destruct (starts_with separator (trim_back p t)) eqn:E; [| reflexivity].
  apply trim_back_start in E. now rewrite E in H1.
Qed.

Lemma collapse_fixed s : sep_run_free s = true -> spec_collapse false s = s.
Proof.
  induction s as [|c t IH]; intros H; [reflexivity |].
  simpl in H |- *. apply andb_true_iff in H as [H1 H2].
  rewrite (IH H2). destruct (separator c); [| reflexivity].
  simpl in H1. apply negb_true_iff in H1. now rewrite H1.
Qed.

Lemma filter_fixed (p : ascii -> bool) s :
  Forall (fun c => p c = true) s -> filter p s = s.
Proof.
  induction 1 as [|c t Hc _ IH]; simpl; [reflexivity |].
  now rewrite Hc, IH.
Qed.

Lemma lower_fixed s : all_user s -> lower s = s.
Proof.
  unfold all_user. induction 1 as [|c t Hc _ IH]; simpl; [reflexivity |].
  now rewrite (lower_char_fixes_user c Hc), IH.
Qed.

(** The shape of every sanitized username. *)
Lemma sanitize_shape lower_on s :
  let u := sanitize lower_on s in
  all_user u /\ sep_run_free u = true
  /\ starts_with separator u = false /\ ends_with separator u = false.
Proof.
  simpl. split; [apply sanitize_all_user |].
  rewrite sanitize_steps. unfold spec_sanitize, spec_trim.
  set (w := spec_collapse false _).
  assert (Hw : sep_run_free w = true) by apply collapse_run_free.
  split; [now apply run_free_trim_back, run_free_lstrip |].
  split.
  - destruct (starts_with separator (trim_back separator (lstrip separator w)))
      eqn:E; [| reflexivity].
    apply trim_back_start in E. now rewrite lstrip_not_start in E.
  - rewrite <- rstrip_trim_back. apply rstrip_not_end.
Qed.

(** A string of that shape is left alone by the sanitizer. *)
Lemma sanitize_fixed lower_on u :
  all_user u -> sep_run_free u = true ->
  starts_with separator u = false -> ends_with separator u = false ->
  sanitize lower_on u = u.
Proof.
  intros Hu Hr Hs He. rewrite sanitize_steps.
  unfold spec_sanitize, spec_trim, spec_strip_chars.
  assert (E : (if lower_on then lower u else u) = u)
    by (destruct lower_on; [now apply lower_fixed | reflexivity]).
  rewrite E, (filter_fixed _ _ Hu), (collapse_fixed _ Hr), (lstrip_fixed _ _ Hs).
  rewrite <- rstrip_trim_back. now apply rstrip_fixed.
Qed.

(** ** Numbers in a range, checked one by one *)

Lemma forall_range (P : Z -> bool) (n : nat) :
  forallb P (map Z.of_nat (seq 0 n)) = true ->
  forall z, (0 <= z < Z.of_nat n)%Z -> P z = true.
Proof.
  intros H z Hz. rewrite forallb_forall in H. apply H.
  rewrite <- (Z2Nat.id z) by lia. apply in_map, in_seq. lia.
Qed.

Lemma zero_pad_2 n :
  (0 <= n <= 99)%Z ->
  length (zero_pad 2 n) = 2%nat /\ forallb is_digit (zero_pad 2 n) = true.
Proof.
  intros Hn.
  pose (P := fun z => (length (zero_pad 2 z) =? 2)%nat
                      && forallb is_digit (zero_pad 2 z)).
  assert (E : P n = true)
    by (apply (forall_range P 100); [vm_compute; reflexivity | lia]).
  unfold P in E. apply andb_true_iff in E as [E1 E2].
  split; [now apply Nat.eqb_eq | assumption].
Qed.

Lemma zero_pad_3 n :
  (0 <= n <= 999)%Z ->
  length (zero_pad 3 n) = 3%nat /\ forallb is_digit (zero_pad 3 n) = true.
Proof.
  intros Hn.
  pose (P := fun z => (length (zero_pad 3 z) =? 3)%nat
                      && forallb is_digit (zero_pad 3 z)).
  assert (E : P n = true)
    by (apply (forall_range P 1000); [vm_compute; reflexivity | lia]).
  unfold P in E. apply andb_true_iff in E as [E1 E2].
  split; [now apply Nat.eqb_eq | assumption].
Qed.

(** ** The random source and the loop *)

Section EngineFacts.

Context {G : PyRandom}.

Lemma bind_returns {A B} (m : M A) (k : A -> M B) r x :
  bind m k r = Returns x ->
  exists a r1, m r = Returns (a, r1) /\ k a r1 = Returns x.
Proof.
  unfold bind. destruct (m r) as [[a r1]| |]; try discriminate. eauto.
Qed.

Lemma randint_returns a b r :
  (a <= b)%Z ->
  exists v g,
    (a <= v <= b)%Z
    /\ randint a b r
       = Returns (v, {| gen := g; drawn := drawn r ++ [DrawInt a b v] |}).
Proof.
  intros Hab. unfold randint.
  destruct (Z.leb_spec a b) as [_ | ?]; [| lia].
  pose proof (randbelow_lt (Z.to_nat (b - a + 1)) (gen r)) as L.
  destruct (randbelow (Z.to_nat (b - a + 1)) (gen r)) as [k g]. simpl in L.
  exists (a + Z.of_nat k)%Z, g. split; [lia | reflexivity].
Qed.

Lemma choice_returns {A} (seq : list A) r :
  seq <> [] ->
  exists i x g,
    (i < length seq)%nat /\ nth_error seq i = Some x
    /\ choice seq r
       = Returns (x, {| gen := g;
                        drawn := drawn r ++ [DrawChoice (length seq) i] |}).
Proof.
  intros Hne. unfold choice.
  destruct seq as [|a0 seq0] eqn:Es; [congruence |]. rewrite <- Es.
  assert (Hlen : (0 < length seq)%nat) by (subst seq; simpl; lia).
  pose proof (randbelow_lt (length seq) (gen r) Hlen) as L.
  destruct (randbelow (length seq) (gen r)) as [i g]. simpl in L.
  destruct (nth_error seq i) as [x|] eqn:En.
  - exists i, x, g. auto.
  - apply nth_error_None in En. lia.
Qed.

Lemma choice_in {A} (seq : list A) r x r' :
  choice seq r = Returns (x, r') -> In x seq.
Proof.
  unfold choice. destruct seq as [|a0 seq0]; [discriminate |].
  destruct (randbelow _ _) as [i g].
  destruct (nth_error (a0 :: seq0) i) as [y|] eqn:En; [| discriminate].
  intros E. injection E as -> _. eapply nth_error_In; eassumption.
Qed.

(** What one call of the renderer does to the random source, and what
    it returns. *)
Lemma render_pattern_draws pattern first last r :
  exists n2 n3 g,
    (0 <= n2 <= 99)%Z /\ (0 <= n3 <= 999)%Z
    /\ render_pattern pattern first last r
       = match py_format pattern
                 (render_kwargs first last (zero_pad 2 n2) (zero_pad 3 n3))
         with
         | Some s =>
             Returns (s, {| gen := g;
                            drawn := drawn r ++ [DrawInt 0 99 n2;
                                                 DrawInt 0 999 n3] |})
         | None => Raises
         end.
Proof.
  destruct (randint_returns 0 99 r) as (n2 & g1 & B2 & E2); [lia |].
  set (r1 := {| gen := g1; drawn := drawn r ++ [DrawInt 0 99 n2] |}) in *.
  destruct (randint_returns 0 999 r1) as (n3 & g2 & B3 & E3); [lia |].
  exists n2, n3, g2. split; [assumption | split; [assumption |]].
  unfold render_pattern, bind. rewrite E2, E3. subst r1. simpl.
  rewrite <- app_assoc. simpl.
  destruct (py_format _ _); reflexivity.
Qed.

(** *** Loops *)

Lemma while_loop_more_fuel {S} cond (body : S -> M S) fuel :
  forall st r x,
    while_loop fuel cond body st r = Returns x ->
    forall fuel', (fuel <= fuel')%nat ->
                  while_loop fuel' cond body st r = Returns x.
Proof.
  induction fuel as [|fuel IH]; intros st r x H fuel' Hle.
  - destruct fuel'; simpl in *; destruct (cond st); congruence.
  - destruct fuel' as [|fuel']; [lia |]. simpl in *.
    destruct (cond st); [| assumption].
    destruct (body st r) as [[st1 r1]| |]; try discriminate.
    apply IH; [assumption | lia].
Qed.

Lemma while_loop_invariant {S} (P : S -> Prop) cond (body : S -> M S) :
  (forall st r st' r',
      P st -> cond st = true -> body st r = Returns (st', r') -> P st') ->
  forall fuel st r st' r',
    P st -> while_loop fuel cond body st r = Returns (st', r') ->
    P st' /\ cond st' = false.
Proof.
  intros Hstep. induction fuel as [|fuel IH]; intros st r st' r' HP H.
  - simpl in H. destruct (cond st) eqn:C; [discriminate |].
    injection H as <- <-. auto.
  - simpl in H. destruct (cond st) eqn:C.
    + destruct (body st r) as [[st1 r1]| |] eqn:B; try discriminate.
      eapply IH; [| eassumption]. eapply Hstep; eassumption.
    + injection H as <- <-. auto.
Qed.

Lemma while_loop_terminates {S} (P : S -> Prop) (mu : S -> nat) cond
      (body : S -> M S) :
  (forall st r,
      P st -> cond st = true ->
      exists st' r', body st r = Returns (st', r') /\ P st'
                     /\ (mu st' < mu st)%nat) ->
  forall fuel st r,
    P st -> (mu st <= fuel)%nat ->
    exists st' r', while_loop fuel cond body st r = Returns (st', r').
Proof.
  intros Hstep. induction fuel as [|fuel IH]; intros st r HP Hmu.
  - simpl. destruct (cond st) eqn:C; [| eauto].
    destruct (Hstep st r HP C) as (? & ? & _ & _ & ?). lia.
  - simpl. destruct (cond st) eqn:C; [| eauto].
    destruct (Hstep st r HP C) as (st1 & r1 & B & HP1 & Hlt).
    rewrite B. apply IH; [assumption | lia].
Qed.

(** A loop that returns has made some number [n] of passes: the
    condition held before each of them and fails after the last. *)
Lemma while_loop_passes {S} cond (body : S -> M S) fuel :
  forall st r st' r',
    while_loop fuel cond body st r = Returns (st', r') ->
    exists n,
      (n <= fuel)%nat
      /\ passes n body st r = Returns (st', r')
      /\ cond st' = false
      /\ forall j, (j < n)%nat ->
                   exists sj rj, passes j body st r = Returns (sj, rj)
                                 /\ cond sj = true.
Proof.
  induction fuel as [|fuel IH]; intros st r st' r' H; simpl in H.
  - destruct (cond st) eqn:C; [discriminate |]. injection H as <- <-.
    exists 0%nat. repeat split; auto; intros; lia.
  - destruct (cond st) eqn:C.
    + destruct (body st r) as [[st1 r1]| |] eqn:B; try discriminate.
      destruct (IH _ _ _ _ H) as (n & Hn & Hp & Hc & Hj).
      exists (Datatypes.S n). split; [lia |]. split.
      { simpl. unfold bind. now rewrite B. }
      split; [assumption |].
      intros [|j] Hlt.
      * exists st, r. auto.
      * destruct (Hj j) as (sj & rj & Ej & Cj); [lia |].
        exists sj, rj. split; [| assumption].
        simpl. unfold bind. now rewrite B.
    + injection H as <- <-.
      exists 0%nat. repeat split; auto; intros; lia.
Qed.

End EngineFacts.

(** ** Validated batches *)

Lemma is_nil_false {A} (l : list A) : is_nil l = false -> l <> [].
Proof. destruct l; [discriminate | discriminate]. Qed.

Lemma is_nil_true {A} (l : list A) : is_nil l = true -> l = [].
Proof. destruct l; [reflexivity | discriminate]. Qed.

Lemma filter_nil_forall {A} (f : A -> bool) l :
  filter f l = [] -> Forall (fun x => f x = false) l.
Proof.
  induction l as [|a l IH]; simpl; [constructor |].
  destruct (f a) eqn:E; [discriminate |]. intros H. constructor; auto.
Qed.

Lemma read_count_range text n :
  read_count text = Some n -> (1 <= n <= 200000)%Z.
Proof.
  unfold read_count. destruct (py_int (strip text)) as [m|]; [| discriminate].
  destruct ((m <=? 0)%Z || (m >? 200000)%Z) eqn:E; [discriminate |].
  intros H. injection H as <-. apply orb_false_iff in E as [E1 E2].
  apply Z.leb_gt in E1. rewrite Z.gtb_ltb in E2. apply Z.ltb_ge in E2. lia.
Qed.

Lemma enabled_in_PATTERNS app :
  incl (map fst (filter (fun pv => snd pv) (pattern_vars app))) PATTERNS.
Proof.
  intros p Hp. apply in_map_iff in Hp as ([q v] & <- & Hq).
  apply filter_In in Hq as [Hq _]. unfold pattern_vars in Hq.
  apply in_combine_l in Hq. exact Hq.
Qed.

(** What [validate] hands to the loop. *)
Lemma validate_batch app b :
  validate app = inr b ->
  wf_batch b
  /\ read_count (count_var app) = Some (count b)
  /\ domains b = read_lines (domains_text app)
  /\ enabled_patterns b
     = map fst (filter (fun pv => snd pv) (pattern_vars app))
  /\ name_pool b = build_name_pool (read_lines (names_text app))
  /\ unique b = unique_var app
  /\ lowercase b = lower_var app.
Proof.
  unfold validate.
  destruct (read_count (count_var app)) as [n|] eqn:Ec; [| discriminate].
  destruct (is_nil (read_lines (names_text app))) eqn:En; [discriminate |].
  destruct (is_nil (read_lines (domains_text app))) eqn:Ed; [discriminate |].
  destruct (negb (is_nil (filter _ (read_lines (domains_text app))))) eqn:Eb;
    [discriminate |].
  destruct (is_nil (map fst _)) eqn:Ep; [discriminate |].
  destruct (is_nil (build_name_pool _)) eqn:Epool; [discriminate |].
  intros H. injection H as <-. simpl.
  repeat split; auto.
  - apply (read_count_range _ _ Ec).
  - apply (read_count_range _ _ Ec).
  - now apply is_nil_false.
  - now apply is_nil_false.
  - apply negb_false_iff, is_nil_true, filter_nil_forall in Eb.
    eapply Forall_impl; [| exact Eb]. intros d Hd. simpl in Hd.
    now apply negb_false_iff in Hd.
  - now apply is_nil_false.
  - apply enabled_in_PATTERNS.
Qed.

Lemma pattern_formats p first last n2 n3 :
  In p PATTERNS ->
  exists s, py_format p (render_kwargs first last n2 n3) = Some s.
Proof.
  intros Hp.
  destruct (py_format p (render_kwargs first last n2 n3)) as [s|] eqn:E;
    [eauto | exfalso].
  unfold PATTERNS in Hp. simpl in Hp.
  repeat (destruct Hp as [<- | Hp]; [vm_compute in E; discriminate |]).
  exact Hp.
Qed.

Lemma NoDup_snoc {A} (l : list A) x : NoDup l -> ~ In x l -> NoDup (l ++ [x]).
Proof.
  induction 1 as [|a l Ha Hl IH]; intros Hx; simpl.
  - constructor; [easy | constructor].
  - constructor.
    + rewrite in_app_iff. intros [H | [H | []]]; [easy |].
      apply Hx. now left.
    + apply IH. intros H. apply Hx. now right.
Qed.

Section BatchFacts.

Context {G : PyRandom}.

Lemma render_pattern_returns pattern first last r raw r' :
  render_pattern pattern first last r = Returns (raw, r') ->
  exists n2 n3,
    (0 <= n2 <= 99)%Z /\ (0 <= n3 <= 999)%Z
    /\ py_format pattern
         (render_kwargs first last (zero_pad 2 n2) (zero_pad 3 n3))
       = Some raw.
Proof.
  destruct (render_pattern_draws pattern first last r)
    as (n2 & n3 & g & B2 & B3 & E).
  rewrite E. intros H. exists n2, n3.
  destruct (py_format _ _) as [s|]; [| discriminate].
  injection H as -> _. auto.
Qed.

(** One pass: the try is counted, and either nothing else changes or
    one row is appended. *)
Lemma attempt_cases b st r st' r' :
  attempt b st r = Returns (st', r') ->
  tries st' = (tries st + 1)%Z
  /\ ((results st' = results st /\ rows st' = rows st
       /\ seen st' = seen st)
      \/ exists row,
          row_ok b row
          /\ (unique b = true -> ~ In (row_email row) (seen st))
          /\ results st' = results st ++ [row_email row]
          /\ rows st' = rows st ++ [row]
          /\ seen st' = (if unique b then seen st ++ [row_email row]
                         else seen st)).
Proof.
  unfold attempt. intros H.
  apply bind_returns in H as ([[display first] last] & r1 & Hentry & H).
  apply bind_returns in H as (pattern & r2 & Hpat & H).
  apply bind_returns in H as (raw & r3 & Hraw & H).
  apply choice_in in Hentry. apply choice_in in Hpat.
  apply render_pattern_returns in Hraw as (n2 & n3 & B2 & B3 & Hfmt).
  destruct (rejected (sanitize (lowercase b) raw)) eqn:Hrej.
  { injection H as <- _. simpl. auto. }
  apply bind_returns in H as (d & r4 & Hd & H). apply choice_in in Hd.
  simpl in H.
  destruct (unique b && str_in _ (seen st)) eqn:Hdup.
  { injection H as <- _. simpl. auto. }
  injection H as <- _. simpl. split; [reflexivity | right].
  eexists {| row_name := display; row_pattern := pattern |}. simpl.
  repeat split; try reflexivity.
  - eauto.
  - assumption.
  - exists first, last, n2, n3, raw. auto.
  - assumption.
  - intros Hu Hin. rewrite Hu in Hdup. simpl in Hdup.
    apply str_in_In in Hin. congruence.
Qed.

Lemma attempt_returns b st r :
  wf_batch b -> exists st' r', attempt b st r = Returns (st', r').
Proof.
  intros (_ & Hpool & Hdom & _ & Hpat & Hincl). unfold attempt, bind.
  destruct (choice_returns (name_pool b) r Hpool)
    as (i & [[display first] last] & g1 & _ & _ & ->).
  set (r1 := {| gen := g1 |}).
  destruct (choice_returns (enabled_patterns b) r1 Hpat)
    as (j & pattern & g2 & _ & Hj & ->).
  set (r2 := {| gen := g2 |}).
  destruct (render_pattern_draws pattern first last r2)
    as (n2 & n3 & g3 & _ & _ & ->).
  destruct (pattern_formats pattern first last (zero_pad 2 n2)
                            (zero_pad 3 n3)) as [raw ->].
  { apply Hincl. eapply nth_error_In; eassumption. }
  destruct (rejected (sanitize (lowercase b) raw)); [unfold ret; eauto |].
  set (r3 := {| gen := g3 |}).
  destruct (choice_returns (domains b) r3 Hdom) as (k & d & g4 & _ & _ & ->).
  simpl. destruct (unique b && str_in _ _); unfold ret; eauto.
Qed.

Lemma attempt_keeps_inv b st r st' r' :
  loop_inv b st -> loop_cond b st = true ->
  attempt b st r = Returns (st', r') -> loop_inv b st'.
Proof.
  intros (Hres & Hrows & Hseen & Hnd & Hlen & Htries) Hcond Hatt.
  unfold loop_cond in Hcond. apply andb_true_iff in Hcond as [C1 C2].
  apply Z.ltb_lt in C1, C2.
  apply attempt_cases in Hatt as [Ht [(E1 & E2 & E3) | (row & Hrow & Hnew & E1 & E2 & E3)]];
    unfold loop_inv; rewrite E1, E2, E3, Ht.
  - repeat split; auto; lia.
  - rewrite map_app, length_app. simpl.
    repeat split; try lia.
    + now rewrite Hres.
    + apply Forall_app. auto.
    + rewrite Hseen. now destruct (unique b).
    + intros Hu. apply NoDup_snoc; [auto |].
      specialize (Hnew Hu). now rewrite Hseen, Hu in Hnew.
Qed.

Lemma loop_init_inv b : wf_batch b -> loop_inv b loop_init.
Proof.
  intros (Hc & _). unfold loop_inv, loop_init, max_tries. simpl.
  repeat split; try lia; try constructor.
  - now destruct (unique b).
  - destruct (unique b); lia.
Qed.

Lemma passes_tries b n :
  forall st r st' r',
    passes n (attempt b) st r = Returns (st', r') ->
    tries st' = (tries st + Z.of_nat n)%Z.
Proof.
  induction n as [|n IH]; intros st r st' r' H.
  - injection H as <- _. lia.
  - simpl in H. apply bind_returns in H as (st1 & r1 & H1 & H2).
    apply attempt_cases in H1 as [Ht _]. apply IH in H2. lia.
Qed.

(** The loop of a validated batch returns, given at least [max_tries]
    passes, and this is what it returns. *)
Lemma email_loop_returns b r fuel :
  wf_batch b -> (Z.to_nat (max_tries b) <= fuel)%nat ->
  exists st r',
    email_loop fuel b r = Returns (st, r')
    /\ loop_inv b st
    /\ loop_cond b st = false
    /\ passes (Z.to_nat (tries st)) (attempt b) loop_init r
       = Returns (st, r')
    /\ forall j, (j < Z.to_nat (tries st))%nat ->
                 exists sj rj,
                   passes j (attempt b) loop_init r = Returns (sj, rj)
                   /\ loop_cond b sj = true.
Proof.
  intros Hwf Hfuel. unfold email_loop.
  destruct (while_loop_terminates
              (loop_inv b) (fun st => Z.to_nat (max_tries b - tries st))
              (loop_cond b) (attempt b)) with (fuel := fuel)
              (st := loop_init) (r := r) as (st & r' & Hrun).
  - intros st0 r0 Hinv Hcond.
    destruct (attempt_returns b st0 r0 Hwf) as (st1 & r1 & Hatt).
    exists st1, r1. split; [assumption |].
    split; [eapply attempt_keeps_inv; eassumption |].
    apply attempt_cases in Hatt as [Ht _].
    unfold loop_cond in Hcond. apply andb_true_iff in Hcond as [_ C2].
    apply Z.ltb_lt in C2. lia.
  - now apply loop_init_inv.
  - simpl. rewrite Z.sub_0_r. exact Hfuel.
  - exists st, r'. split; [assumption |].
    destruct (while_loop_invariant (loop_inv b) (loop_cond b) (attempt b))
      with (fuel := fuel) (st := loop_init) (r := r) (st' := st) (r' := r')
      as [Hinv Hc]; auto.
    { intros. eapply attempt_keeps_inv; eassumption. }
    { now apply loop_init_inv. }
    split; [assumption |]. split; [assumption |].
    destruct (while_loop_passes _ _ _ _ _ _ _ Hrun)
      as (n & _ & Hp & _ & Hj).
    pose proof (passes_tries _ _ _ _ _ _ Hp) as Ht. simpl in Ht.
    replace (Z.to_nat (tries st)) with n by lia. auto.
Qed.

End BatchFacts.

(** ** Domain syntax *)

Lemma domain_ok_lang d : domain_ok d = true <-> Regex.lang domain_re d.
Proof. apply RegexFacts.fullmatch_lang. Qed.

(** The pattern read out: a non-empty host part over [[a-zA-Z0-9.-]], a
    dot, and at least two letters. *)
Lemma domain_ok_shape d :
  domain_ok d = true <->
  exists host tld,
    d = host ++ "." :: tld
    /\ host <> [] /\ Forall (fun c => host_char c = true) host
    /\ (2 <= length tld)%nat /\ Forall (fun c => is_alpha c = true) tld.
Proof.
  rewrite domain_ok_lang. unfold domain_re, Regex.Plus. simpl. split.
  - intros H.
    apply RegexFacts.lang_cat_inv in H as (s1 & s2 & -> & H1 & H2).
    apply RegexFacts.lang_cat_inv in H1 as (h1 & h2 & -> & Hh1 & Hh2).
    apply RegexFacts.lang_class_inv in Hh1 as (c & -> & Hc).
    apply RegexFacts.lang_star_class in Hh2.
    apply RegexFacts.lang_cat_inv in H2 as (t1 & t2 & -> & Ht1 & Ht2).
    apply RegexFacts.lang_class_inv in Ht1 as (dot & -> & Hdot).
    apply Ascii.eqb_eq in Hdot. subst dot.
    apply RegexFacts.lang_cat_inv in Ht2 as (a1 & t3 & -> & Ha1 & Ht3).
    apply RegexFacts.lang_class_inv in Ha1 as (x & -> & Hx).
    apply RegexFacts.lang_cat_inv in Ht3 as (a2 & t4 & -> & Ha2 & Ht4).
    apply RegexFacts.lang_class_inv in Ha2 as (y & -> & Hy).
    apply RegexFacts.lang_star_class in Ht4.
    exists (c :: h2), (x :: y :: t4). simpl.
    repeat split; try easy; try lia.
    + now constructor.
    + repeat constructor; assumption.
  - intros (host & tld & -> & Hne & Hhost & Hlen & Htld).
    destruct host as [|c h2]; [congruence |].
    destruct tld as [|x [|y t4]]; simpl in Hlen; try lia.
    inversion Hhost as [|? ? Hc Hh2]; subst.
    inversion Htld as [|? ? Hx Htl]; subst.
    inversion Htl as [|? ? Hy Ht4]; subst.
    constructor.
    + change (c :: h2) with ([c] ++ h2). constructor; [now constructor |].
      now apply RegexFacts.lang_star_class.
    + change ("." :: x :: y :: t4) with (["."] ++ [x] ++ [y] ++ t4).
      repeat constructor; try assumption.
      now apply RegexFacts.lang_star_class.
Qed.

Lemma domain_ok_chars d :
  domain_ok d = true -> Forall (fun c => host_char c = true) d.
Proof.
  intros H. apply domain_ok_shape in H as (host & tld & -> & _ & Hh & _ & Ht).
  apply Forall_app. split; [assumption |]. constructor; [reflexivity |].
  eapply Forall_impl; [| exact Ht]. apply alpha_is_host.
Qed.

Lemma validate_error_shape app err :
  validate app = inl err -> exists title message, err = ShowError title message.
Proof.
  unfold validate.
  repeat match goal with
         | |- context [match ?x with _ => _ end] => destruct x
         end;
    intros H; try discriminate; injection H as <-;
    unfold msg_invalid_count, msg_no_names, msg_no_domains,
           msg_invalid_domains, msg_no_patterns, msg_invalid_names; eauto.
Qed.

Lemma validate_bad_domain app d :
  In d (read_lines (domains_text app)) -> domain_ok d = false ->
  exists err,
    validate app = inl err
    /\ (err = msg_invalid_count \/ err = msg_no_names
        \/ err = msg_invalid_domains
                   (filter (fun d => negb (domain_ok d))
                           (read_lines (domains_text app)))).
Proof.
  intros Hin Hbad. unfold validate.
  destruct (read_count (count_var app)); [| eauto].
  destruct (is_nil (read_lines (names_text app))); [eauto |].
  destruct (is_nil (read_lines (domains_text app))) eqn:Ed.
  { apply is_nil_true in Ed. rewrite Ed in Hin. destruct Hin. }
  destruct (negb (is_nil (filter _ (read_lines (domains_text app))))) eqn:Eb;
    [eauto 6 |].
  apply negb_false_iff, is_nil_true in Eb.
  assert (Hf : In d (filter (fun d => negb (domain_ok d))
                            (read_lines (domains_text app))))
    by (apply filter_In; split; [assumption | now rewrite Hbad]).
  rewrite Eb in Hf. destruct Hf.
Qed.

(** C1, the part that fails: the claim lists ["a.b"] as an accepted
    line, and the pattern, which asks for two letters after the last
    dot, rejects it. *)
Lemma domain_a_b_is_rejected : domain_ok (lit "a.b") = false.
Proof. reflexivity. Qed.

(** C1, as the code has it: a line is accepted exactly when the whole
    line matches [[a-zA-Z0-9.-]+\.[a-zA-Z]{2,}]; ["example.org"] is
    accepted, ["bad domain"], ["nodot"] and ["a.b"] are rejected; and a
    rejected line among the domain lines ends the action with an error
    dialog and the application unchanged: no batch is run. *)
Theorem domain_validation `{G : PyRandom} (ambient : Rng) (app : App) (d : str) :
  In d (read_lines (domains_text app)) ->
  domain_ok d = false ->
  (forall line, domain_ok line = true <-> Regex.lang domain_re line)
  /\ domain_ok (lit "example.org") = true
  /\ domain_ok (lit "bad domain") = false
  /\ domain_ok (lit "nodot") = false
  /\ domain_ok (lit "a.b") = false
  /\ exists title message,
      generate_emails ambient app = Returns (app, [ShowError title message]).
Proof.
  intros Hin Hbad.
  split; [apply domain_ok_lang |].
  repeat (split; [reflexivity |]).
  destruct (validate_bad_domain app d Hin Hbad) as (err & Hv & _).
  destruct (validate_error_shape app err Hv) as (title & message & ->).
  exists title, message. unfold generate_emails. now rewrite Hv.
Qed.

Lemma domain_validation_witness :
  (forall line, domain_ok line = true <-> Regex.lang domain_re line)
  /\ domain_ok (lit "example.org") = true
  /\ domain_ok (lit "bad domain") = false
  /\ domain_ok (lit "nodot") = false
  /\ domain_ok (lit "a.b") = false
  /\ exists title message,
      generate_emails (G := lcg) 7%N
        (with_domains example_app (map lit ["example.org"; "a.b"]%string))
      = Returns (with_domains example_app (map lit ["example.org"; "a.b"]%string),
                 [ShowError title message]).
Proof.
  apply (domain_validation (G := lcg) 7%N
           (with_domains example_app (map lit ["example.org"; "a.b"]%string))
           (lit "a.b")).
  - vm_compute. right. left. reflexivity.
  - reflexivity.
Defined.

(** ** Reproducibility *)

(** C2, the part that fails: a seed made of one space is a non-empty
    string, yet [_rng_from_seed] strips it and seeds from the operating
    system, so two runs with that same seed can produce different output
    (here on the small generator, from two ambient states). *)
Lemma blank_seed_runs_differ :
  email_seed_var (with_seed example_app (lit " ")) <> []
  /\ generate_emails (G := lcg) 7%N (with_seed example_app (lit " "))
     <> generate_emails (G := lcg) 8%N (with_seed example_app (lit " ")).
Proof.
  split; [discriminate |].
  intros H. apply (f_equal shown_output) in H. vm_compute in H. discriminate.
Qed.

(** C2, as the code has it: for every seed that is non-empty after
    stripping whitespace, and every state of the names, domains,
    patterns, count and flags, two runs produce the same result (the
    same rows, the same output text, the same dialogs), whatever the
    operating system would have seeded an unseeded generator with; and
    the loops of the two runs return the same state after the same
    draws. *)
Theorem seeded_runs_agree `{G : PyRandom} (ambient1 ambient2 : Rng) (app : App) :
  strip (email_seed_var app) <> [] ->
  generate_emails ambient1 app = generate_emails ambient2 app
  /\ forall fuel b,
      run_batch fuel ambient1 (email_seed_var app) b
      = run_batch fuel ambient2 (email_seed_var app) b.
Proof.
  intros Hseed.
  assert (E : rng_from_seed ambient1 (email_seed_var app)
              = rng_from_seed ambient2 (email_seed_var app)).
  { unfold rng_from_seed.
    destruct (str_eqb (strip (email_seed_var app)) []) eqn:Eb; [| reflexivity].
    apply str_eqb_eq in Eb. contradiction. }
  unfold generate_emails, run_batch. rewrite E. split; [| reflexivity].
  destruct (validate app); reflexivity.
Qed.

Lemma seeded_runs_agree_witness :
  generate_emails (G := lcg) 7%N example_app
  = generate_emails (G := lcg) 8%N example_app
  /\ forall fuel b,
      run_batch (G := lcg) fuel 7%N (email_seed_var example_app) b
      = run_batch (G := lcg) fuel 8%N (email_seed_var example_app) b.
Proof.
  apply (seeded_runs_agree (G := lcg) 7%N 8%N example_app).
  vm_compute. discriminate.
Defined.

(** ** The attempt loop *)

(** C3: the loop of a validated batch returns, given [max_tries = count
    * (10 if unique else 2)] passes or more; it makes exactly [tries]
    passes, at most [max_tries]; before each pass fewer than [count]
    emails had been collected, and it stops with [count] emails or with
    the tries used up; it returns at most [count] rows; and
    [generate_emails] then keeps those rows and shows them, with the
    warning dialog exactly when they are fewer than [count]. *)
Theorem attempt_loop_bounded `{G : PyRandom} (ambient : Rng) (app : App)
        (b : batch) (fuel : nat) :
  validate app = inr b ->
  (Z.to_nat (max_tries b) <= fuel)%nat ->
  max_tries b = (count b * (if unique_var app then 10 else 2))%Z
  /\ exists st r',
      let rng := rng_from_seed ambient (email_seed_var app) in
      run_batch fuel ambient (email_seed_var app) b = Returns (st, r')
      /\ (0 <= tries st <= max_tries b)%Z
      /\ passes (Z.to_nat (tries st)) (attempt b) loop_init rng
         = Returns (st, r')
      /\ (forall j, (j < Z.to_nat (tries st))%nat ->
                    exists sj rj,
                      passes j (attempt b) loop_init rng = Returns (sj, rj)
                      /\ (Z.of_nat (length (results sj)) < count b)%Z)
      /\ length (rows st) = length (results st)
      /\ (Z.of_nat (length (rows st)) <= count b)%Z
      /\ (Z.of_nat (length (rows st)) = count b \/ tries st = max_tries b)
      /\ generate_emails ambient app
         = Returns
             ({| email_seed_var := email_seed_var app;
                 count_var := count_var app;
                 names_text := names_text app;
                 domains_text := domains_text app;
                 unique_var := unique_var app;
                 lower_var := lower_var app;
                 pattern_flags := pattern_flags app;
                 last_rows := rows st;
                 out := join [newline] (results st) |},
              if (Z.of_nat (length (rows st)) <? count b)%Z
              then [msg_fewer (count b) (length (rows st))]
              else []).
Proof.
  intros Hv Hfuel.
  destruct (validate_batch app b Hv) as (Hwf & _ & _ & _ & _ & Hu & _).
  split; [unfold max_tries; now rewrite Hu |].
  set (rng := rng_from_seed ambient (email_seed_var app)).
  destruct (email_loop_returns b rng (Z.to_nat (max_tries b)) Hwf (le_n _))
    as (st & r' & Hrun & Hinv & Hcond & Hpasses & Hbefore).
  exists st, r'. simpl. fold rng.
  destruct Hinv as (Hres & _ & _ & _ & Hlen & Htries).
  assert (Hrows : length (rows st) = length (results st))
    by (rewrite Hres; now rewrite length_map).
  split.
  { unfold run_batch, email_loop. fold rng.
    eapply while_loop_more_fuel; [exact Hrun | exact Hfuel]. }
  split; [assumption |]. split; [assumption |].
  split.
  { intros j Hj. destruct (Hbefore j Hj) as (sj & rj & Ej & Cj).
    exists sj, rj. split; [assumption |].
    unfold loop_cond in Cj. apply andb_true_iff in Cj as [Cj _].
    now apply Z.ltb_lt in Cj. }
  split; [assumption |]. rewrite Hrows. split; [assumption |].
  split.
  { unfold loop_cond in Hcond. apply andb_false_iff in Hcond as [C | C];
      apply Z.ltb_ge in C; [left | right]; lia. }
  unfold generate_emails. rewrite Hv. unfold run_batch. fold rng.
  rewrite Hrun. reflexivity.
Qed.

Lemma attempt_loop_bounded_witness :
  exists b,
    validate example_app = inr b
    /\ max_tries b = (count b * (if unique_var example_app then 10 else 2))%Z
    /\ exists st r',
      let rng := rng_from_seed (G := lcg) 7%N (email_seed_var example_app) in
      run_batch 60 7%N (email_seed_var example_app) b = Returns (st, r')
      /\ (0 <= tries st <= max_tries b)%Z
      /\ passes (Z.to_nat (tries st)) (attempt b) loop_init rng
         = Returns (st, r')
      /\ (forall j, (j < Z.to_nat (tries st))%nat ->
                    exists sj rj,
                      passes j (attempt b) loop_init rng = Returns (sj, rj)
                      /\ (Z.of_nat (length (results sj)) < count b)%Z)
      /\ length (rows st) = length (results st)
      /\ (Z.of_nat (length (rows st)) <= count b)%Z
      /\ (Z.of_nat (length (rows st)) = count b \/ tries st = max_tries b)
      /\ generate_emails 7%N example_app
         = Returns
             ({| email_seed_var := email_seed_var example_app;
                 count_var := count_var example_app;
                 names_text := names_text example_app;
                 domains_text := domains_text example_app;
                 unique_var := unique_var example_app;
                 lower_var := lower_var example_app;
                 pattern_flags := pattern_flags example_app;
                 last_rows := rows st;
                 out := join [newline] (results st) |},
              if (Z.of_nat (length (rows st)) <? count b)%Z
              then [msg_fewer (count b) (length (rows st))]
              else []).
Proof.
  eexists. split; [vm_compute; reflexivity |].
  apply (attempt_loop_bounded (G := lcg) 7%N example_app _ 60).
  - vm_compute. reflexivity.
  - vm_compute. repeat constructor.
Defined.

(** ** The sanitizer *)

(** C4: the sanitizer is, in this order, the optional lowercasing, the
    removal of every character outside [[a-z0-9._-]], the replacement of
    every run of two or more separators by one ["."], and the trimming of
    separators at both ends; a candidate is rejected exactly when the
    result is empty or shorter than three characters; ["Mi--a..Lin"]
    with lowercasing gives ["mi.a.lin"], which is kept, and ["@@@"] is
    rejected. *)
Theorem sanitizer_steps (lower_on : bool) (s : str) :
  sanitize lower_on s
  = spec_trim (spec_collapse false
                 (spec_strip_chars (if lower_on then lower s else s)))
  /\ (rejected (sanitize lower_on s) = true
      <-> sanitize lower_on s = [] \/ (length (sanitize lower_on s) < 3)%nat)
  /\ sanitize true (lit "Mi--a..Lin") = lit "mi.a.lin"
  /\ rejected (lit "mi.a.lin") = false
  /\ rejected (sanitize lower_on (lit "@@@")) = true.
Proof.
  split; [apply sanitize_steps |].
  split.
  { unfold rejected. destruct (sanitize lower_on s) as [|a [|b [|c t]]]; simpl;
      split; intros H; auto; try discriminate;
      destruct H as [H | H]; try discriminate; lia. }
  split; [reflexivity |]. split; [reflexivity |].
  destruct lower_on; reflexivity.
Qed.

(** ** Batches that run *)

Section RunFacts.

Context {G : PyRandom}.

Lemma generate_emails_runs ambient app b :
  validate app = inr b ->
  exists st r',
    run_batch (Z.to_nat (max_tries b)) ambient (email_seed_var app) b
    = Returns (st, r')
    /\ generate_emails ambient app = Returns (publish app b st)
    /\ loop_inv b st
    /\ loop_cond b st = false
    /\ passes (Z.to_nat (tries st)) (attempt b) loop_init
              (rng_from_seed ambient (email_seed_var app))
       = Returns (st, r').
Proof.
  intros Hv. destruct (validate_batch app b Hv) as (Hwf & _).
  destruct (email_loop_returns
              b (rng_from_seed ambient (email_seed_var app))
              (Z.to_nat (max_tries b)) Hwf (le_n _))
    as (st & r' & Hrun & Hinv & Hcond & Hpasses & _).
  exists st, r'. unfold generate_emails, run_batch. rewrite Hv, Hrun. auto.
Qed.

Lemma attempt_appends b st r st' r' :
  unique b = false -> never_rejected b ->
  attempt b st r = Returns (st', r') ->
  length (results st') = Datatypes.S (length (results st)).
Proof.
  intros Hu Hnever. unfold attempt. intros H.
  apply bind_returns in H as ([[display first] last] & r1 & Hentry & H).
  apply bind_returns in H as (pattern & r2 & Hpat & H).
  apply bind_returns in H as (raw & r3 & Hraw & H).
  apply choice_in in Hentry. apply choice_in in Hpat.
  apply render_pattern_returns in Hraw as (n2 & n3 & B2 & B3 & Hfmt).
  rewrite (Hnever _ _ _ _ _ _ _ Hentry Hpat B2 B3 Hfmt) in H.
  apply bind_returns in H as (d & r4 & _ & H).
  rewrite Hu in H. simpl in H. injection H as <- _. simpl.
  rewrite length_app. simpl. lia.
Qed.

Lemma passes_append b n :
  unique b = false -> never_rejected b ->
  forall st r st' r',
    passes n (attempt b) st r = Returns (st', r') ->
    length (results st') = (length (results st) + n)%nat.
Proof.
  intros Hu Hnever. induction n as [|n IH]; intros st r st' r' H.
  - injection H as <- _. lia.
  - simpl in H. apply bind_returns in H as (st1 & r1 & H1 & H2).
    apply (attempt_appends _ _ _ _ _ Hu Hnever) in H1.
    apply IH in H2. lia.
Qed.

End RunFacts.

(** ** Uniqueness *)

Ltac split_cases :=
  repeat match goal with
         | H : _ \/ _ |- _ => destruct H as [H | H]
         | H : False |- _ => destruct H
         end.

Ltac pick_member := first [left; reflexivity | right; pick_member].

(** Inclusion of one explicit list in another. *)
Ltac incl_explicit :=
  let x := fresh "x" in
  let H := fresh "H" in
  intros x H; vm_compute in H |- *; split_cases; subst; pick_member.

Lemma small_pool_emails (b : batch) :
  incl (name_pool b) (pool_of (five_names ++ short_names)) ->
  incl (enabled_patterns b) [lit "{first}{last}"] ->
  incl (domains b) (map lit ["example.org"; "example.net"]%string) ->
  forall row, row_ok b row -> In (row_email row) ten_emails.
Proof.
  intros Hpool Hpat Hdom row
         (He & (d & Hd & Hdomain) & Hp
          & (first & last & n2 & n3 & raw & Hentry & _ & _ & Hfmt & Huser)
          & Hrej).
  apply Hpool in Hentry. apply Hpat in Hp. apply Hdom in Hd.
  rewrite He, Hdomain, Huser. rewrite Huser in Hrej.
  destruct Hp as [Hp | []]. rewrite <- Hp in Hfmt.
  vm_compute in Hentry. simpl in Hd.
  split_cases; subst d; injection Hentry as _ <- <-;
    vm_compute in Hfmt; injection Hfmt as <-;
    destruct (lowercase b);
    first [ vm_compute in Hrej; discriminate | vm_compute; pick_member ].
Qed.

Lemma five_names_never_rejected (b : batch) :
  incl (name_pool b) (pool_of five_names) ->
  incl (enabled_patterns b) [lit "{first}{last}"] ->
  never_rejected b.
Proof.
  intros Hpool Hpat display first last pattern n2 n3 raw Hentry Hp _ _ Hfmt.
  apply Hpool in Hentry. apply Hpat in Hp.
  destruct Hp as [Hp | []]. rewrite <- Hp in Hfmt.
  vm_compute in Hentry.
  split_cases; injection Hentry as _ <- <-;
    vm_compute in Hfmt; injection Hfmt as <-;
    destruct (lowercase b); reflexivity.
Qed.

(** C5, the part that fails: a combination that can produce only the ten
    emails of [ten_emails], asked for five emails without uniqueness,
    yields two rows here, not five: most of the ten tries pick a name
    whose candidate is too short. *)
Lemma non_unique_batch_can_fall_short :
  exists b,
    validate (small_app (five_names ++ short_names) "5" false) = inr b
    /\ count b = 5%Z /\ unique b = false
    /\ (forall row, row_ok b row -> In (row_email row) ten_emails)
    /\ length ten_emails = 10%nat
    /\ match generate_emails (G := lcg) 7%N
               (small_app (five_names ++ short_names) "5" false) with
       | Returns (app', dialogs) =>
           length (last_rows app') = 2%nat /\ dialogs = [msg_fewer 5 2]
       | _ => False
       end.
Proof.
  eexists.
  split; [vm_compute; reflexivity |].
  split; [reflexivity |]. split; [reflexivity |].
  split.
  { apply small_pool_emails; incl_explicit. }
  split; [reflexivity |].
  vm_compute. split; reflexivity.
Qed.

(** C5, as the code has it: with the unique flag set the emails of a
    batch are pairwise distinct, so a combination that can produce only
    the emails of a list [possible] yields at most that many rows, and
    the under-fulfilment warning is shown when more were requested (at
    most 10 rows, with the warning, for 50 requested and 10 possible);
    with the flag unset the batch yields exactly the requested number of
    rows when no candidate of the combination is rejected by the
    sanitizer, duplicates included. *)
Theorem unique_batches `{G : PyRandom} (ambient : Rng) (app : App) (b : batch)
        (possible : list str) :
  validate app = inr b ->
  exists app' dialogs,
    generate_emails ambient app = Returns (app', dialogs)
    /\ (unique_var app = true -> NoDup (map row_email (last_rows app')))
    /\ (unique_var app = true ->
        (forall row, row_ok b row -> In (row_email row) possible) ->
        (length (last_rows app') <= length possible)%nat
        /\ ((Z.of_nat (length possible) < count b)%Z ->
            dialogs = [msg_fewer (count b) (length (last_rows app'))]))
    /\ (unique_var app = false -> never_rejected b ->
        Z.of_nat (length (last_rows app')) = count b /\ dialogs = []).
Proof.
  intros Hv.
  destruct (validate_batch app b Hv) as (Hwf & _ & _ & _ & _ & Hu & _).
  destruct (generate_emails_runs ambient app b Hv)
    as (st & r' & _ & Hgen & Hinv & Hcond & Hpasses).
  destruct Hinv as (Hres & Hrows & _ & Hnd & Hlen & Htries).
  assert (Hlr : length (rows st) = length (results st))
    by (now rewrite Hres, length_map).
  exists (fst (publish app b st)), (snd (publish app b st)).
  split; [now rewrite <- surjective_pairing |].
  simpl. rewrite <- Hres, Hlr. rewrite Hu in Hnd.
  split; [assumption |]. split.
  - intros Huniq Hposs.
    assert (Hle : (length (results st) <= length possible)%nat).
    { apply NoDup_incl_length; [auto |].
      intros e He. rewrite Hres in He.
      apply in_map_iff in He as (row & <- & Hrow).
      apply Hposs. rewrite Forall_forall in Hrows. auto. }
    split; [assumption |]. intros Hfew.
    destruct (Z.ltb_spec (Z.of_nat (length (results st))) (count b));
      [reflexivity | lia].
  - intros Hnu Hnever. rewrite <- Hu in Hnu.
    pose proof (passes_append b _ Hnu Hnever _ _ _ _ Hpasses) as Hn.
    simpl in Hn.
    unfold loop_cond, max_tries in Hcond. rewrite Hnu in Hcond.
    assert (Heq : Z.of_nat (length (results st)) = count b).
    { apply andb_false_iff in Hcond as [C | C]; apply Z.ltb_ge in C; lia. }
    split; [assumption |].
    destruct (Z.ltb_spec (Z.of_nat (length (results st))) (count b));
      [lia | reflexivity].
Qed.

Lemma unique_batches_witness :
  (exists app' dialogs,
      generate_emails (G := lcg) 7%N (small_app five_names "50" true)
      = Returns (app', dialogs)
      /\ NoDup (map row_email (last_rows app'))
      /\ (length (last_rows app') <= 10)%nat
      /\ dialogs = [msg_fewer 50 (length (last_rows app'))])
  /\ (exists app' dialogs,
         generate_emails (G := lcg) 7%N (small_app five_names "5" false)
         = Returns (app', dialogs)
         /\ length (last_rows app') = 5%nat /\ dialogs = []).
Proof.
  split.
  - destruct (unique_batches
                (G := lcg) 7%N (small_app five_names "50" true)
                {| count := 50;
                   domains := map lit ["example.org"; "example.net"]%string;
                   enabled_patterns := [lit "{first}{last}"];
                   name_pool := pool_of five_names;
                   unique := true;
                   lowercase := true |}
                ten_emails)
      as (app' & dialogs & Hgen & Hnd & Hposs & _).
    { vm_compute. reflexivity. }
    exists app', dialogs.
    destruct (Hposs eq_refl) as [Hle Hwarn].
    { apply small_pool_emails; incl_explicit. }
    split; [exact Hgen |]. split; [exact (Hnd eq_refl) |].
    split; [exact Hle |]. apply Hwarn. vm_compute. reflexivity.
  - destruct (unique_batches
                (G := lcg) 7%N (small_app five_names "5" false)
                {| count := 5;
                   domains := map lit ["example.org"; "example.net"]%string;
                   enabled_patterns := [lit "{first}{last}"];
                   name_pool := pool_of five_names;
                   unique := false;
                   lowercase := true |}
                [])
      as (app' & dialogs & Hgen & _ & _ & Hexact).
    { vm_compute. reflexivity. }
    exists app', dialogs.
    destruct (Hexact eq_refl) as [Hlen Hnone].
    { apply five_names_never_rejected; incl_explicit. }
    split; [exact Hgen |]. split; [| exact Hnone].
    simpl in Hlen. lia.
Defined.

(** ** Rows *)

Lemma lower_no_upper s : forallb (fun c => negb (is_upper c)) (lower s) = true.
Proof.
  induction s as [|c t IH]; simpl; [reflexivity |].
  now rewrite lower_char_not_upper, IH.
Qed.

Lemma lower_lower s : lower (lower s) = lower s.
Proof.
  induction s as [|c t IH]; simpl; [reflexivity |]. rewrite IH. f_equal.
  unfold lower_char at 1. now rewrite lower_char_not_upper.
Qed.

(** C6: in every row of a batch the email is the username, ["@"] and the
    domain of that row, and the domain has no uppercase character (it is
    its own lowercasing), whatever the lowercase flag and the casing of
    the domain lines. *)
Theorem rows_round_trip `{G : PyRandom} (ambient : Rng) (app : App) (b : batch) :
  validate app = inr b ->
  exists app' dialogs,
    generate_emails ambient app = Returns (app', dialogs)
    /\ forall row,
        In row (last_rows app') ->
        row_email row = row_username row ++ lit "@" ++ row_domain row
        /\ lower (row_domain row) = row_domain row
        /\ forallb (fun c => negb (is_upper c)) (row_domain row) = true.
Proof.
  intros Hv.
  destruct (generate_emails_runs ambient app b Hv)
    as (st & r' & _ & Hgen & (_ & Hrows & _) & _).
  exists (fst (publish app b st)), (snd (publish app b st)).
  split; [now rewrite <- surjective_pairing |].
  simpl. intros row Hin. rewrite Forall_forall in Hrows.
  destruct (Hrows row Hin) as (He & (d & _ & Hd) & _).
  split; [assumption |]. rewrite Hd.
  split; [apply lower_lower | apply lower_no_upper].
Qed.

Lemma rows_round_trip_witness :
  lower_var example_app = false
  /\ In (lit "Example.ORG") (domains_text example_app)
  /\ exists app' dialogs,
      generate_emails (G := lcg) 7%N example_app = Returns (app', dialogs)
      /\ forall row,
          In row (last_rows app') ->
          row_email row = row_username row ++ lit "@" ++ row_domain row
          /\ lower (row_domain row) = row_domain row
          /\ forallb (fun c => negb (is_upper c)) (row_domain row) = true.
Proof.
  split; [reflexivity |]. split; [left; reflexivity |].
  eapply (rows_round_trip (G := lcg) 7%N example_app).
  vm_compute. reflexivity.
Defined.

(** ** Validation *)

Lemma filter_not_nil {A} (f : A -> bool) l :
  filter f l <> [] -> exists x, In x l /\ f x = true.
Proof.
  destruct (filter f l) as [|x rest] eqn:E; [congruence |]. intros _.
  assert (H : In x (filter f l)) by (rewrite E; now left).
  apply filter_In in H. eauto.
Qed.

Lemma validate_fails app :
  validation_failure app -> exists err, validate app = inl err.
Proof.
  unfold validate. intros [Hc | Ho]; [rewrite Hc; eauto |].
  destruct (read_count (count_var app)); [| eauto].
  destruct (is_nil (read_lines (names_text app))) eqn:En; [eauto |].
  destruct (is_nil (read_lines (domains_text app))) eqn:Ed; [eauto |].
  destruct (negb (is_nil (filter _ (read_lines (domains_text app))))) eqn:Eb;
    [eauto |].
  destruct (is_nil (map fst _)) eqn:Ep; [eauto |].
  destruct (is_nil (build_name_pool _)) eqn:Epool; [eauto |].
  exfalso. destruct Ho as [H | [H | [(d & Hin & Hbad) | [H | H]]]].
  - rewrite H in En. discriminate.
  - rewrite H in Ed. discriminate.
  - apply negb_false_iff, is_nil_true in Eb.
    assert (Hf : In d (filter (fun d => negb (domain_ok d))
                              (read_lines (domains_text app))))
      by (apply filter_In; split; [assumption | now rewrite Hbad]).
    rewrite Eb in Hf. destruct Hf.
  - rewrite H in Ep. discriminate.
  - rewrite H in Epool. discriminate.
Qed.

Lemma validate_passes app n :
  read_count (count_var app) = Some n -> ~ other_failure app ->
  exists b, validate app = inr b /\ count b = n.
Proof.
  unfold validate, other_failure. intros -> Hok.
  destruct (is_nil (read_lines (names_text app))) eqn:En.
  { apply is_nil_true in En. tauto. }
  destruct (is_nil (read_lines (domains_text app))) eqn:Ed.
  { apply is_nil_true in Ed. tauto. }
  destruct (negb (is_nil (filter _ (read_lines (domains_text app))))) eqn:Eb.
  { apply negb_true_iff, is_nil_false, filter_not_nil in Eb
      as (d & Hin & Hbad).
    apply negb_true_iff in Hbad. exfalso. apply Hok. eauto 6. }
  destruct (is_nil (map fst _)) eqn:Ep.
  { apply is_nil_true in Ep. tauto. }
  destruct (is_nil (build_name_pool _)) eqn:Epool.
  { apply is_nil_true in Epool. tauto. }
  eexists. split; reflexivity.
Qed.

(** C7: the counts 0, -1 and 200001 are rejected and 200000 is accepted
    (with it, and nothing else wrong, the batch runs); and every
    validation failure (bad count, no names, no domains, a malformed
    domain, no enabled pattern, no usable name) ends the action with an
    error dialog and the application exactly as it was: no rows are
    generated, and the retained rows and the output are untouched. *)
Theorem validation_aborts `{G : PyRandom} (ambient : Rng) (app : App) :
  validation_failure app ->
  (exists title message,
      generate_emails ambient app = Returns (app, [ShowError title message]))
  /\ read_count (lit "0") = None
  /\ read_count (lit "-1") = None
  /\ read_count (lit "200001") = None
  /\ read_count (lit "200000") = Some 200000%Z
  /\ (forall app2,
         read_count (count_var app2) = None ->
         generate_emails ambient app2 = Returns (app2, [msg_invalid_count]))
  /\ (forall app2,
         count_var app2 = lit "200000" -> ~ other_failure app2 ->
         exists b st,
           validate app2 = inr b /\ count b = 200000%Z
           /\ generate_emails ambient app2 = Returns (publish app2 b st)).
Proof.
  intros Hfail. split.
  { destruct (validate_fails app Hfail) as [err Hv].
    destruct (validate_error_shape app err Hv) as (title & message & ->).
    exists title, message. unfold generate_emails. now rewrite Hv. }
  repeat (split; [reflexivity |]).
  split.
  - intros app2 Hc. unfold generate_emails, validate. now rewrite Hc.
  - intros app2 Hc Hok.
    destruct (validate_passes app2 200000%Z) as (b & Hv & Hn);
      [rewrite Hc; reflexivity | assumption |].
    destruct (generate_emails_runs ambient app2 b Hv)
      as (st & _ & _ & Hgen & _).
    exists b, st. auto.
Qed.

Lemma example_app_has_no_other_failure text :
  ~ other_failure (with_count example_app text).
Proof.
  intros [H | [H | [(d & Hin & Hbad) | [H | H]]]];
    try (vm_compute in H; discriminate).
  vm_compute in Hin. split_cases; subst d; vm_compute in Hbad; discriminate.
Qed.

Lemma validation_aborts_witness :
  (exists title message,
      generate_emails (G := lcg) 7%N (with_count example_app (lit "0"))
      = Returns (with_count example_app (lit "0"), [ShowError title message]))
  /\ exists b st,
      validate (with_count example_app (lit "200000")) = inr b
      /\ count b = 200000%Z
      /\ generate_emails (G := lcg) 7%N (with_count example_app (lit "200000"))
         = Returns (publish (with_count example_app (lit "200000")) b st).
Proof.
  destruct (validation_aborts (G := lcg) 7%N (with_count example_app (lit "0")))
    as (Habort & _ & _ & _ & _ & _ & Haccept).
  { left. reflexivity. }
  split; [exact Habort |].
  apply Haccept; [reflexivity | apply example_app_has_no_other_failure].
Defined.

(** ** The renderer's draws *)

(** C8: a call of the renderer makes exactly two calls on the random
    source, [randint(0, 99)] and then [randint(0, 999)]; the first
    number is in [[0, 99]] and is written with two digits, the second in
    [[0, 999]] and with three; and this is so for every pattern: the
    numbers and the state of the source after the call are the same
    whichever pattern is rendered, and the nine patterns all render. *)
Theorem render_pattern_two_draws `{G : PyRandom} (first last : str) (r : Random) :
  exists n2 n3 r1 r2,
    randint 0 99 r = Returns (n2, r1)
    /\ randint 0 999 r1 = Returns (n3, r2)
    /\ (0 <= n2 <= 99)%Z /\ (0 <= n3 <= 999)%Z
    /\ drawn r2 = drawn r ++ [DrawInt 0 99 n2; DrawInt 0 999 n3]
    /\ length (zero_pad 2 n2) = 2%nat /\ length (zero_pad 3 n3) = 3%nat
    /\ forall pattern,
        render_pattern pattern first last r
        = match py_format pattern
                  (render_kwargs first last (zero_pad 2 n2) (zero_pad 3 n3))
          with
          | Some s => Returns (s, r2)
          | None => Raises
          end
        /\ (In pattern PATTERNS ->
            exists s, render_pattern pattern first last r = Returns (s, r2)).
Proof.
  destruct (randint_returns 0 99 r) as (n2 & g1 & B2 & E2); [lia |].
  set (r1 := {| gen := g1; drawn := drawn r ++ [DrawInt 0 99 n2] |}) in *.
  destruct (randint_returns 0 999 r1) as (n3 & g2 & B3 & E3); [lia |].
  set (r2 := {| gen := g2; drawn := drawn r1 ++ [DrawInt 0 999 n3] |}) in *.
  exists n2, n3, r1, r2.
  repeat (split; [first [assumption | lia] |]).
  split; [subst r2 r1; simpl; now rewrite <- app_assoc |].
  split; [now apply zero_pad_2 |]. split; [now apply zero_pad_3 |].
  intros pattern.
  assert (E : render_pattern pattern first last r
              = match py_format pattern
                        (render_kwargs first last (zero_pad 2 n2)
                                       (zero_pad 3 n3))
                with
                | Some s => Returns (s, r2)
                | None => Raises
                end).
  { unfold render_pattern, bind. rewrite E2, E3.
    destruct (py_format _ _); reflexivity. }
  split; [exact E |]. intros Hp. rewrite E.
  destruct (pattern_formats pattern first last (zero_pad 2 n2)
                            (zero_pad 3 n3) Hp) as [s ->].
  now exists s.
Qed.

(** ** One [@] per email *)

Lemma count_occ_none (s : str) (x : ascii) :
  Forall (fun c => c <> x) s -> count_occ ascii_dec s x = 0%nat.
Proof.
  intros H. apply count_occ_not_In. rewrite Forall_forall in H.
  intros Hin. now apply (H x).
Qed.

Lemma domain_lower_no_at d :
  domain_ok d = true -> Forall (fun c => c <> "@") (lower d).
Proof.
  intros H. apply domain_ok_chars in H. unfold lower.
  apply Forall_map. eapply Forall_impl; [| exact H].
  intros c Hc. now apply host_char_not_at, host_char_lower.
Qed.

(** C9: every email of a batch contains exactly one ["@"]: the username
    of the row is made of characters of [[a-z0-9._-]] only, and neither
    it nor the domain, which comes from a line that passed validation,
    contains ["@"]. *)
Theorem one_at_sign `{G : PyRandom} (ambient : Rng) (app : App) (b : batch) :
  validate app = inr b ->
  exists app' dialogs,
    generate_emails ambient app = Returns (app', dialogs)
    /\ forall row,
        In row (last_rows app') ->
        count_occ ascii_dec (row_email row) "@" = 1%nat
        /\ Forall (fun c => user_char c = true) (row_username row)
        /\ ~ In "@" (row_username row)
        /\ ~ In "@" (row_domain row).
Proof.
  intros Hv.
  destruct (validate_batch app b Hv) as ((_ & _ & _ & Hdoms & _) & _).
  destruct (generate_emails_runs ambient app b Hv)
    as (st & r' & _ & Hgen & (_ & Hrows & _) & _).
  exists (fst (publish app b st)), (snd (publish app b st)).
  split; [now rewrite <- surjective_pairing |].
  simpl. intros row Hin. rewrite Forall_forall in Hrows.
  destruct (Hrows row Hin)
    as (He & (d & Hd & Hdom) & _ & (f & l & n2 & n3 & raw & _ & _ & _ & _ & Hu) & _).
  assert (Huser : all_user (row_username row))
    by (rewrite Hu; apply sanitize_all_user).
  assert (Hno_u : Forall (fun c => c <> "@") (row_username row)).
  { eapply Forall_impl; [| exact Huser]. apply user_char_not_at. }
  assert (Hno_d : Forall (fun c => c <> "@") (row_domain row)).
  { rewrite Hdom. apply domain_lower_no_at.
    rewrite Forall_forall in Hdoms. now apply Hdoms. }
  split.
  { rewrite He, count_occ_app. simpl.
    rewrite (count_occ_none _ _ Hno_u), (count_occ_none _ _ Hno_d).
    reflexivity. }
  split; [exact Huser |].
  rewrite Forall_forall in Hno_u, Hno_d.
  split; intros Hat; [now apply (Hno_u "@") | now apply (Hno_d "@")].
Qed.

Lemma one_at_sign_witness :
  exists app' dialogs,
    generate_emails (G := lcg) 7%N example_app = Returns (app', dialogs)
    /\ forall row,
        In row (last_rows app') ->
        count_occ ascii_dec (row_email row) "@" = 1%nat
        /\ Forall (fun c => user_char c = true) (row_username row)
        /\ ~ In "@" (row_username row)
        /\ ~ In "@" (row_domain row).
Proof.
  eapply (one_at_sign (G := lcg) 7%N example_app).
  vm_compute. reflexivity.
Defined.

(** ** Sanitizing twice *)

(** C10: an accepted username has no two separators side by side and
    neither starts nor ends with a separator, and sanitizing it again,
    with lowercasing, returns it unchanged. *)
Theorem sanitize_idempotent (lower_on : bool) (s : str) :
  rejected (sanitize lower_on s) = false ->
  sep_run_free (sanitize lower_on s) = true
  /\ starts_with separator (sanitize lower_on s) = false
  /\ ends_with separator (sanitize lower_on s) = false
  /\ sanitize true (sanitize lower_on s) = sanitize lower_on s.
Proof.
  intros _. destruct (sanitize_shape lower_on s) as (Hu & Hr & Hs & He).
  repeat (split; [assumption |]). now apply sanitize_fixed.
Qed.

Lemma sanitize_idempotent_witness :
  sep_run_free (sanitize true (lit "Mi--a..Lin")) = true
  /\ starts_with separator (sanitize true (lit "Mi--a..Lin")) = false
  /\ ends_with separator (sanitize true (lit "Mi--a..Lin")) = false
  /\ sanitize true (sanitize true (lit "Mi--a..Lin"))
     = sanitize true (lit "Mi--a..Lin").
Proof.
  apply (sanitize_idempotent true (lit "Mi--a..Lin")). reflexivity.
Defined.

(** * Further properties: the helpers of the name pool *)

(** ** [slug] *)

Lemma slug_char_not_space c : slug_char c = true -> is_space c = false.
Proof.
  intros H.
  assert (E : implb (slug_char c) (negb (is_space c)) = true) by (by_chars c).
  rewrite H in E. simpl in E. now apply negb_true_iff in E.
Qed.

Lemma slug_char_user c : slug_char c = true -> user_char c = true.
Proof.
  intros H.
  assert (E : implb (slug_char c) (user_char c) = true) by (by_chars c).
  now rewrite H in E.
Qed.

Lemma slug_char_not_separator c : slug_char c = true -> separator c = false.
Proof.
  intros H.
  assert (E : implb (slug_char c) (negb (separator c)) = true) by (by_chars c).
  rewrite H in E. simpl in E. now apply negb_true_iff in E.
Qed.

Lemma strip_with_fixed p s :
  starts_with p s = false -> ends_with p s = false -> strip_with p s = s.
Proof.
  intros Hs He. unfold strip_with.
  rewrite (lstrip_fixed _ _ Hs). now apply rstrip_fixed.
Qed.

Lemma ends_with_cons p c t :
  ends_with p (c :: t) = if is_nil t then p c else ends_with p t.
Proof.
  unfold ends_with. simpl rev. destruct t as [|d t]; [reflexivity |].
  simpl is_nil. destruct (rev (d :: t)) as [|x r] eqn:E; [| reflexivity].
  apply (f_equal (@length ascii)) in E. rewrite length_rev in E. discriminate.
Qed.

Lemma ends_with_none p s :
  Forall (fun c => p c = false) s -> ends_with p s = false.
Proof.
  induction 1 as [|c t Hc Ht IH]; [reflexivity |].
  rewrite ends_with_cons. now destruct t.
Qed.

Lemma starts_with_none p s :
  Forall (fun c => p c = false) s -> starts_with p s = false.
Proof. destruct 1; [reflexivity | assumption]. Qed.

Lemma slug_filter s : slug s = filter slug_char (lower (strip s)).
Proof. unfold slug. apply re_sub_delete. Qed.

Lemma slug_fixed s : Forall (fun c => slug_char c = true) s -> slug s = s.
Proof.
  intros H. rewrite slug_filter.
  assert (Hsp : Forall (fun c => is_space c = false) s)
    by (eapply Forall_impl; [| exact H]; apply slug_char_not_space).
  unfold strip. rewrite strip_with_fixed;
    [| now apply starts_with_none | now apply ends_with_none].
  rewrite lower_fixed.
  - now apply filter_fixed.
  - eapply Forall_impl; [| exact H]. apply slug_char_user.
Qed.

Lemma slug_is_clean_chars s : Forall (fun c => slug_char c = true) (slug s).
Proof.
  rewrite slug_filter. apply Forall_forall. intros c Hc.
  now apply filter_In in Hc.
Qed.

(** X1: a slug consists of characters of [[a-z0-9]] only, and slugging
    is idempotent: a string over [[a-z0-9]] is its own slug. *)
Theorem slug_is_clean (s : str) :
  Forall (fun c => slug_char c = true) (slug s)
  /\ slug (slug s) = slug s
  /\ (Forall (fun c => slug_char c = true) s -> slug s = s).
Proof.
  pose proof (slug_is_clean_chars s) as H.
  split; [exact H |]. split; [now apply slug_fixed | apply slug_fixed].
Qed.

(** ** [normalize_name_line] and [_read_lines] *)

Lemma sub_runs_squeeze s :
  forall run,
    sub_runs is_space 1 (lit " ") run s =
    if is_nil run then squeeze false s else " " :: squeeze true s.
Proof.
  induction s as [|c t IH]; intros run.
  - destruct run; reflexivity.
  - simpl. destruct (is_space c).
    + rewrite IH. destruct run; reflexivity.
    + rewrite IH. destruct run; reflexivity.
Qed.

Lemma normalize_squeeze line :
  normalize_name_line line = squeeze false (strip line).
Proof.
  unfold normalize_name_line, re_sub_class. now rewrite sub_runs_squeeze.
Qed.

Lemma strip_not_start s : starts_with is_space (strip s) = false.
Proof.
  unfold strip, strip_with. rewrite rstrip_trim_back.
  destruct (starts_with is_space (trim_back is_space (lstrip is_space s)))
    eqn:E; [| reflexivity].
  apply trim_back_start in E. now rewrite lstrip_not_start in E.
Qed.

Lemma strip_not_end s : ends_with is_space (strip s) = false.
Proof. apply rstrip_not_end. Qed.

Lemma squeeze_true_nil s :
  squeeze true s = [] -> Forall (fun c => is_space c = true) s.
Proof.
  induction s as [|c t IH]; simpl; [constructor |].
  destruct (is_space c) eqn:E; [| discriminate]. auto.
Qed.

Lemma squeeze_false_nil s : squeeze false s = [] -> s = [].
Proof. destruct s as [|c t]; simpl; [easy |]. now destruct (is_space c). Qed.

Lemma ends_with_all p s :
  s <> [] -> Forall (fun c => p c = true) s -> ends_with p s = true.
Proof.
  intros Hne H. induction H as [|c t Hc Ht IH]; [congruence |].
  rewrite ends_with_cons. destruct t; [assumption |].
  apply IH. discriminate.
Qed.

Lemma ends_with_nonempty p s : ends_with p s = true -> s <> [].
Proof. intros H ->. discriminate. Qed.

Lemma squeeze_end s : forall in_run,
  ends_with is_space (squeeze in_run s) = true -> ends_with is_space s = true.
Proof.
  induction s as [|c t IH]; intros in_run H; [destruct in_run; discriminate |].
  simpl in H. rewrite ends_with_cons.
  destruct (is_space c) eqn:Ec.
  - destruct in_run.
    + pose proof (IH _ H) as Ht.
      destruct t; [discriminate | exact Ht].
    + rewrite ends_with_cons in H.
      destruct (squeeze true t) as [|x r] eqn:Es; simpl in H.
      * apply squeeze_true_nil in Es.
        destruct t as [|d t]; [reflexivity |].
        apply ends_with_all; [discriminate | assumption].
      * rewrite <- Es in H. pose proof (IH _ H) as Ht.
        destruct t; [discriminate | exact Ht].
  - rewrite ends_with_cons in H.
    destruct (squeeze false t) as [|x r] eqn:Es; simpl in H.
    + congruence.
    + rewrite <- Es in H. pose proof (IH _ H) as Ht.
      destruct t; [discriminate | exact Ht].
Qed.

Lemma squeeze_start s : forall in_run,
  starts_with is_space s = false ->
  starts_with is_space (squeeze in_run s) = false.
Proof.
  destruct s as [|c t]; intros in_run H; [reflexivity |].
  simpl in H |- *. now rewrite H.
Qed.

Lemma squeeze_single_spaced s :
  (starts_with is_space (squeeze true s) = false
   /\ single_spaced (squeeze true s) = true)
  /\ single_spaced (squeeze false s) = true.
Proof.
  induction s as [|c t [[A1 A2] B]]; simpl; [auto |].
  destruct (is_space c) eqn:Ec; simpl.
  - split; [now split |]. now rewrite A1, A2.
  - now rewrite Ec, B.
Qed.

Lemma squeeze_fixed s :
  single_spaced s = true ->
  squeeze false s = s
  /\ (starts_with is_space s = false -> squeeze true s = s).
Proof.
  induction s as [|c t IH]; intros H; [auto |].
  simpl in H |- *. apply andb_true_iff in H as [H1 H2].
  destruct (IH H2) as [IHf IHt].
  destruct (is_space c) eqn:Ec.
  - apply andb_true_iff in H1 as [Hc Ht].
    apply Ascii.eqb_eq in Hc. apply negb_true_iff in Ht. subst c.
    split; [now rewrite (IHt Ht) | discriminate].
  - rewrite IHf. auto.
Qed.

Lemma normalize_normalised line : normalised (normalize_name_line line).
Proof.
  rewrite normalize_squeeze. repeat split.
  - apply squeeze_single_spaced.
  - apply squeeze_start, strip_not_start.
  - destruct (ends_with is_space (squeeze false (strip line))) eqn:E;
      [| reflexivity].
    apply squeeze_end in E. now rewrite strip_not_end in E.
Qed.

Lemma normalised_fixed s : normalised s -> normalize_name_line s = s.
Proof.
  intros (H1 & H2 & H3). rewrite normalize_squeeze.
  unfold strip. rewrite (strip_with_fixed _ _ H2 H3).
  now apply squeeze_fixed.
Qed.

(** X2: a normalised line has no whitespace at either end, and its only
    whitespace is single spaces; normalising is idempotent, and leaves
    every line of that form as it is. *)
Theorem normalize_name_line_normal (line : str) :
  normalised (normalize_name_line line)
  /\ normalize_name_line (normalize_name_line line) = normalize_name_line line
  /\ forall s, normalised s -> normalize_name_line s = s.
Proof.
  split; [apply normalize_normalised |].
  split; [apply normalised_fixed, normalize_normalised |].
  apply normalised_fixed.
Qed.

Lemma truthy_nonempty s : truthy (Some s) = true <-> s <> [].
Proof. destruct s; simpl; split; congruence. Qed.

Lemma read_lines_in raw l :
  In l (read_lines raw) -> l <> [] /\ normalised l.
Proof.
  unfold read_lines. intros H. apply in_map_iff in H as (x & <- & Hx).
  apply filter_In in Hx as [_ Hx].
  split; [now apply truthy_nonempty | apply normalize_normalised].
Qed.

Lemma read_lines_app a b : read_lines (a ++ b) = read_lines a ++ read_lines b.
Proof. unfold read_lines. now rewrite filter_app, map_app. Qed.

Lemma read_lines_one l : l <> [] -> normalised l -> read_lines [l] = [l].
Proof.
  intros Hne Hn. unfold read_lines. cbn [filter].
  rewrite (normalised_fixed l Hn).
  apply truthy_nonempty in Hne. rewrite Hne. cbn [map].
  now rewrite (normalised_fixed l Hn).
Qed.

Lemma read_lines_fixed lines :
  Forall (fun l => l <> [] /\ normalised l) lines -> read_lines lines = lines.
Proof.
  induction 1 as [|l t [Hne Hn] _ IH]; [reflexivity |].
  change (l :: t) with ([l] ++ t).
  now rewrite read_lines_app, IH, read_lines_one.
Qed.

Lemma lstrip_all p s : forallb p s = true -> lstrip p s = [].
Proof.
  induction s as [|c t IH]; simpl; [reflexivity |].
  intros H. apply andb_true_iff in H as [Hc Ht]. rewrite Hc. auto.
Qed.

Lemma normalize_blank x : forallb is_space x = true -> normalize_name_line x = [].
Proof.
  intros H. rewrite normalize_squeeze. unfold strip, strip_with.
  now rewrite (lstrip_all _ _ H).
Qed.

(** X3: every line that [_read_lines] returns is non-empty and
    normalised; a line of whitespace only is dropped, wherever it
    stands; and reading the lines read changes nothing. *)
Theorem read_lines_clean (raw : list str) :
  Forall (fun l => l <> [] /\ normalised l) (read_lines raw)
  /\ (forall a x b,
         raw = a ++ x :: b -> forallb is_space x = true ->
         read_lines raw = read_lines (a ++ b))
  /\ read_lines (read_lines raw) = read_lines raw.
Proof.
  assert (H : Forall (fun l => l <> [] /\ normalised l) (read_lines raw))
    by (apply Forall_forall; intros l; apply read_lines_in).
  split; [exact H |]. split; [| now apply read_lines_fixed].
  intros a x b -> Hx. rewrite !read_lines_app. f_equal.
  unfold read_lines. simpl. now rewrite (normalize_blank x Hx).
Qed.

(** ** [split_name] and the name pool *)

Lemma split_runs_concat cls s :
  forall cur in_run,
    (in_run = true -> cur = []) ->
    concat (split_runs cls cur in_run s)
    = rev cur ++ filter (fun c => negb (cls c)) s.
Proof.
  induction s as [|c t IH]; intros cur in_run Hrun; simpl.
  - now rewrite app_nil_r.
  - destruct (cls c) eqn:Ec; simpl.
    + destruct in_run.
      * rewrite (Hrun eq_refl). now rewrite IH.
      * simpl. now rewrite IH.
    + rewrite IH by discriminate. simpl. now rewrite <- app_assoc.
Qed.

Lemma split_runs_pieces cls s :
  forall cur in_run,
    Forall (fun c => cls c = false) cur ->
    Forall (Forall (fun c => cls c = false)) (split_runs cls cur in_run s).
Proof.
  induction s as [|c t IH]; intros cur in_run Hcur; simpl.
  - constructor; [| constructor]. now apply Forall_rev.
  - destruct (cls c) eqn:Ec.
    + destruct in_run; [now apply IH |].
      constructor; [now apply Forall_rev | now apply IH].
    + apply IH. now constructor.
Qed.

Lemma filter_lstrip (p : ascii -> bool) s :
  filter (fun c => negb (p c)) (lstrip p s) = filter (fun c => negb (p c)) s.
Proof.
  induction s as [|c t IH]; simpl; [reflexivity |].
  destruct (p c) eqn:Ec; simpl; [exact IH | now rewrite Ec].
Qed.

Lemma filter_strip_with (p : ascii -> bool) s :
  filter (fun c => negb (p c)) (strip_with p s)
  = filter (fun c => negb (p c)) s.
Proof.
  unfold strip_with, rstrip.
  rewrite filter_rev, filter_lstrip, filter_rev, rev_involutive.
  apply filter_lstrip.
Qed.

Lemma concat_nonempty (l : list str) :
  concat (filter (fun p => truthy (Some p)) l) = concat l.
Proof.
  induction l as [|p l IH]; [reflexivity |].
  cbn [filter]. destruct (truthy (Some p)) eqn:E.
  - cbn [concat]. now rewrite IH.
  - destruct p; [exact IH | discriminate].
Qed.

Lemma words_are_words full :
  Forall is_word (words full)
  /\ concat (words full) = filter (fun c => negb (is_space c)) full.
Proof.
  unfold words, re_split_class. split.
  - apply Forall_forall. intros p Hp. apply filter_In in Hp as [Hin Hne].
    split; [now apply truthy_nonempty |].
    pose proof (split_runs_pieces is_space (strip full) [] false (Forall_nil _))
      as H.
    rewrite Forall_forall in H. now apply H.
  - rewrite concat_nonempty, split_runs_concat by discriminate.
    simpl. apply filter_strip_with.
Qed.

Lemma last_default {A} (l : list A) d d' : l <> [] -> last l d = last l d'.
Proof.
  induction l as [|a l IH]; [congruence |]. intros _.
  destruct l as [|b l]; [reflexivity |]. simpl in IH |- *.
  apply IH. discriminate.
Qed.

Lemma split_name_words full :
  split_name full
  = match words full with
    | [] => (None, None)
    | first :: rest => (Some first, Some (last rest (lit "user")))
    end.
Proof.
  unfold split_name. fold (words full).
  destruct (words full) as [|p [|q rest]]; try reflexivity.
  f_equal. f_equal.
  change (last (p :: q :: rest) []) with (last (q :: rest) []).
  apply last_default. discriminate.
Qed.





Lemma pool_entry_words full :
  pool_entry full
  = match words full with
    | [] => []
    | first :: rest =>
        let first_s := slug first in
        let last_s := slug (last rest (lit "user")) in
        if truthy (Some first_s) && truthy (Some last_s)
        then [(full, first_s, last_s)]
        else []
    end.
Proof.
  unfold pool_entry. rewrite split_name_words.
  destruct (words_are_words full) as [Hw _].
  destruct (words full) as [|first rest]; [reflexivity |].
  inversion Hw as [|? ? [Hf _] Hrest]; subst.
  assert (Hl : last rest (lit "user") <> []).
  { destruct rest as [|q rest]; [discriminate |].
    destruct (@exists_last _ (q :: rest)) as (pre & z & E); [discriminate |].
    rewrite E, last_last. rewrite E in Hrest.
    apply Forall_app in Hrest as [_ Hz]. inversion Hz as [|? ? [Hz' _] _].
    exact Hz'. }
  apply truthy_nonempty in Hf, Hl. now rewrite Hf, Hl.
Qed.

(** X5: every entry of the name pool carries the line it was parsed
    from and two non-empty keys over [[a-z0-9]], the slugs of the first
    token and of the last of the other tokens (of ["user"] for a single
    token); a line is left out exactly when one of the two slugs is
    empty, and the entries come in the order of the lines. *)
Theorem name_pool_entries (names : list str) :
  Forall (fun e =>
            In (fst (fst e)) names
            /\ is_slug (snd (fst e)) /\ is_slug (snd e)
            /\ exists first rest,
                words (fst (fst e)) = first :: rest
                /\ snd (fst e) = slug first
                /\ snd e = slug (last rest (lit "user")))
         (build_name_pool names)
  /\ map (fun e => fst (fst e)) (build_name_pool names)
     = filter (fun n => negb (is_nil (pool_entry n))) names
  /\ forall n, In n names ->
               (pool_entry n = []
                <-> match words n with
                    | [] => True
                    | first :: rest =>
                        slug first = [] \/ slug (last rest (lit "user")) = []
                    end).
Proof.
  split; [| split].
  - apply Forall_forall. intros [[full f] l] He.
    unfold build_name_pool in He. apply in_flat_map in He as (n & Hn & He).
    rewrite pool_entry_words in He.
    destruct (words n) as [|first rest] eqn:Ew; [destruct He |].
    cbv zeta in He.
    destruct (truthy (Some (slug first))
              && truthy (Some (slug (last rest (lit "user"))))) eqn:Et;
      [| destruct He].
    destruct He as [He | []]. injection He as <- <- <-. cbn [fst snd].
    apply andb_true_iff in Et as [Ef El].
    apply truthy_nonempty in Ef, El.
    split; [exact Hn |].
    split; [split; [exact Ef | apply slug_is_clean_chars] |].
    split; [split; [exact El | apply slug_is_clean_chars] |].
    exists first, rest. auto.
  - unfold build_name_pool. induction names as [|n names IH]; [reflexivity |].
    cbn [flat_map filter]. rewrite map_app, IH. rewrite pool_entry_words.
    destruct (words n) as [|first rest]; [reflexivity |]. cbv zeta.
    destruct (slug first); [reflexivity |].
    destruct (slug (last rest (lit "user"))); reflexivity.
  - intros n _. rewrite pool_entry_words.
    destruct (words n) as [|first rest]; [tauto |]. cbv zeta.
    destruct (slug first) as [|a f]; [simpl; tauto |].
    destruct (slug (last rest (lit "user"))) as [|b l]; simpl.
    + split; [auto | reflexivity].
    + split; [discriminate | intros [H | H]; discriminate].
Qed.

(** * Further properties: candidates and the sanitizer *)

Lemma format_candidates first last n2 n3 :
  map (fun p => (p, py_format p (render_kwargs first last n2 n3))) PATTERNS
  = map (fun pt => (fst pt, Some (snd pt))) (candidates first last n2 n3).
Proof.
  transitivity
    (map (fun pt => (fst pt, Some (snd pt)))
       [ (lit "{first}.{last}", first ++ "." :: last ++ []);
         (lit "{first}{last}", first ++ last ++ []);
         (lit "{f}{last}", firstn 1 first ++ last ++ []);
         (lit "{first}{l}", first ++ firstn 1 last ++ []);
         (lit "{last}.{first}", last ++ "." :: first ++ []);
         (lit "{first}_{last}", first ++ "_" :: last ++ []);
         (lit "{first}-{last}", first ++ "-" :: last ++ []);
         (lit "{first}.{last}{n2}", first ++ "." :: last ++ n2 ++ []);
         (lit "{first}{last}{n3}", first ++ last ++ n3 ++ []) ]).
  - vm_compute. reflexivity.
  - unfold candidates. now rewrite !app_nil_r.
Qed.

Lemma format_in_candidates pattern first last n2 n3 :
  In pattern PATTERNS ->
  exists text,
    In (pattern, text) (candidates first last n2 n3)
    /\ py_format pattern (render_kwargs first last n2 n3) = Some text.
Proof.
  intros Hp.
  apply (in_map (fun p => (p, py_format p (render_kwargs first last n2 n3))))
    in Hp.
  rewrite format_candidates in Hp.
  apply in_map_iff in Hp as ([p t] & E & Hin). simpl in E.
  injection E as -> E. exists t. auto.
Qed.

(** X6: for each of the nine patterns the renderer returns the text of
    [candidates]: the two keys joined by the pattern's separator, with
    [f] and [l] the first characters of the keys, and with the two-digit
    or three-digit number appended where the pattern has [n2] or [n3];
    the numbers are the two it has just drawn. *)
Theorem render_pattern_text `{G : PyRandom} (pattern first last : str)
        (r : Random) :
  In pattern PATTERNS ->
  exists n2 n3 r2 text,
    (0 <= n2 <= 99)%Z /\ (0 <= n3 <= 999)%Z
    /\ drawn r2 = drawn r ++ [DrawInt 0 99 n2; DrawInt 0 999 n3]
    /\ In (pattern, text)
          (candidates first last (zero_pad 2 n2) (zero_pad 3 n3))
    /\ render_pattern pattern first last r = Returns (text, r2).
Proof.
  intros Hp.
  destruct (render_pattern_draws pattern first last r)
    as (n2 & n3 & g & B2 & B3 & E).
  destruct (format_in_candidates pattern first last (zero_pad 2 n2)
                                 (zero_pad 3 n3) Hp) as (text & Hin & Hfmt).
  rewrite Hfmt in E.
  exists n2, n3,
    {| gen := g; drawn := drawn r ++ [DrawInt 0 99 n2; DrawInt 0 999 n3] |},
    text.
  auto.
Qed.

Lemma render_pattern_text_witness :
  exists n2 n3 r2 text,
    (0 <= n2 <= 99)%Z /\ (0 <= n3 <= 999)%Z
    /\ drawn r2
       = drawn (rng_from_seed (G := lcg) 7%N (lit "s"))
         ++ [DrawInt 0 99 n2; DrawInt 0 999 n3]
    /\ In (lit "{f}{last}", text)
          (candidates (lit "max") (lit "example")
                      (zero_pad 2 n2) (zero_pad 3 n3))
    /\ render_pattern (lit "{f}{last}") (lit "max") (lit "example")
                      (rng_from_seed (G := lcg) 7%N (lit "s"))
       = Returns (text, r2).
Proof.
  apply (render_pattern_text (G := lcg) (lit "{f}{last}") (lit "max")
                             (lit "example")).
  right. right. left. reflexivity.
Defined.

(** ** The sanitizer on candidates *)

Lemma sep_run_free_slug s :
  Forall (fun c => slug_char c = true) s -> sep_run_free s = true.
Proof.
  induction 1 as [|c t Hc _ IH]; [reflexivity |].
  simpl. now rewrite (slug_char_not_separator c Hc), IH.
Qed.

Lemma sep_run_free_joined a c b :
  Forall (fun x => slug_char x = true) a ->
  Forall (fun x => slug_char x = true) b ->
  sep_run_free (a ++ c :: b) = true.
Proof.
  intros Ha Hb. induction Ha as [|x a Hx _ IH]; simpl.
  - rewrite (sep_run_free_slug b Hb), andb_true_r.
    destruct Hb as [|y b Hy _]; simpl; [now rewrite andb_false_r |].
    now rewrite (slug_char_not_separator y Hy), andb_false_r.
  - now rewrite (slug_char_not_separator x Hx), IH.
Qed.

Lemma ends_with_app p a b : b <> [] -> ends_with p (a ++ b) = ends_with p b.
Proof.
  intros Hb. induction a as [|x a IH]; [reflexivity |].
  simpl app. rewrite ends_with_cons, IH.
  destruct (a ++ b) eqn:E; [| reflexivity].
  apply app_eq_nil in E as [_ E]. contradiction.
Qed.

Lemma slug_not_separator s :
  Forall (fun c => slug_char c = true) s ->
  Forall (fun c => separator c = false) s.
Proof. intros H. eapply Forall_impl; [| exact H]. apply slug_char_not_separator. Qed.

Lemma slug_all_user s :
  Forall (fun c => slug_char c = true) s -> all_user s.
Proof. intros H. eapply Forall_impl; [| exact H]. apply slug_char_user. Qed.

(** A non-empty string over [[a-z0-9]] is left alone by the
    sanitizer. *)
Lemma sanitize_slug lower_on s :
  Forall (fun c => slug_char c = true) s -> sanitize lower_on s = s.
Proof.
  intros H. apply sanitize_fixed.
  - now apply slug_all_user.
  - now apply sep_run_free_slug.
  - now apply starts_with_none, slug_not_separator.
  - now apply ends_with_none, slug_not_separator.
Qed.

(** So are two of them joined by one separator. *)
Lemma sanitize_joined lower_on a c b :
  is_slug a -> is_slug b -> separator c = true ->
  sanitize lower_on (a ++ c :: b) = a ++ c :: b.
Proof.
  intros [Ha1 Ha2] [Hb1 Hb2] Hc. apply sanitize_fixed.
  - apply Forall_app. split; [now apply slug_all_user |].
    constructor; [now apply separator_user | now apply slug_all_user].
  - now apply sep_run_free_joined.
  - destruct a as [|x a]; [congruence |]. simpl.
    inversion Ha2; subst. now apply slug_char_not_separator.
  - rewrite ends_with_app by discriminate. rewrite ends_with_cons.
    destruct b; [congruence |]. simpl.
    now apply ends_with_none, slug_not_separator.
Qed.

Lemma is_slug_app a b :
  is_slug a -> Forall (fun c => slug_char c = true) b -> is_slug (a ++ b).
Proof.
  intros [Ha1 Ha2] Hb. split.
  - destruct a; [congruence | discriminate].
  - apply Forall_app. auto.
Qed.

Lemma is_slug_first a : is_slug a -> is_slug (firstn 1 a) /\ length (firstn 1 a) = 1%nat.
Proof.
  intros [Ha1 Ha2]. destruct a as [|x a]; [congruence |]. simpl.
  inversion Ha2; subst. repeat split; [discriminate | now repeat constructor].
Qed.

Lemma digits_slug d :
  forallb is_digit d = true -> Forall (fun c => slug_char c = true) d.
Proof.
  intros H. apply Forall_forall. intros c Hc.
  rewrite forallb_forall in H. specialize (H c Hc).
  unfold slug_char. now rewrite H, orb_true_r.
Qed.

Lemma is_slug_length a : is_slug a -> (1 <= length a)%nat.
Proof. intros [H _]. destruct a; [congruence | simpl; lia]. Qed.

(** The candidates of a pool entry: untouched by the sanitizer, and at
    least two characters long. *)
Lemma candidate_fixed lower_on first last n2 n3 pattern text :
  is_slug first -> is_slug last ->
  (0 <= n2 <= 99)%Z -> (0 <= n3 <= 999)%Z ->
  In (pattern, text) (candidates first last (zero_pad 2 n2) (zero_pad 3 n3)) ->
  sanitize lower_on text = text /\ (2 <= length text)%nat.
Proof.
  intros Hf Hl B2 B3 Hin.
  destruct (zero_pad_2 n2 B2) as [L2 D2]. destruct (zero_pad_3 n3 B3) as [L3 D3].
  apply digits_slug in D2, D3.
  destruct (is_slug_first first Hf) as [Hf1 Lf1].
  destruct (is_slug_first last Hl) as [Hl1 Ll1].
  pose proof (is_slug_length first Hf) as Lf.
  pose proof (is_slug_length last Hl) as Ll.
  assert (Sep : forall c, In c (lit "._-") -> separator c = true)
    by (intros c Hc; simpl in Hc; split_cases; subst c; reflexivity).
  unfold candidates in Hin.
  remember (firstn 1 first) as f1 eqn:Ef1. remember (firstn 1 last) as l1 eqn:El1.
  clear Ef1 El1. simpl in Hin.
  split_cases; injection Hin as _ <-; rewrite ?length_app; simpl length;
    (split; [| lia]).
  - apply sanitize_joined; auto.
  - apply sanitize_slug, is_slug_app; [assumption | apply Hl].
  - apply sanitize_slug, is_slug_app; [assumption | apply Hl].
  - apply sanitize_slug, is_slug_app; [assumption | apply Hl1].
  - apply sanitize_joined; auto.
  - apply sanitize_joined; auto.
  - apply sanitize_joined; auto.
  - apply sanitize_joined; auto. now apply is_slug_app.
  - rewrite app_assoc. apply sanitize_slug, is_slug_app; [| assumption].
    apply is_slug_app; [assumption | apply Hl].
Qed.

Lemma build_name_pool_slugs names display first_s last_s :
  In (display, first_s, last_s) (build_name_pool names) ->
  In display names /\ is_slug first_s /\ is_slug last_s.
Proof.
  intros He. unfold build_name_pool in He.
  apply in_flat_map in He as (n & Hn & He).
  rewrite pool_entry_words in He.
  destruct (words n) as [|w rest]; [destruct He |]. cbv zeta in He.
  destruct (truthy (Some (slug w))
            && truthy (Some (slug (last rest (lit "user"))))) eqn:Et;
    [| destruct He].
  destruct He as [He | []]. injection He as <- <- <-.
  apply andb_true_iff in Et as [Ef El]. apply truthy_nonempty in Ef, El.
  repeat split; auto; apply slug_is_clean_chars.
Qed.

Lemma rejected_length text :
  (2 <= length text)%nat -> (rejected text = true <-> length text = 2%nat).
Proof.
  unfold rejected. destruct text as [|a [|b [|c t]]]; simpl; intros H;
    split; intros E; try reflexivity; try discriminate; lia.
Qed.

(** What the loop does with a candidate of a validated batch. *)
Lemma batch_candidate app b display first last pattern n2 n3 raw lower_on :
  validate app = inr b ->
  In (display, first, last) (name_pool b) ->
  In pattern (enabled_patterns b) ->
  (0 <= n2 <= 99)%Z -> (0 <= n3 <= 999)%Z ->
  py_format pattern
    (render_kwargs first last (zero_pad 2 n2) (zero_pad 3 n3)) = Some raw ->
  is_slug first /\ is_slug last
  /\ In (pattern, raw)
        (candidates first last (zero_pad 2 n2) (zero_pad 3 n3))
  /\ sanitize lower_on raw = raw /\ (2 <= length raw)%nat.
Proof.
  intros Hv Hentry Hpat B2 B3 Hfmt.
  destruct (validate_batch app b Hv)
    as ((_ & _ & _ & _ & _ & Hincl) & _ & _ & _ & Hpool & _).
  rewrite Hpool in Hentry.
  apply build_name_pool_slugs in Hentry as (_ & Hf & Hl).
  destruct (format_in_candidates pattern first last (zero_pad 2 n2)
                                 (zero_pad 3 n3) (Hincl _ Hpat))
    as (text & Hin & Hfmt').
  assert (text = raw) by congruence. subst text.
  destruct (candidate_fixed lower_on first last n2 n3 pattern raw
                            Hf Hl B2 B3 Hin) as [Hfix Hlen].
  auto.
Qed.

(** X7: on every candidate that a validated batch can render (a pool
    entry, an enabled pattern, two numbers in range) the sanitizer
    changes nothing, with or without lowercasing; the candidate has at
    least two characters, and it is rejected exactly when it has two. *)
Theorem candidates_pass_unchanged (app : App) (b : batch)
        (display first last pattern : str) (n2 n3 : Z) (raw : str)
        (lower_on : bool) :
  validate app = inr b ->
  In (display, first, last) (name_pool b) ->
  In pattern (enabled_patterns b) ->
  (0 <= n2 <= 99)%Z -> (0 <= n3 <= 999)%Z ->
  py_format pattern
    (render_kwargs first last (zero_pad 2 n2) (zero_pad 3 n3)) = Some raw ->
  sanitize lower_on raw = raw
  /\ (2 <= length raw)%nat
  /\ (rejected (sanitize lower_on raw) = true <-> length raw = 2%nat).
Proof.
  intros Hv Hentry Hpat B2 B3 Hfmt.
  destruct (batch_candidate app b display first last pattern n2 n3 raw
                            lower_on Hv Hentry Hpat B2 B3 Hfmt)
    as (_ & _ & _ & Hfix & Hlen).
  rewrite Hfix. split; [reflexivity |]. split; [exact Hlen |].
  now apply rejected_length.
Qed.

Lemma candidates_pass_unchanged_witness :
  sanitize false (lit "max.example") = lit "max.example"
  /\ (2 <= length (lit "max.example"))%nat
  /\ (rejected (sanitize false (lit "max.example")) = true
      <-> length (lit "max.example") = 2%nat).
Proof.
  apply (candidates_pass_unchanged
           example_app
           {| count := 5;
              domains := read_lines (domains_text example_app);
              enabled_patterns :=
                map fst (filter (fun pv => snd pv) (pattern_vars example_app));
              name_pool := pool_of (names_text example_app);
              unique := true;
              lowercase := false |}
           (lit "Max Example") (lit "max") (lit "example")
           (lit "{first}.{last}") 7%Z 42%Z).
  - vm_compute. reflexivity.
  - vm_compute. left. reflexivity.
  - vm_compute. left. reflexivity.
  - lia.
  - lia.
  - vm_compute. reflexivity.
Defined.

(** ** The lowercase flag *)

Section FlagFacts.

Context {G : PyRandom}.

Lemma while_loop_ext {S} cond (body1 body2 : S -> M S) fuel :
  (forall st r, body1 st r = body2 st r) ->
  forall st r,
    while_loop fuel cond body1 st r = while_loop fuel cond body2 st r.
Proof.
  intros Hb. induction fuel as [|fuel IH]; intros st r; simpl;
    [reflexivity |].
  destruct (cond st); [| reflexivity]. rewrite Hb.
  destruct (body2 st r) as [[st1 r1]| |]; auto.
Qed.

Lemma attempt_any_flag app b flag st r :
  validate app = inr b ->
  attempt (set_lowercase b flag) st r = attempt b st r.
Proof.
  intros Hv. unfold attempt, bind. simpl.
  destruct (choice (name_pool b) r) as [[[[display first] last] r1]| |] eqn:E1;
    try reflexivity.
  apply choice_in in E1.
  destruct (choice (enabled_patterns b) r1) as [[pattern r2]| |] eqn:E2;
    try reflexivity.
  apply choice_in in E2.
  destruct (render_pattern pattern first last r2) as [[raw r3]| |] eqn:E3;
    try reflexivity.
  apply render_pattern_returns in E3 as (n2 & n3 & B2 & B3 & Hfmt).
  destruct (batch_candidate app b display first last pattern n2 n3 raw flag
                            Hv E1 E2 B2 B3 Hfmt) as (_ & _ & _ & F1 & _).
  destruct (batch_candidate app b display first last pattern n2 n3 raw
                            (lowercase b) Hv E1 E2 B2 B3 Hfmt)
    as (_ & _ & _ & F2 & _).
  rewrite F1, F2. reflexivity.
Qed.

Lemma validate_with_lower app flag :
  validate (with_lower app flag)
  = match validate app with
    | inl err => inl err
    | inr b => inr (set_lowercase b flag)
    end.
Proof.
  unfold validate, with_lower, set_lowercase, pattern_vars. simpl.
  repeat match goal with
         | |- context [match ?x with _ => _ end] => destruct x
         end; reflexivity.
Qed.

(** X8: the lowercase flag has no effect on what [generate_emails]
    produces: with the flag set either way the action returns the rows,
    the output text and the dialogs (errors and warning included) that
    it returns with the flag as it is. *)
Theorem lowercase_flag_is_idle (ambient : Rng) (app : App) (flag : bool) :
  visible (generate_emails ambient (with_lower app flag))
  = visible (generate_emails ambient app).
Proof.
  unfold generate_emails. rewrite validate_with_lower.
  destruct (validate app) as [err | b] eqn:Hv; [reflexivity |].
  cbv zeta.
  change (email_seed_var (with_lower app flag)) with (email_seed_var app).
  change (max_tries (set_lowercase b flag)) with (max_tries b).
  unfold email_loop.
  change (loop_cond (set_lowercase b flag)) with (loop_cond b).
  rewrite (while_loop_ext (loop_cond b) (attempt (set_lowercase b flag))
                          (attempt b)).
  - destruct (while_loop _ _ _ _ _) as [[st r']| |]; reflexivity.
  - intros st r. now apply (attempt_any_flag app).
Qed.

End FlagFacts.


(** ** Names with keys of two characters or more *)

Lemma candidate_long first last n2 n3 pattern text :
  is_slug first -> is_slug last ->
  (2 <= length first)%nat -> (2 <= length last)%nat ->
  In (pattern, text) (candidates first last n2 n3) ->
  (3 <= length text)%nat.
Proof.
  intros Hf Hl Lf Ll Hin.
  destruct (is_slug_first first Hf) as [_ Lf1].
  destruct (is_slug_first last Hl) as [_ Ll1].
  unfold candidates in Hin.
  remember (firstn 1 first) as f1 eqn:Ef1. remember (firstn 1 last) as l1 eqn:El1.
  clear Ef1 El1. simpl in Hin.
  split_cases; injection Hin as _ <-; rewrite ?length_app; simpl length;
    rewrite ?length_app; lia.
Qed.

Lemma long_keys_never_rejected (app : App) (b : batch) :
  validate app = inr b ->
  (forall display first last,
      In (display, first, last) (name_pool b) ->
      (2 <= length first)%nat /\ (2 <= length last)%nat) ->
  never_rejected b.
Proof.
  intros Hv Hlong display first last pattern n2 n3 raw Hentry Hpat B2 B3 Hfmt.
  destruct (batch_candidate app b display first last pattern n2 n3 raw
                            (lowercase b) Hv Hentry Hpat B2 B3 Hfmt)
    as (Hf & Hl & Hin & Hfix & _).
  destruct (Hlong _ _ _ Hentry) as [Lf Ll].
  pose proof (candidate_long _ _ _ _ _ _ Hf Hl Lf Ll Hin) as L3.
  rewrite Hfix. unfold rejected.
  destruct raw as [|x [|y [|z raw]]]; simpl in L3 |- *; try lia.
  reflexivity.
Qed.

Lemma never_rejected_exact `{G : PyRandom} (ambient : Rng) (app : App)
      (b : batch) :
  validate app = inr b ->
  unique_var app = false ->
  never_rejected b ->
  exists app',
    generate_emails ambient app = Returns (app', [])
    /\ Z.of_nat (length (last_rows app')) = count b.
Proof.
  intros Hv Hnu Hnever.
  destruct (validate_batch app b Hv) as (Hwf & _ & _ & _ & _ & Hu & _).
  destruct (generate_emails_runs ambient app b Hv)
    as (st & r' & _ & Hgen & Hinv & Hcond & Hpasses).
  destruct Hinv as (Hres & _ & _ & _ & Hlen & Htries).
  rewrite <- Hu in Hnu.
  pose proof (passes_append b _ Hnu Hnever _ _ _ _ Hpasses) as Hn.
  simpl in Hn.
  unfold loop_cond, max_tries in Hcond. rewrite Hnu in Hcond.
  assert (Heq : Z.of_nat (length (results st)) = count b).
  { apply andb_false_iff in Hcond as [C | C]; apply Z.ltb_ge in C; lia. }
  exists (fst (publish app b st)). split.
  - rewrite Hgen. unfold publish. simpl.
    destruct (Z.ltb_spec (Z.of_nat (length (results st))) (count b));
      [lia | reflexivity].
  - simpl. rewrite <- Heq, Hres. now rewrite length_map.
Qed.

(** X9: when every entry of the name pool has keys of two characters or
    more, no candidate is rejected, so a batch without the unique flag
    returns exactly the requested number of rows, and no warning. *)
Theorem long_keys_fill_the_batch `{G : PyRandom} (ambient : Rng) (app : App)
        (b : batch) :
  validate app = inr b ->
  unique_var app = false ->
  (forall display first last,
      In (display, first, last) (name_pool b) ->
      (2 <= length first)%nat /\ (2 <= length last)%nat) ->
  never_rejected b
  /\ exists app',
      generate_emails ambient app = Returns (app', [])
      /\ Z.of_nat (length (last_rows app')) = count b.
Proof.
  intros Hv Hnu Hlong.
  pose proof (long_keys_never_rejected app b Hv Hlong) as Hnever.
  split; [exact Hnever |].
  now apply never_rejected_exact.
Qed.

Lemma long_keys_fill_the_batch_witness :
  exists app',
    generate_emails (G := lcg) 7%N (small_app five_names "5" false)
    = Returns (app', [])
    /\ length (last_rows app') = 5%nat.
Proof.
  destruct (long_keys_fill_the_batch
              (G := lcg) 7%N (small_app five_names "5" false)
              {| count := 5;
                 domains := map lit ["example.org"; "example.net"]%string;
                 enabled_patterns := [lit "{first}{last}"];
                 name_pool := pool_of five_names;
                 unique := false;
                 lowercase := true |})
    as (_ & app' & Hgen & Hlen).
  - vm_compute. reflexivity.
  - reflexivity.
  - intros display first last Hin. vm_compute in Hin.
    split_cases; injection Hin as _ <- <-; simpl; lia.
  - exists app'. split; [exact Hgen |]. simpl in Hlen. lia.
Defined.

(** * Further properties: the names widget *)

(** ** Lines of a widget *)

Lemma linebreak_is_space c : is_linebreak c = true -> is_space c = true.
Proof.
  intros H.
  assert (E : implb (is_linebreak c) (is_space c) = true) by (by_chars c).
  now rewrite H in E.
Qed.

Lemma lf_is_linebreak c : is_lf c = true -> is_linebreak c = true.
Proof.
  intros H.
  assert (E : implb (is_lf c) (is_linebreak c) = true) by (by_chars c).
  now rewrite H in E.
Qed.

Lemma splitlines_break x : forall cur after_cr y,
  (after_cr = true -> cur = []) ->
  splitlines_from cur after_cr (x ++ newline :: y)
  = splitlines_from cur after_cr (x ++ [newline]) ++ splitlines y.
Proof.
  induction x as [|c x IH]; intros cur after_cr y Hcr.
  - simpl. change (is_lf newline) with true. change (is_linebreak newline) with true.
    change (is_cr newline) with false. simpl.
    destruct after_cr.
    + rewrite (Hcr eq_refl). reflexivity.
    + reflexivity.
  - simpl. destruct (is_lf c && after_cr).
    + apply IH. discriminate.
    + destruct (is_linebreak c).
      * rewrite IH by reflexivity. reflexivity.
      * apply IH. discriminate.
Qed.

Lemma splitlines_plain x : forall cur rest,
  Forall (fun c => is_linebreak c = false) x ->
  splitlines_from cur false (x ++ rest)
  = splitlines_from (rev x ++ cur) false rest.
Proof.
  induction x as [|c x IH]; intros cur rest H; [reflexivity |].
  inversion H as [|? ? Hc Hx]; subst. simpl.
  rewrite andb_false_r, Hc, IH by assumption.
  now rewrite <- app_assoc.
Qed.

Lemma widget_lines_line n :
  Forall (fun c => is_linebreak c = false) n -> widget_lines n = [n].
Proof.
  intros H. unfold widget_lines, text_get, splitlines.
  rewrite splitlines_plain by assumption. simpl.
  change (is_lf newline) with true. change (is_linebreak newline) with true.
  simpl. now rewrite app_nil_r, rev_involutive.
Qed.

Lemma widget_lines_append content text :
  widget_lines (content ++ newline :: text)
  = widget_lines content ++ widget_lines text.
Proof.
  unfold widget_lines, text_get, splitlines.
  change ((content ++ newline :: text) ++ [newline])
    with ((content ++ newline :: text) ++ [newline]).
  rewrite <- app_assoc. simpl app.
  now rewrite splitlines_break by discriminate.
Qed.

Lemma normalize_snoc_space s w :
  is_space w = true -> normalize_name_line (s ++ [w]) = normalize_name_line s.
Proof.
  intros Hw. rewrite !normalize_squeeze. f_equal.
  unfold strip, strip_with. rewrite lstrip_snoc, Hw.
  destruct (lstrip is_space s) as [|a l] eqn:E; [reflexivity |].
  simpl is_nil. cbv iota. unfold rstrip. rewrite rev_app_distr. simpl.
  now rewrite Hw.
Qed.

Lemma read_lines_blank_tail W : forall cur after_cr,
  Forall (fun c => is_space c = true) W ->
  (after_cr = true -> cur = []) ->
  read_lines (splitlines_from cur after_cr (W ++ [newline]))
  = read_lines [rev cur].
Proof.
  induction W as [|w W IH]; intros cur after_cr HW Hcr.
  - simpl. change (is_lf newline) with true.
    change (is_linebreak newline) with true. simpl.
    destruct after_cr; [| reflexivity].
    rewrite (Hcr eq_refl). reflexivity.
  - inversion HW as [|? ? Hw HW']; subst. simpl.
    destruct (is_lf w && after_cr) eqn:E1.
    + apply andb_true_iff in E1 as [_ E1]. rewrite (Hcr E1).
      rewrite IH by (auto; discriminate). reflexivity.
    + destruct (is_linebreak w) eqn:E2.
      * change (rev cur :: splitlines_from [] (is_cr w) (W ++ [newline]))
          with ([rev cur] ++ splitlines_from [] (is_cr w) (W ++ [newline])).
        rewrite read_lines_app, IH by auto.
        change (read_lines [rev []]) with (@nil str). now rewrite app_nil_r.
      * rewrite IH by (auto; discriminate). simpl rev.
        unfold read_lines. cbn [filter].
        rewrite (normalize_snoc_space _ _ Hw).
        destruct (truthy (Some (normalize_name_line (rev cur))));
          [| reflexivity].
        cbn [map]. now rewrite (normalize_snoc_space _ _ Hw).
Qed.

Lemma strip_nil_blank s : strip s = [] -> Forall (fun c => is_space c = true) s.
Proof.
  intros H. pose proof (filter_strip_with is_space s) as E.
  unfold strip in H. rewrite H in E. simpl in E. symmetry in E.
  apply filter_nil_forall in E. eapply Forall_impl; [| exact E].
  intros c Hc. simpl in Hc. now apply negb_false_iff in Hc.
Qed.

Lemma blank_content content :
  truthy (Some (strip (text_get content))) = false ->
  Forall (fun c => is_space c = true) content.
Proof.
  intros H. destruct (strip (text_get content)) eqn:E; [| discriminate].
  apply strip_nil_blank in E. unfold text_get in E.
  now apply Forall_app in E.
Qed.

(** Lines put in front of whitespace. *)
Lemma read_lines_before_blank names W :
  names <> [] ->
  Forall (Forall (fun c => is_linebreak c = false)) names ->
  Forall (fun c => is_space c = true) W ->
  read_lines (widget_lines (join [newline] names ++ W)) = read_lines names.
Proof.
  intros Hne Hnames HW.
  induction names as [|n names IH]; [congruence |].
  inversion Hnames as [|? ? Hn Hrest]; subst.
  destruct names as [|m names].
  - simpl. unfold widget_lines, text_get, splitlines.
    rewrite <- app_assoc, splitlines_plain by assumption.
    rewrite read_lines_blank_tail by (auto; discriminate).
    now rewrite app_nil_r, rev_involutive.
  - change (join [newline] (n :: m :: names))
      with (n ++ newline :: join [newline] (m :: names)).
    set (J := join [newline] (m :: names)) in *.
    rewrite <- app_assoc. change ((newline :: J) ++ W) with (newline :: J ++ W).
    rewrite widget_lines_append, read_lines_app, IH by (auto; discriminate).
    rewrite (widget_lines_line n Hn).
    change (n :: m :: names) with ([n] ++ m :: names).
    now rewrite read_lines_app.
Qed.

(** What [_read_lines] finds in the widget after lines were inserted:
    the lines it found before, and the new ones after them. *)
Lemma read_lines_insert content names :
  names <> [] ->
  Forall (Forall (fun c => is_linebreak c = false)) names ->
  read_lines (widget_lines
                (insert_text content [newline] (join [newline] names)))
  = read_lines (widget_lines content) ++ read_lines names.
Proof.
  intros Hne Hnames. unfold insert_text.
  destruct (truthy (Some (strip (text_get content)))) eqn:E.
  - simpl app. rewrite widget_lines_append, read_lines_app. f_equal.
    pose proof (read_lines_before_blank names [] Hne Hnames (Forall_nil _))
      as H.
    now rewrite app_nil_r in H.
  - apply blank_content in E.
    rewrite (read_lines_before_blank names content Hne Hnames E).
    unfold widget_lines, text_get, splitlines.
    now rewrite read_lines_blank_tail by (auto; discriminate).
Qed.

Lemma normalised_no_linebreak s :
  normalised s -> Forall (fun c => is_linebreak c = false) s.
Proof.
  intros (H & _ & _). induction s as [|c t IH]; [constructor |].
  simpl in H. apply andb_true_iff in H as [Hc Ht].
  constructor; [| now apply IH].
  destruct (is_linebreak c) eqn:E; [| reflexivity].
  rewrite (linebreak_is_space c E) in Hc.
  apply andb_true_iff in Hc as [Hc _]. apply Ascii.eqb_eq in Hc.
  subst c. discriminate.
Qed.

(** ** [fictional_name] *)

Lemma first_names_shape :
  forallb (fun s => capitalised s && (2 <=? length s)%nat
                    && (length s <=? 4)%nat) first_names = true.
Proof. vm_compute. reflexivity. Qed.

Lemma last_names_shape :
  forallb (fun s => capitalised s && (5 <=? length s)%nat
                    && (length s <=? 9)%nat) last_names = true.
Proof. vm_compute. reflexivity. Qed.

Lemma first_name_facts s :
  In s first_names ->
  capitalised s = true /\ (2 <= length s <= 4)%nat.
Proof.
  intros H. pose proof first_names_shape as E.
  rewrite forallb_forall in E. specialize (E s H).
  apply andb_true_iff in E as [E E3]. apply andb_true_iff in E as [E1 E2].
  apply Nat.leb_le in E2, E3. auto.
Qed.

Lemma last_name_facts s :
  In s last_names ->
  capitalised s = true /\ (5 <= length s <= 9)%nat.
Proof.
  intros H. pose proof last_names_shape as E.
  rewrite forallb_forall in E. specialize (E s H).
  apply andb_true_iff in E as [E E3]. apply andb_true_iff in E as [E1 E2].
  apply Nat.leb_le in E2, E3. auto.
Qed.

Lemma capitalised_alpha s :
  capitalised s = true -> s <> [] /\ Forall (fun c => is_alpha c = true) s.
Proof.
  destruct s as [|c t]; [discriminate |]. simpl. intros H.
  apply andb_true_iff in H as [Hc Ht]. split; [discriminate |].
  constructor; [unfold is_alpha; now rewrite Hc, orb_true_r |].
  apply Forall_forall. intros x Hx. rewrite forallb_forall in Ht.
  unfold is_alpha. now rewrite (Ht x Hx).
Qed.

Lemma keep_alpha s default :
  capitalised s = true ->
  or_else (re_sub_class (fun x => negb (is_alpha x)) 1 [] s) default = s.
Proof.
  intros H. apply capitalised_alpha in H as [Hne Ha].
  rewrite re_sub_delete, (filter_fixed _ _ Ha). unfold or_else.
  apply truthy_nonempty in Hne. now rewrite Hne.
Qed.

Lemma in_first_names a b :
  In a FIRST_SYLLABLES -> In b MIDDLE_SYLLABLES ->
  In (capitalize (a ++ b)) first_names.
Proof.
  intros Ha Hb. unfold first_names. apply in_flat_map. exists a.
  split; [assumption |]. now apply (in_map (fun b => capitalize (a ++ b))).
Qed.

Lemma in_last_names c d e :
  In c FIRST_SYLLABLES -> In d MIDDLE_SYLLABLES -> In e LAST_SYLLABLES ->
  In (capitalize (c ++ d ++ e)) last_names.
Proof.
  intros Hc Hd He. unfold last_names. apply in_flat_map. exists c.
  split; [assumption |]. apply in_flat_map. exists d.
  split; [assumption |].
  now apply (in_map (fun e => capitalize (c ++ d ++ e))).
Qed.

Section NameFacts.

Context {G : PyRandom}.

Lemma choice_draw {A} (seq : list A) r :
  seq <> [] ->
  exists i x r',
    In x seq /\ choice seq r = Returns (x, r')
    /\ drawn r' = drawn r ++ [DrawChoice (length seq) i].
Proof.
  intros Hne.
  destruct (choice_returns seq r Hne) as (i & x & g & _ & Hx & E).
  exists i, x, {| gen := g; drawn := drawn r ++ [DrawChoice (length seq) i] |}.
  split; [eapply nth_error_In; eassumption | auto].
Qed.

Lemma fictional_name_returns r :
  exists name r' i1 i2 i3 i4 i5,
    fictional_name r = Returns (name, r')
    /\ fictional name
    /\ drawn r' = drawn r ++ [DrawChoice 26 i1; DrawChoice 12 i2;
                              DrawChoice 26 i3; DrawChoice 12 i4;
                              DrawChoice 13 i5].
Proof.
  destruct (choice_draw FIRST_SYLLABLES r) as (i1 & a & r1 & Ha & E1 & D1);
    [discriminate |].
  destruct (choice_draw MIDDLE_SYLLABLES r1) as (i2 & b & r2 & Hb & E2 & D2);
    [discriminate |].
  destruct (choice_draw FIRST_SYLLABLES r2) as (i3 & c & r3 & Hc & E3 & D3);
    [discriminate |].
  destruct (choice_draw MIDDLE_SYLLABLES r3) as (i4 & d & r4 & Hd & E4 & D4);
    [discriminate |].
  destruct (choice_draw LAST_SYLLABLES r4) as (i5 & e & r5 & He & E5 & D5);
    [discriminate |].
  pose proof (in_first_names a b Ha Hb) as HF.
  pose proof (in_last_names c d e Hc Hd He) as HL.
  exists (capitalize (a ++ b) ++ lit " " ++ capitalize (c ++ d ++ e)),
    r5, i1, i2, i3, i4, i5.
  split; [| split].
  - unfold fictional_name, bind. rewrite E1, E2, E3, E4, E5. unfold ret.
    rewrite (keep_alpha _ _ (proj1 (first_name_facts _ HF))).
    rewrite (keep_alpha _ _ (proj1 (last_name_facts _ HL))).
    reflexivity.
  - now exists (capitalize (a ++ b)), (capitalize (c ++ d ++ e)).
  - rewrite D5, D4, D3, D2, D1. rewrite <- !app_assoc. reflexivity.
Qed.

Lemma repeat_fictional n : forall r,
  exists names r',
    repeat_m n fictional_name r = Returns (names, r')
    /\ length names = n /\ Forall fictional names
    /\ length (drawn r') = (length (drawn r) + 5 * n)%nat.
Proof.
  induction n as [|n IH]; intros r.
  - exists [], r. simpl. repeat split; auto; lia.
  - destruct (fictional_name_returns r)
      as (name & r1 & i1 & i2 & i3 & i4 & i5 & E & Hf & D).
    destruct (IH r1) as (names & r' & E' & Hlen & Hall & D').
    exists (name :: names), r'. split; [| split; [| split]].
    + simpl. unfold bind. rewrite E, E'. reflexivity.
    + simpl. now rewrite Hlen.
    + now constructor.
    + rewrite D', D, length_app. simpl. lia.
Qed.

End NameFacts.

(** X10: every call of [fictional_name] makes five picks on the random
    source, from the 26 first syllables, the 12 middle ones, the 26
    first ones, the 12 middle ones and the 13 last ones, in that order,
    and returns a first name and a last name put together from them and
    joined by one space, each a capital letter followed by small
    letters, 2 to 4 and 5 to 9 of them; so the removal of non-letters
    removes nothing, and the fallbacks ["Alex"] and ["River"] are never
    used. *)
Theorem fictional_name_picks `{G : PyRandom} (r : Random) :
  exists name r' i1 i2 i3 i4 i5 first last,
    fictional_name r = Returns (name, r')
    /\ drawn r' = drawn r ++ [DrawChoice 26 i1; DrawChoice 12 i2;
                              DrawChoice 26 i3; DrawChoice 12 i4;
                              DrawChoice 13 i5]
    /\ name = first ++ lit " " ++ last
    /\ In first first_names /\ In last last_names
    /\ capitalised first = true /\ capitalised last = true
    /\ (2 <= length first <= 4)%nat /\ (5 <= length last <= 9)%nat.
Proof.
  destruct (fictional_name_returns r)
    as (name & r' & i1 & i2 & i3 & i4 & i5 & E & (first & last & Hf & Hl & Hn)
        & D).
  destruct (first_name_facts _ Hf) as [Cf Lf].
  destruct (last_name_facts _ Hl) as [Cl Ll].
  exists name, r', i1, i2, i3, i4, i5, first, last.
  repeat split; try assumption; lia.
Qed.

(** ** Synthesized names in the name pool *)

Lemma alpha_not_space c : is_alpha c = true -> is_space c = false.
Proof.
  intros H.
  assert (E : implb (is_alpha c) (negb (is_space c)) = true) by (by_chars c).
  rewrite H in E. simpl in E. now apply negb_true_iff in E.
Qed.

Lemma alpha_lower_slug c : is_alpha c = true -> slug_char (lower_char c) = true.
Proof.
  intros H.
  assert (E : implb (is_alpha c) (slug_char (lower_char c)) = true)
    by (by_chars c).
  now rewrite H in E.
Qed.

Lemma split_runs_plain cls x : forall cur rest,
  Forall (fun c => cls c = false) x ->
  split_runs cls cur false (x ++ rest)
  = split_runs cls (rev x ++ cur) false rest.
Proof.
  induction x as [|c x IH]; intros cur rest H; [reflexivity |].
  inversion H as [|? ? Hc Hx]; subst. simpl.
  rewrite Hc, IH by assumption. now rewrite <- app_assoc.
Qed.

Lemma single_spaced_plain x :
  Forall (fun c => is_space c = false) x -> single_spaced x = true.
Proof.
  induction 1 as [|c t Hc _ IH]; [reflexivity |]. simpl. now rewrite Hc, IH.
Qed.

(** Two words with one space between them. *)
Lemma two_words a b :
  is_word a -> is_word b ->
  normalised (a ++ lit " " ++ b) /\ words (a ++ lit " " ++ b) = [a; b].
Proof.
  intros [Ha1 Ha2] [Hb1 Hb2]. simpl app.
  assert (Hs : starts_with is_space (a ++ " " :: b) = false).
  { destruct a as [|x a]; [congruence |]. simpl. now inversion Ha2. }
  assert (He : ends_with is_space (a ++ " " :: b) = false).
  { rewrite ends_with_app by discriminate. rewrite ends_with_cons.
    destruct b; [congruence |]. simpl. now apply ends_with_none. }
  split.
  - repeat split; try assumption.
    clear Hs He Ha1. induction Ha2 as [|x a Hx _ IH]; simpl.
    + rewrite (single_spaced_plain b Hb2), andb_true_r.
      destruct b as [|y b]; [congruence |]. simpl.
      inversion Hb2; subst. now rewrite H1.
    + now rewrite Hx, IH.
  - unfold words, strip. rewrite (strip_with_fixed _ _ Hs He).
    unfold re_split_class. rewrite split_runs_plain by assumption.
    rewrite app_nil_r. simpl. rewrite rev_involutive.
    destruct b as [|y b]; [congruence |].
    inversion Hb2 as [|? ? Hy Hb]; subst. simpl. rewrite Hy.
    pose proof (split_runs_plain is_space b [y] [] Hb) as E.
    rewrite app_nil_r in E. rewrite E. simpl.
    rewrite rev_app_distr, rev_involutive. simpl.
    destruct a; [congruence | reflexivity].
Qed.

Lemma alpha_word s :
  s <> [] -> Forall (fun c => is_alpha c = true) s -> is_word s.
Proof.
  intros Hne H. split; [assumption |].
  eapply Forall_impl; [| exact H]. apply alpha_not_space.
Qed.

Lemma slug_alpha s :
  Forall (fun c => is_alpha c = true) s -> slug s = lower s.
Proof.
  intros H. rewrite slug_filter.
  assert (Hsp : Forall (fun c => is_space c = false) s)
    by (eapply Forall_impl; [| exact H]; apply alpha_not_space).
  unfold strip. rewrite strip_with_fixed;
    [| now apply starts_with_none | now apply ends_with_none].
  apply filter_fixed. unfold lower. apply Forall_map.
  eapply Forall_impl; [| exact H]. apply alpha_lower_slug.
Qed.

Lemma fictional_entry name :
  fictional name ->
  exists fn ln,
    name = fn ++ lit " " ++ ln
    /\ (2 <= length fn <= 4)%nat /\ (5 <= length ln <= 9)%nat
    /\ normalised name
    /\ words name = [fn; ln]
    /\ pool_entry name = [(name, lower fn, lower ln)]
    /\ (2 <= length (filter is_alpha name))%nat.
Proof.
  intros (fn & ln & Hf & Hl & ->).
  destruct (first_name_facts _ Hf) as [Cf Lf].
  destruct (last_name_facts _ Hl) as [Cl Ll].
  destruct (capitalised_alpha _ Cf) as [Nf Af].
  destruct (capitalised_alpha _ Cl) as [Nl Al].
  destruct (two_words fn ln (alpha_word _ Nf Af) (alpha_word _ Nl Al))
    as [Hnorm Hwords].
  exists fn, ln. split; [reflexivity |].
  split; [exact Lf |]. split; [exact Ll |]. split; [exact Hnorm |].
  split; [exact Hwords |]. split.
  - rewrite pool_entry_words, Hwords. cbv zeta. simpl last.
    rewrite (slug_alpha _ Af), (slug_alpha _ Al).
    destruct fn as [|x fn]; [congruence |].
    destruct ln as [|y ln]; [congruence |]. reflexivity.
  - rewrite filter_app, length_app, (filter_fixed _ _ Af). lia.
Qed.

(** X11: a name that [fictional_name] can return goes through the rest
    of the program as it is: it is a normalised line, which
    [_read_lines] returns unchanged; it has the two letters that
    [add_name] asks for; and [split_name] and the name pool take it
    apart into its first name, of 2 to 4 letters, and its last name, of
    5 to 9, the keys of its pool entry being the two in lowercase. *)
Theorem fictional_names_are_usable (name : str) :
  fictional name ->
  normalised name
  /\ read_lines [name] = [name]
  /\ (2 <= length (filter is_alpha name))%nat
  /\ exists first last,
      name = first ++ lit " " ++ last
      /\ (2 <= length first <= 4)%nat /\ (5 <= length last <= 9)%nat
      /\ split_name name = (Some first, Some last)
      /\ pool_entry name = [(name, lower first, lower last)].
Proof.
  intros H.
  destruct (fictional_entry name H)
    as (first & last & E & Lf & Ll & Hn & Hw & Hp & Ha).
  split; [exact Hn |]. split.
  { apply read_lines_one; [| exact Hn].
    rewrite E. destruct first; [simpl in Lf; lia | discriminate]. }
  split; [exact Ha |].
  exists first, last. repeat split; try assumption; try lia.
  rewrite split_name_words, Hw. reflexivity.
Qed.

Lemma fictional_names_are_usable_witness :
  normalised (lit "Alla Kavimar")
  /\ read_lines [lit "Alla Kavimar"] = [lit "Alla Kavimar"]
  /\ (2 <= length (filter is_alpha (lit "Alla Kavimar")))%nat
  /\ exists first last,
      lit "Alla Kavimar" = first ++ lit " " ++ last
      /\ (2 <= length first <= 4)%nat /\ (5 <= length last <= 9)%nat
      /\ split_name (lit "Alla Kavimar") = (Some first, Some last)
      /\ pool_entry (lit "Alla Kavimar")
         = [(lit "Alla Kavimar", lower first, lower last)].
Proof.
  apply (fictional_names_are_usable (lit "Alla Kavimar")).
  exists (capitalize (lit "al" ++ lit "la")),
    (capitalize (lit "ka" ++ lit "vi" ++ lit "mar")).
  split; [| split; [| reflexivity]].
  - apply in_first_names; vm_compute; pick_member.
  - apply in_last_names; vm_compute; pick_member.
Defined.

(** ** [generate_names], [add_name] and [dedup_names] *)

Lemma fictional_line name :
  fictional name ->
  (name <> [] /\ normalised name)
  /\ Forall (fun c => is_linebreak c = false) name.
Proof.
  intros H.
  destruct (fictional_entry name H) as (fn & ln & E & Lf & _ & Hn & _).
  split; [| now apply normalised_no_linebreak].
  split; [| exact Hn].
  rewrite E. destruct fn; [simpl in Lf; lia | discriminate].
Qed.

Lemma fictional_lines names :
  Forall fictional names ->
  read_lines names = names
  /\ Forall (Forall (fun c => is_linebreak c = false)) names.
Proof.
  intros H. split.
  - apply read_lines_fixed. eapply Forall_impl; [| exact H].
    intros n Hn. now apply fictional_line.
  - eapply Forall_impl; [| exact H]. intros n Hn. now apply fictional_line.
Qed.

(** X12: with a count between 1 and 200000, [generate_names] returns
    without a dialog, having synthesized that many names and put them in
    the widget: in Replace mode the lines that [_read_lines] then finds
    are the new names, in Append mode the lines it found before
    followed by the new names, whether the widget held names or only
    whitespace.  Nothing else of the state changes. *)
Theorem generate_names_fills_widget `{G : PyRandom} (ambient : Rng)
        (ui : NamesUI) (n : Z) :
  read_count (gen_names_count_var ui) = Some n ->
  exists names content,
    generate_names ambient ui = Returns (set_names ui content, [])
    /\ Z.of_nat (length names) = n
    /\ Forall fictional names
    /\ read_lines (widget_lines content)
       = (if str_eqb (gen_mode_var ui) (lit "replace") then []
          else read_lines (widget_lines (names_content ui)))
         ++ names.
Proof.
  intros Hc. pose proof (read_count_range _ _ Hc) as Hn.
  destruct (repeat_fictional (Z.to_nat n)
                             (rng_from_seed ambient (name_seed_var ui)))
    as (names & r' & Hrun & Hlen & Hall & _).
  destruct (fictional_lines names Hall) as [Hread Hbreak].
  assert (Hne : names <> []) by (destruct names; [simpl in Hlen; lia | discriminate]).
  exists names. unfold generate_names. rewrite Hc. cbv zeta. rewrite Hrun.
  destruct (str_eqb (gen_mode_var ui) (lit "replace")).
  - exists (join [newline] names).
    split; [reflexivity |]. split; [lia |]. split; [exact Hall |].
    pose proof (read_lines_before_blank names [] Hne Hbreak (Forall_nil _))
      as H.
    rewrite app_nil_r in H. now rewrite H, Hread.
  - exists (insert_text (names_content ui) [newline] (join [newline] names)).
    split; [reflexivity |]. split; [lia |]. split; [exact Hall |].
    now rewrite (read_lines_insert _ _ Hne Hbreak), Hread.
Qed.

Lemma generate_names_fills_widget_witness :
  exists names content,
    generate_names (G := lcg) 7%N example_ui
    = Returns (set_names example_ui content, [])
    /\ Z.of_nat (length names) = 3%Z
    /\ Forall fictional names
    /\ read_lines (widget_lines content) = [lit "Ana Lee"] ++ names.
Proof.
  apply (generate_names_fills_widget (G := lcg) 7%N example_ui 3%Z).
  reflexivity.
Defined.

(** X13: [add_name] does nothing for an entry of whitespace only; for
    an entry with fewer than two letters it shows the error and changes
    nothing; otherwise it clears the entry, and the lines that
    [_read_lines] then finds in the widget are the lines it found before
    followed by the normalised entry. *)
Theorem add_name_cases (ui : NamesUI) :
  (normalize_name_line (add_name_var ui) = [] -> add_name ui = (ui, []))
  /\ (normalize_name_line (add_name_var ui) <> [] ->
      (length (filter is_alpha (normalize_name_line (add_name_var ui))) < 2)%nat ->
      add_name ui = (ui, [msg_invalid_name]))
  /\ ((2 <= length (filter is_alpha (normalize_name_line (add_name_var ui))))%nat ->
      exists content,
        add_name ui
        = ({| name_seed_var := name_seed_var ui;
              gen_names_count_var := gen_names_count_var ui;
              gen_mode_var := gen_mode_var ui;
              add_name_var := [];
              names_content := content |}, [])
        /\ read_lines (widget_lines content)
           = read_lines (widget_lines (names_content ui))
             ++ [normalize_name_line (add_name_var ui)]).
Proof.
  unfold add_name.
  pose proof (normalize_normalised (add_name_var ui)) as Hnorm.
  set (name := normalize_name_line (add_name_var ui)) in *. clearbody name.
  split; [| split].
  - intros ->. reflexivity.
  - intros Hne Hfew. apply truthy_nonempty in Hne. rewrite Hne. simpl.
    apply Nat.ltb_lt in Hfew. now rewrite Hfew.
  - intros Hmany.
    assert (Hne : name <> []) by (intros E; rewrite E in Hmany; simpl in Hmany; lia).
    pose proof Hne as Ht. apply truthy_nonempty in Ht. rewrite Ht. simpl.
    destruct (Nat.ltb_spec (length (filter is_alpha name)) 2) as [? | _];
      [lia |].
    exists (insert_text (names_content ui) [newline] name).
    split; [reflexivity |].
    pose proof (read_lines_insert (names_content ui) [name]) as H.
    simpl join in H. rewrite H.
    + f_equal. now apply read_lines_one.
    + discriminate.
    + constructor; [now apply normalised_no_linebreak | constructor].
Qed.

Lemma dedup_loop_firsts lines : forall seen kept,
  dedup_loop seen kept lines = kept ++ firsts seen lines.
Proof.
  induction lines as [|x lines IH]; intros seen kept; simpl.
  - now rewrite app_nil_r.
  - destruct (str_in (casefold x) seen); [apply IH |].
    rewrite IH, <- app_assoc. reflexivity.
Qed.

Lemma subseq_in {A} (a b : list A) x : subseq a b -> In x a -> In x b.
Proof.
  induction 1 as [|y a b _ IH|y a b _ IH]; intros Hx; simpl in *; tauto.
Qed.

Lemma firsts_subseq lines : forall seen, subseq (firsts seen lines) lines.
Proof.
  induction lines as [|x lines IH]; intros seen; simpl; [constructor |].
  destruct (str_in (casefold x) seen); constructor; apply IH.
Qed.

Lemma firsts_new lines : forall seen y,
  In y (firsts seen lines) -> ~ In (casefold y) seen.
Proof.
  induction lines as [|x lines IH]; intros seen y Hy; simpl in Hy; [easy |].
  destruct (str_in (casefold x) seen) eqn:E; [now apply IH |].
  destruct Hy as [<- | Hy].
  - intros H. apply str_in_In in H. congruence.
  - intros H. apply (IH _ _ Hy). apply in_or_app. now left.
Qed.

Lemma firsts_nodup lines : forall seen,
  NoDup (map casefold (firsts seen lines)).
Proof.
  induction lines as [|x lines IH]; intros seen; simpl; [constructor |].
  destruct (str_in (casefold x) seen); [apply IH |].
  simpl. constructor; [| apply IH].
  intros H. apply in_map_iff in H as (y & Ey & Hy).
  apply firsts_new in Hy. apply Hy. rewrite Ey.
  apply in_or_app. right. now left.
Qed.

Lemma firsts_cover lines : forall seen x,
  In x lines ->
  In (casefold x) seen
  \/ exists y, In y (firsts seen lines) /\ casefold y = casefold x.
Proof.
  induction lines as [|z lines IH]; intros seen x Hx; [destruct Hx |].
  simpl. destruct (str_in (casefold z) seen) eqn:E.
  - destruct Hx as [-> | Hx]; [left; now apply str_in_In | now apply IH].
  - destruct Hx as [-> | Hx]; [right; exists x; simpl; auto |].
    destruct (IH (seen ++ [casefold z]) x Hx) as [H | (y & Hy & Ey)].
    + apply in_app_or in H as [H | [H | []]]; [now left |].
      right. exists z. simpl. auto.
    + right. exists y. simpl. auto.
Qed.

Lemma firsts_first pre : forall seen x post,
  ~ In (casefold x) seen ->
  ~ In (casefold x) (map casefold pre) ->
  In x (firsts seen (pre ++ x :: post)).
Proof.
  induction pre as [|p pre IH]; intros seen x post Hseen Hpre; simpl.
  - destruct (str_in (casefold x) seen) eqn:E; [| now left].
    apply str_in_In in E. contradiction.
  - simpl in Hpre.
    destruct (str_in (casefold p) seen); [apply IH; tauto |].
    right. apply IH; [| tauto].
    intros H. apply in_app_or in H as [H | [H | []]]; [tauto |].
    apply Hpre. now left.
Qed.

Lemma firsts_fixed l : forall seen,
  NoDup (map casefold l) ->
  (forall y, In y l -> ~ In (casefold y) seen) ->
  firsts seen l = l.
Proof.
  induction l as [|x l IH]; intros seen Hnd Hnew; [reflexivity |].
  simpl. inversion Hnd as [|? ? Hx Hl]; subst.
  destruct (str_in (casefold x) seen) eqn:E.
  - apply str_in_In in E. exfalso. apply (Hnew x); [now left | assumption].
  - f_equal. apply IH; [assumption |].
    intros y Hy H. apply in_app_or in H as [H | [H | []]].
    + apply (Hnew y); [now right | assumption].
    + apply Hx. rewrite H. now apply in_map.
Qed.

(** X14: [dedup_names] keeps, of the lines read from the widget, the
    first of every group of lines with the same case folding, in the
    order they had: the kept lines are the lines with some left out,
    their foldings are pairwise distinct, every line read has a kept
    line with its folding, and a line with no earlier line of its
    folding is kept.  The widget then reads back as the kept lines
    exactly, their number is the one reported, and deduplicating again
    keeps them all. *)
Theorem dedup_names_keeps_first (ui : NamesUI) :
  exists kept,
    dedup_names ui = (set_names ui (join [newline] kept),
                      [msg_kept (length kept)])
    /\ read_lines (widget_lines (join [newline] kept)) = kept
    /\ subseq kept (read_lines (widget_lines (names_content ui)))
    /\ NoDup (map casefold kept)
    /\ (forall x, In x (read_lines (widget_lines (names_content ui))) ->
                  exists y, In y kept /\ casefold y = casefold x)
    /\ (forall pre x post,
           read_lines (widget_lines (names_content ui)) = pre ++ x :: post ->
           ~ In (casefold x) (map casefold pre) -> In x kept)
    /\ dedup_loop [] [] kept = kept.
Proof.
  set (lines := read_lines (widget_lines (names_content ui))).
  exists (firsts [] lines).
  assert (Hsub : subseq (firsts [] lines) lines) by apply firsts_subseq.
  split; [| split; [| split; [| split; [| split; [| split]]]]].
  - unfold dedup_names. fold lines. now rewrite dedup_loop_firsts.
  - assert (Hall : Forall (fun l => l <> [] /\ normalised l) (firsts [] lines)).
    { apply Forall_forall. intros l Hl.
      apply (read_lines_in (widget_lines (names_content ui))).
      eapply subseq_in; eassumption. }
    destruct (firsts [] lines) as [|k kept] eqn:E; [reflexivity |].
    pose proof (read_lines_before_blank (k :: kept) []) as H.
    rewrite app_nil_r in H. rewrite H.
    + now apply read_lines_fixed.
    + discriminate.
    + eapply Forall_impl; [| exact Hall].
      intros l [_ Hl]. now apply normalised_no_linebreak.
    + constructor.
  - exact Hsub.
  - apply firsts_nodup.
  - intros x Hx. destruct (firsts_cover lines [] x Hx) as [[] | H]; exact H.
  - intros pre x post E Hpre. fold lines in E. rewrite E.
    apply firsts_first; [easy | assumption].
  - rewrite dedup_loop_firsts. simpl. apply firsts_fixed.
    + apply firsts_nodup.
    + intros y _ [].
Qed.

(** ** A pool of synthesized names *)

Lemma fictional_pool names display first_s last_s :
  Forall fictional names ->
  In (display, first_s, last_s) (build_name_pool names) ->
  (2 <= length first_s)%nat /\ (2 <= length last_s)%nat.
Proof.
  intros Hall He. unfold build_name_pool in He.
  apply in_flat_map in He as (n & Hn & He).
  rewrite Forall_forall in Hall.
  destruct (fictional_entry n (Hall n Hn))
    as (fn & ln & _ & Lf & Ll & _ & _ & Hp & _).
  rewrite Hp in He. destruct He as [He | []].
  injection He as _ <- <-. unfold lower. rewrite !length_map. lia.
Qed.

Lemma fictional_pool_length names :
  Forall fictional names -> length (build_name_pool names) = length names.
Proof.
  unfold build_name_pool. induction 1 as [|n names Hn _ IH]; [reflexivity |].
  simpl. destruct (fictional_entry n Hn) as (fn & ln & _ & _ & _ & _ & _ & Hp & _).
  rewrite Hp. simpl. now rewrite IH.
Qed.

(** X15: when the lines of the names widget are synthesized names, each
    of them gives one entry of the name pool, and no candidate of the
    batch is rejected by the sanitizer, whatever the enabled patterns;
    so without the unique flag the batch returns exactly the requested
    number of rows, with no warning. *)
Theorem synthesized_pool_never_rejects `{G : PyRandom} (ambient : Rng)
        (app : App) (b : batch) :
  validate app = inr b ->
  Forall fictional (read_lines (names_text app)) ->
  never_rejected b
  /\ length (name_pool b) = length (read_lines (names_text app))
  /\ (unique_var app = false ->
      exists app',
        generate_emails ambient app = Returns (app', [])
        /\ Z.of_nat (length (last_rows app')) = count b).
Proof.
  intros Hv Hall.
  destruct (validate_batch app b Hv) as (_ & _ & _ & _ & Hpool & _).
  assert (Hnever : never_rejected b).
  { apply (long_keys_never_rejected app b Hv).
    intros display first_s last_s Hin. rewrite Hpool in Hin.
    eapply fictional_pool; eassumption. }
  split; [exact Hnever |]. split.
  - rewrite Hpool. now apply fictional_pool_length.
  - intros Hnu. now apply never_rejected_exact.
Qed.

Lemma synthesized_pool_never_rejects_witness :
  exists b,
    validate synthesized_app = inr b
    /\ never_rejected b
    /\ length (name_pool b) = 2%nat
    /\ exists app',
         generate_emails (G := lcg) 7%N synthesized_app = Returns (app', [])
         /\ Z.of_nat (length (last_rows app')) = count b.
Proof.
  destruct (validate synthesized_app) as [d | b] eqn:Hv;
    [vm_compute in Hv; discriminate |].
  exists b. split; [reflexivity |].
  assert (Hall : Forall fictional (read_lines (names_text synthesized_app))).
  { change (read_lines (names_text synthesized_app))
      with [lit "Alla Kavimar"; lit "Anne Vetaven"].
    constructor; [| constructor; [| constructor]].
    - exists (capitalize (lit "al" ++ lit "la")),
             (capitalize (lit "ka" ++ lit "vi" ++ lit "mar")).
      split; [apply in_first_names; vm_compute; pick_member |].
      split; [apply in_last_names; vm_compute; pick_member | reflexivity].
    - exists (capitalize (lit "an" ++ lit "ne")),
             (capitalize (lit "ve" ++ lit "ta" ++ lit "ven")).
      split; [apply in_first_names; vm_compute; pick_member |].
      split; [apply in_last_names; vm_compute; pick_member | reflexivity]. }
  destruct (synthesized_pool_never_rejects (G := lcg) 7%N synthesized_app b
              Hv Hall) as (Hn & Hl & Hrun).
  split; [exact Hn |]. split; [exact Hl |]. apply Hrun. reflexivity.
Defined.

(** * Further properties: the exports *)

(** ** Comma-separated text *)

Lemma csv_unquoted v : forall field record d t,
  Forall (fun c => c <> dquote /\ c <> "," /\ c <> newline) v ->
  d = "," \/ d = newline ->
  csv_read Unquoted field record (v ++ d :: t)
  = csv_after d (rev field ++ v) record t.
Proof.
  induction v as [|c v IH]; intros field record d t Hv Hd.
  - rewrite app_nil_r. destruct Hd as [-> | ->]; reflexivity.
  - inversion Hv as [|? ? (H1 & H2 & H3) Hv']; subst.
    apply Ascii.eqb_neq in H1, H2, H3. simpl. rewrite H1, H2, H3.
    rewrite IH by assumption. simpl rev. now rewrite <- app_assoc.
Qed.

Lemma csv_quoted v : forall field record d t,
  d = "," \/ d = newline ->
  csv_read Quoted field record
           (replace_char dquote [dquote; dquote] v ++ dquote :: d :: t)
  = csv_after d (rev field ++ v) record t.
Proof.
  induction v as [|c v IH]; intros field record d t Hd.
  - rewrite app_nil_r. destruct Hd as [-> | ->]; reflexivity.
  - unfold replace_char. simpl flat_map. fold (replace_char dquote [dquote; dquote] v).
    destruct (Ascii.eqb c dquote) eqn:E.
    + apply Ascii.eqb_eq in E. subst c. simpl.
      rewrite IH by assumption. simpl rev. now rewrite <- app_assoc.
    + simpl. rewrite E. rewrite IH by assumption.
      simpl rev. now rewrite <- app_assoc.
Qed.

Lemma not_among (chars : list ascii) (val : str) :
  existsb (fun ch => existsb (Ascii.eqb ch) val) chars = false ->
  Forall (fun c => Forall (fun ch => c <> ch) chars) val.
Proof.
  intros H. apply Forall_forall. intros c Hc.
  apply Forall_forall. intros ch Hch ->.
  assert (E : existsb (fun ch => existsb (Ascii.eqb ch) val) chars = true).
  { apply existsb_exists. exists ch. split; [assumption |].
    apply existsb_exists. exists ch. split; [assumption | apply Ascii.eqb_refl]. }
  congruence.
Qed.

Lemma csv_field v record d t :
  d = "," \/ d = newline ->
  csv_read FieldStart [] record (csv_quote v ++ d :: t)
  = csv_after d v record t.
Proof.
  intros Hd. unfold csv_quote.
  destruct (existsb _ [","; dquote; newline; cr]) eqn:E.
  - rewrite <- !app_assoc. simpl.
    now rewrite (csv_quoted v [] record d t Hd).
  - apply not_among in E.
    assert (Hv : Forall (fun c => c <> dquote /\ c <> "," /\ c <> newline) v).
    { eapply Forall_impl; [| exact E]. intros c Hc.
      inversion Hc as [|? ? A1 Hc1]; subst.
      inversion Hc1 as [|? ? A2 Hc2]; subst.
      inversion Hc2 as [|? ? A3 _]; subst. auto. }
    destruct v as [|c v].
    + destruct Hd as [-> | ->]; reflexivity.
    + inversion Hv as [|? ? (H1 & H2 & H3) Hv']; subst.
      apply Ascii.eqb_neq in H1, H2, H3. simpl. rewrite H1, H2, H3.
      now rewrite (csv_unquoted v [c] record d t Hv' Hd).
Qed.

Lemma csv_record vs : forall v record t,
  csv_read FieldStart [] record
           (join (lit ",") (map csv_quote (v :: vs)) ++ newline :: t)
  = option_map (cons (rev record ++ v :: vs)) (csv_read FieldStart [] [] t).
Proof.
  induction vs as [|w vs IH]; intros v record t.
  - simpl join. rewrite csv_field by now right. reflexivity.
  - change (join (lit ",") (map csv_quote (v :: w :: vs)))
      with (csv_quote v ++ "," :: join (lit ",") (map csv_quote (w :: vs))).
    set (J := join (lit ",") (map csv_quote (w :: vs))) in *.
    rewrite <- app_assoc.
    change (("," :: J) ++ newline :: t) with ("," :: J ++ newline :: t).
    rewrite csv_field by now left.
    change (csv_after "," v record (J ++ newline :: t))
      with (csv_read FieldStart [] (v :: record) (J ++ newline :: t)).
    subst J. rewrite IH. simpl rev. now rewrite <- app_assoc.
Qed.

Lemma csv_file (records : list (list str)) :
  Forall (fun r => r <> []) records ->
  csv_records
    (concat (map (fun r => join (lit ",") (map csv_quote r) ++ [newline])
                 records))
  = Some records.
Proof.
  unfold csv_records. induction 1 as [|r records Hr _ IH]; [reflexivity |].
  destruct r as [|v vs]; [congruence |].
  cbn [map concat]. rewrite <- app_assoc. cbn [app].
  change (csv_quote v :: map csv_quote vs) with (map csv_quote (v :: vs)).
  rewrite csv_record, IH. reflexivity.
Qed.

(** X16: [export_csv] shows an error and writes nothing when no rows
    are retained, and does nothing when the file dialog is cancelled;
    otherwise the text it writes reads back, as comma-separated text
    with quoted fields, to the header and the five values of every
    row, in order, whatever commas, quotes or line breaks the values
    contain. *)
Theorem export_csv_reads_back (app : App) (path : str) :
  (last_rows app = [] ->
   export_csv app path = NothingToExport msg_nothing_to_export)
  /\ (last_rows app <> [] -> path = [] -> export_csv app path = Cancelled)
  /\ (last_rows app <> [] -> path <> [] ->
      exists content,
        export_csv app path
        = Written path content (msg_saved "Exported CSV" path)
        /\ csv_records content
           = Some (export_columns :: map row_values (last_rows app))).
Proof.
  unfold export_csv. split; [| split].
  - intros ->. reflexivity.
  - intros Hrows ->. destruct (last_rows app); [congruence | reflexivity].
  - intros Hrows Hpath. exists (csv_text (last_rows app)).
    apply truthy_nonempty in Hpath. rewrite Hpath.
    destruct (last_rows app) as [|r rows] eqn:E; [congruence |].
    split; [reflexivity |]. clear E Hrows. generalize (r :: rows) as rs.
    intros rs.
    assert (E : csv_text rs
                = concat (map (fun r => join (lit ",") (map csv_quote r)
                                        ++ [newline])
                              (export_columns :: map row_values rs))).
    { unfold csv_text. cbn [map concat]. rewrite map_map, <- app_assoc.
      reflexivity. }
    rewrite E. apply csv_file. constructor; [discriminate |].
    apply Forall_forall. intros x Hx. apply in_map_iff in Hx as (y & <- & _).
    discriminate.
Qed.

(** ** The rows of the SQL text *)

Lemma sql_literal v : forall field record d t,
  d = "," \/ d = ")" ->
  sql_read InLiteral field record (sql_escape v ++ "'" :: d :: t)
  = sql_after d (rev field ++ v) record t.
Proof.
  induction v as [|c v IH]; intros field record d t Hd.
  - rewrite app_nil_r. destruct Hd as [-> | ->]; reflexivity.
  - unfold sql_escape, replace_char. simpl flat_map.
    fold (replace_char "'" (lit "''") v). fold (sql_escape v).
    destruct (Ascii.eqb c "'") eqn:E.
    + apply Ascii.eqb_eq in E. subst c. simpl.
      rewrite IH by assumption. simpl rev. now rewrite <- app_assoc.
    + simpl. rewrite E. rewrite IH by assumption.
      simpl rev. now rewrite <- app_assoc.
Qed.

Lemma quoted_app v rest :
  (lit "'" ++ sql_escape v ++ lit "'") ++ rest
  = "'" :: sql_escape v ++ "'" :: rest.
Proof. simpl. now rewrite <- app_assoc. Qed.

Lemma sql_quoted v record d t :
  d = "," \/ d = ")" ->
  sql_read LiteralStart [] record
           ((lit "'" ++ sql_escape v ++ lit "'") ++ d :: t)
  = sql_after d v record t.
Proof.
  intros Hd. rewrite quoted_app.
  change (sql_read LiteralStart [] record ("'" :: sql_escape v ++ "'" :: d :: t))
    with (sql_read InLiteral [] record (sql_escape v ++ "'" :: d :: t)).
  now rewrite sql_literal.
Qed.

Lemma sql_tuple vs : forall v record t,
  sql_read LiteralStart [] record
           (join (lit ", ")
                 (map (fun v => lit "'" ++ sql_escape v ++ lit "'") (v :: vs))
            ++ ")" :: t)
  = option_map (cons (rev record ++ v :: vs)) (sql_read AfterRow [] [] t).
Proof.
  induction vs as [|w vs IH]; intros v record t.
  - cbn [map join]. rewrite sql_quoted by now right. reflexivity.
  - set (q := fun v => lit "'" ++ sql_escape v ++ lit "'") in *.
    change (join (lit ", ") (map q (v :: w :: vs)))
      with (q v ++ "," :: " " :: join (lit ", ") (map q (w :: vs))).
    set (J := join (lit ", ") (map q (w :: vs))) in *.
    rewrite <- app_assoc.
    change (("," :: " " :: J) ++ ")" :: t) with ("," :: " " :: J ++ ")" :: t).
    unfold q at 1. rewrite sql_quoted by now left.
    change (sql_after "," v record (" " :: J ++ ")" :: t))
      with (sql_read LiteralStart [] (v :: record) (J ++ ")" :: t)).
    subst J. rewrite IH. simpl rev. now rewrite <- app_assoc.
Qed.

Lemma sql_line r t :
  sql_read RowStart [] [] (sql_values_line r ++ t)
  = option_map (cons (row_values r)) (sql_read AfterRow [] [] t).
Proof.
  unfold sql_values_line.
  set (J := join (lit ", ")
                 (map (fun v => lit "'" ++ sql_escape v ++ lit "'")
                      (row_values r))).
  rewrite <- !app_assoc.
  change (lit "  (" ++ J ++ lit ")" ++ t) with (" " :: " " :: "(" :: J ++ ")" :: t).
  change (sql_read RowStart [] [] (" " :: " " :: "(" :: J ++ ")" :: t))
    with (sql_read LiteralStart [] [] (J ++ ")" :: t)).
  subst J. unfold row_values at 1. rewrite sql_tuple. reflexivity.
Qed.

Lemma sql_lines rows : forall r,
  sql_rows (sql_values_text (r :: rows)) = Some (map row_values (r :: rows)).
Proof.
  unfold sql_rows, sql_values_text.
  induction rows as [|r' rows IH]; intros r.
  - cbn [map join]. rewrite sql_line. reflexivity.
  - change (join (lit "," ++ [newline]) (map sql_values_line (r :: r' :: rows)))
      with (sql_values_line r ++ "," :: newline
            :: join (lit "," ++ [newline]) (map sql_values_line (r' :: rows))).
    set (J := join (lit "," ++ [newline]) (map sql_values_line (r' :: rows)))
      in *.
    rewrite <- app_assoc, sql_line.
    change (sql_read AfterRow [] []
              (("," :: newline :: J) ++ lit ";" ++ [newline]))
      with (sql_read RowStart [] [] (J ++ lit ";" ++ [newline])).
    subst J. rewrite IH. reflexivity.
Qed.

(** X17: [export_sql] shows an error and writes nothing when no rows
    are retained, and does nothing when the file dialog is cancelled;
    otherwise it writes the fixed prologue followed by one
    parenthesised row of five quoted literals for every retained row,
    and that text reads back to the five values of every row, in order,
    whatever quotes, commas or parentheses the values contain: a quote
    in a value never ends its literal. *)
Theorem export_sql_reads_back (app : App) (path : str) :
  (last_rows app = [] ->
   export_sql app path = NothingToExport msg_nothing_to_export)
  /\ (last_rows app <> [] -> path = [] -> export_sql app path = Cancelled)
  /\ (last_rows app <> [] -> path <> [] ->
      export_sql app path
      = Written path (sql_prologue ++ sql_values_text (last_rows app))
                (msg_saved "Exported SQL" path)
      /\ sql_rows (sql_values_text (last_rows app))
         = Some (map row_values (last_rows app))).
Proof.
  unfold export_sql. split; [| split].
  - intros ->. reflexivity.
  - intros Hrows ->. destruct (last_rows app); [congruence | reflexivity].
  - intros Hrows Hpath. apply truthy_nonempty in Hpath. rewrite Hpath.
    destruct (last_rows app) as [|r rows]; [congruence |].
    split; [| apply sql_lines].
    cbn [is_nil negb]. f_equal.
Qed.

(** * Further properties: the picks of an attempt, and the rows *)

Section AttemptFacts.

Context {G : PyRandom}.

(** X18: every pass of the loop of a validated batch returns, and makes
    its calls on the random source in one order: an index into the name
    pool, an index into the enabled patterns, a number in [[0, 99]] and
    a number in [[0, 999]]; the candidate is the rendering of the picked
    pattern on the picked entry.  When the sanitized candidate is
    rejected the pass makes no other call and appends no row; otherwise
    it makes a fifth call, an index into the domains, and appends the
    row of the picked name, pattern and domain, unless the batch is
    unique and the email was seen before. *)
Theorem attempt_draw_order (app : App) (b : batch) (st : loop_state)
        (r : Random) :
  validate app = inr b ->
  exists i j n2 n3 display first last pattern raw st' r',
    attempt b st r = Returns (st', r')
    /\ nth_error (name_pool b) i = Some (display, first, last)
    /\ nth_error (enabled_patterns b) j = Some pattern
    /\ (0 <= n2 <= 99)%Z /\ (0 <= n3 <= 999)%Z
    /\ py_format pattern
         (render_kwargs first last (zero_pad 2 n2) (zero_pad 3 n3))
       = Some raw
    /\ (rejected (sanitize (lowercase b) raw) = true ->
        drawn r' = drawn r ++ attempt_picks b i j n2 n3
        /\ rows st' = rows st)
    /\ (rejected (sanitize (lowercase b) raw) = false ->
        exists k d,
          nth_error (domains b) k = Some d
          /\ drawn r'
             = drawn r ++ attempt_picks b i j n2 n3
                       ++ [DrawChoice (length (domains b)) k]
          /\ let row := made_row display pattern
                                 (sanitize (lowercase b) raw) d in
             rows st'
             = if unique b && str_in (row_email row) (seen st)
               then rows st else rows st ++ [row]).
Proof.
  intros Hv.
  destruct (validate_batch app b Hv)
    as ((_ & Hpool & Hdom & _ & Hpat & Hincl) & _).
  destruct (choice_returns (name_pool b) r Hpool)
    as (i & [[display first] last] & g1 & _ & Hi & E1).
  set (r1 := {| gen := g1;
                drawn := drawn r ++ [DrawChoice (length (name_pool b)) i] |})
    in *.
  destruct (choice_returns (enabled_patterns b) r1 Hpat)
    as (j & pattern & g2 & _ & Hj & E2).
  set (r2 := {| gen := g2;
                drawn := drawn r1
                         ++ [DrawChoice (length (enabled_patterns b)) j] |})
    in *.
  destruct (render_pattern_draws pattern first last r2)
    as (n2 & n3 & g3 & B2 & B3 & E3).
  destruct (pattern_formats pattern first last (zero_pad 2 n2)
                            (zero_pad 3 n3)) as [raw Hfmt].
  { apply Hincl. eapply nth_error_In; eassumption. }
  rewrite Hfmt in E3.
  set (r3 := {| gen := g3;
                drawn := drawn r2 ++ [DrawInt 0 99 n2; DrawInt 0 999 n3] |})
    in *.
  assert (Hlog : drawn r3 = drawn r ++ attempt_picks b i j n2 n3).
  { unfold r3, r2, r1, attempt_picks. simpl. now rewrite <- !app_assoc. }
  destruct (rejected (sanitize (lowercase b) raw)) eqn:Hrej.
  - exists i, j, n2, n3, display, first, last, pattern, raw.
    eexists. exists r3.
    split.
    { unfold attempt, bind. rewrite E1, E2, E3, Hrej. reflexivity. }
    split; [exact Hi |]. split; [exact Hj |]. split; [exact B2 |].
    split; [exact B3 |]. split; [exact Hfmt |].
    split; [intros _; split; [exact Hlog | reflexivity] |].
    intros H. congruence.
  - destruct (choice_returns (domains b) r3 Hdom)
      as (k & d & g4 & _ & Hk & E4).
    set (r4 := {| gen := g4;
                  drawn := drawn r3 ++ [DrawChoice (length (domains b)) k] |})
      in *.
    set (row := made_row display pattern (sanitize (lowercase b) raw) d).
    set (dup := unique b && str_in (row_email row) (seen st)).
    exists i, j, n2, n3, display, first, last, pattern, raw.
    exists (if dup
            then {| results := results st; rows := rows st; seen := seen st;
                    tries := tries st + 1 |}
            else {| results := results st ++ [row_email row];
                    rows := rows st ++ [row];
                    seen := if unique b then seen st ++ [row_email row]
                            else seen st;
                    tries := tries st + 1 |}).
    exists r4.
    split.
    { unfold attempt, bind. rewrite E1, E2, E3, Hrej, E4. cbv zeta.
      cbn [seen results rows tries]. unfold dup, row, made_row.
      cbn [row_email].
      destruct (unique b && str_in _ (seen st)); reflexivity. }
    split; [exact Hi |]. split; [exact Hj |]. split; [exact B2 |].
    split; [exact B3 |]. split; [exact Hfmt |].
    split; [intros H; congruence |]. intros _. exists k, d.
    split; [exact Hk |].
    split; [unfold r4; cbn [drawn]; now rewrite Hlog, <- app_assoc |].
    cbv zeta. unfold dup, row, made_row. cbn [row_email].
    destruct (unique b && str_in _ (seen st)); reflexivity.
Qed.

End AttemptFacts.

Lemma attempt_draw_order_witness :
  exists b,
    validate example_app = inr b
    /\ exists i j n2 n3 display first last pattern raw st' r',
        let r := rng_from_seed (G := lcg) 7%N (lit "seed-1") in
        attempt b loop_init r = Returns (st', r')
        /\ nth_error (name_pool b) i = Some (display, first, last)
        /\ nth_error (enabled_patterns b) j = Some pattern
        /\ (0 <= n2 <= 99)%Z /\ (0 <= n3 <= 999)%Z
        /\ py_format pattern
             (render_kwargs first last (zero_pad 2 n2) (zero_pad 3 n3))
           = Some raw
        /\ (rejected (sanitize (lowercase b) raw) = true ->
            drawn r' = drawn r ++ attempt_picks b i j n2 n3
            /\ rows st' = rows loop_init)
        /\ (rejected (sanitize (lowercase b) raw) = false ->
            exists k d,
              nth_error (domains b) k = Some d
              /\ drawn r'
                 = drawn r ++ attempt_picks b i j n2 n3
                           ++ [DrawChoice (length (domains b)) k]
              /\ let row := made_row display pattern
                                     (sanitize (lowercase b) raw) d in
                 rows st'
                 = if unique b && str_in (row_email row) (seen loop_init)
                   then rows loop_init else rows loop_init ++ [row]).
Proof.
  destruct (validate example_app) as [d | b] eqn:Hv;
    [vm_compute in Hv; discriminate |].
  exists b. split; [reflexivity |].
  apply (attempt_draw_order (G := lcg) example_app b loop_init
           (rng_from_seed (G := lcg) 7%N (lit "seed-1")) Hv).
Defined.

(** ** Rows and the names they were made from *)

Lemma build_name_pool_words names display first_s last_s :
  In (display, first_s, last_s) (build_name_pool names) ->
  exists first rest,
    words display = first :: rest
    /\ first_s = slug first /\ last_s = slug (last rest (lit "user")).
Proof.
  intros He. unfold build_name_pool in He.
  apply in_flat_map in He as (n & Hn & He).
  rewrite pool_entry_words in He.
  destruct (words n) as [|w rest] eqn:Ew; [destruct He |]. cbv zeta in He.
  destruct (truthy (Some (slug w))
            && truthy (Some (slug (last rest (lit "user")))));
    [| destruct He].
  destruct He as [He | []]. injection He as <- <- <-.
  exists w, rest. auto.
Qed.

Lemma enabled_flag app p :
  In p (map fst (filter (fun pv => snd pv) (pattern_vars app))) ->
  In (p, true) (pattern_vars app).
Proof.
  intros Hp. apply in_map_iff in Hp as ([q v] & <- & Hq).
  apply filter_In in Hq as [Hq Hv]. simpl in Hv. now subst v.
Qed.

(** X19: [generate_emails] on inputs that pass the checks shows the
    emails of the retained rows, one per line, and every row is made
    from the inputs: its name is a line of the names widget, its
    pattern one whose flag is set, its domain the lowercasing of a
    domain line, and its username, of three characters or more, is
    what its own pattern renders from the slugs of the first and the
    last token of its own name and two numbers in range, character for
    character: the sanitizer has changed nothing. *)
Theorem rows_render_their_names `{G : PyRandom} (ambient : Rng) (app : App)
        (b : batch) :
  validate app = inr b ->
  exists app' dialogs,
    generate_emails ambient app = Returns (app', dialogs)
    /\ out app' = join [newline] (map row_email (last_rows app'))
    /\ forall row,
        In row (last_rows app') ->
        In (row_name row) (read_lines (names_text app))
        /\ In (row_pattern row, true) (pattern_vars app)
        /\ (exists d, In d (read_lines (domains_text app))
                      /\ row_domain row = lower d)
        /\ (3 <= length (row_username row))%nat
        /\ exists first rest n2 n3,
            words (row_name row) = first :: rest
            /\ (0 <= n2 <= 99)%Z /\ (0 <= n3 <= 999)%Z
            /\ In (row_pattern row, row_username row)
                  (candidates (slug first) (slug (last rest (lit "user")))
                              (zero_pad 2 n2) (zero_pad 3 n3)).
Proof.
  intros Hv.
  destruct (generate_emails_runs ambient app b Hv)
    as (st & r' & _ & Hgen & (Hres & Hrows & _) & _).
  destruct (validate_batch app b Hv) as (_ & _ & Hdom & Hpat & Hpool & _).
  exists (fst (publish app b st)), (snd (publish app b st)).
  split; [now rewrite <- surjective_pairing |].
  cbn [publish fst out last_rows]. split; [now rewrite Hres |].
  intros row Hin. rewrite Forall_forall in Hrows.
  destruct (Hrows row Hin)
    as (_ & (d & Hd & Ed) & Hp
        & (first & last_s & n2 & n3 & raw & He & B2 & B3 & Hfmt & Hu) & Hrej).
  destruct (batch_candidate app b _ _ _ _ n2 n3 raw (lowercase b)
                            Hv He Hp B2 B3 Hfmt)
    as (_ & _ & Hc & Hfix & _).
  rewrite Hfix in Hu. rewrite Hpool in He.
  destruct (build_name_pool_slugs _ _ _ _ He) as (Hname & _).
  destruct (build_name_pool_words _ _ _ _ He) as (w & rest & Ew & -> & ->).
  split; [exact Hname |].
  split; [apply enabled_flag; now rewrite <- Hpat |].
  split; [exists d; split; [now rewrite <- Hdom | exact Ed] |].
  split.
  - unfold rejected in Hrej. apply orb_false_iff in Hrej as [_ Hlen].
    apply Nat.ltb_ge in Hlen. exact Hlen.
  - exists w, rest, n2, n3. rewrite Hu. auto.
Qed.

Lemma rows_render_their_names_witness :
  exists app' dialogs,
    generate_emails (G := lcg) 7%N example_app = Returns (app', dialogs)
    /\ out app' = join [newline] (map row_email (last_rows app'))
    /\ forall row,
        In row (last_rows app') ->
        In (row_name row) (read_lines (names_text example_app))
        /\ In (row_pattern row, true) (pattern_vars example_app)
        /\ (exists d, In d (read_lines (domains_text example_app))
                      /\ row_domain row = lower d)
        /\ (3 <= length (row_username row))%nat
        /\ exists first rest n2 n3,
            words (row_name row) = first :: rest
            /\ (0 <= n2 <= 99)%Z /\ (0 <= n3 <= 999)%Z
            /\ In (row_pattern row, row_username row)
                  (candidates (slug first) (slug (last rest (lit "user")))
                              (zero_pad 2 n2) (zero_pad 3 n3)).
Proof.
  destruct (validate example_app) as [d | b] eqn:Hv;
    [vm_compute in Hv; discriminate |].
  apply (rows_render_their_names (G := lcg) 7%N example_app b Hv).
Defined.
